(** * db-migrations: schema parser, schema comparer, migration generator
      and migration listing, embedded in Rocq.

    Strings are sequences of code units; the embedding keeps to code
    units below 256, so a JavaScript string is a [string] of Rocq.  The
    order used by [Array.prototype.sort] without a comparator is the
    lexicographic order on code units, which is [String.compare]. *)

From Stdlib Require Import String Ascii List Bool Arith PeanoNat NArith Lia.
From Stdlib Require Import Permutation Sorted OrderedTypeEx.
Import ListNotations.
Open Scope string_scope.
Open Scope list_scope.
Open Scope nat_scope.

(** ** The JavaScript primitives the sources call *)

Module Js.

Definition codeOf (c : ascii) : nat := nat_of_ascii c.

(** White space of [\s] and of [String.prototype.trim], below 256:
    TAB, LF, VT, FF, CR, SPACE and NBSP. *)
Definition isWhite (c : ascii) : bool :=
  let n := codeOf c in
  ((9 <=? n) && (n <=? 13)) || (n =? 32) || (n =? 160).

(** [\w] is [A-Za-z0-9_]. *)
Definition isWord (c : ascii) : bool :=
  let n := codeOf c in
  ((48 <=? n) && (n <=? 57)) || ((65 <=? n) && (n <=? 90))
  || ((97 <=? n) && (n <=? 122)) || (n =? 95).

(** [\d] is [0-9]. *)
Definition isDigit (c : ascii) : bool :=
  let n := codeOf c in (48 <=? n) && (n <=? 57).

(** [String.prototype.toLowerCase] on one code unit: A-Z and the
    Latin-1 capitals (all of 192..222 but the multiplication sign). *)
Definition lowerChar (c : ascii) : ascii :=
  let n := codeOf c in
  if ((65 <=? n) && (n <=? 90))
     || ((192 <=? n) && (n <=? 222) && negb (n =? 215))
  then ascii_of_nat (n + 32) else c.

Fixpoint toLowerCase (s : string) : string :=
  match s with
  | EmptyString => EmptyString
  | String c s' => String (lowerChar c) (toLowerCase s')
  end.

Definition startsWith (p s : string) : bool := String.prefix p s.

(** [s.includes(p)]: [p] is a prefix of some suffix of [s]. *)
Fixpoint includes (p s : string) : bool :=
  String.prefix p s ||
  match s with
  | EmptyString => false
  | String _ s' => includes p s'
  end.

(** [s.endsWith(p)]: some suffix of [s] is [p]. *)
Fixpoint endsWith (p s : string) : bool :=
  String.eqb s p ||
  match s with
  | EmptyString => false
  | String _ s' => endsWith p s'
  end.

Fixpoint drop (n : nat) (s : string) : string :=
  match n, s with
  | O, _ => s
  | S _, EmptyString => EmptyString
  | S n', String _ s' => drop n' s'
  end.

(** [s.slice(0, n)]. *)
Fixpoint take (n : nat) (s : string) : string :=
  match n, s with
  | O, _ => EmptyString
  | S _, EmptyString => EmptyString
  | S n', String c s' => String c (take n' s')
  end.

(** [s.replace(p, r)] with a string pattern: the first occurrence only. *)
Fixpoint replaceFirst (p r s : string) : string :=
  if String.prefix p s then (r ++ drop (String.length p) s)%string
  else match s with
       | EmptyString => EmptyString
       | String c s' => String c (replaceFirst p r s')
       end.

(** [s.replace] of every non-digit by the empty string: the digits
    of [s]. *)
Fixpoint digitsOnly (s : string) : string :=
  match s with
  | EmptyString => EmptyString
  | String c s' => if isDigit c then String c (digitsOnly s') else digitsOnly s'
  end.

Fixpoint trimStart (s : string) : string :=
  match s with
  | EmptyString => EmptyString
  | String c s' => if isWhite c then trimStart s' else s
  end.

Fixpoint trimEnd (s : string) : string :=
  match s with
  | EmptyString => EmptyString
  | String c s' =>
      let t := trimEnd s' in
      if isWhite c && String.eqb t EmptyString then EmptyString
      else String c t
  end.

Definition trim (s : string) : string := trimEnd (trimStart s).

Definition snoc (s : string) (c : ascii) : string :=
  (s ++ String c EmptyString)%string.

(** [s.split(sep)] for a separator of one code unit. *)
Fixpoint splitChar_aux (sep : ascii) (cur s : string) : list string :=
  match s with
  | EmptyString => [cur]
  | String c s' =>
      if Ascii.eqb c sep then cur :: splitChar_aux sep EmptyString s'
      else splitChar_aux sep (snoc cur c) s'
  end.

Definition splitChar (sep : ascii) (s : string) : list string :=
  splitChar_aux sep EmptyString s.

(** [s.split(/\s+/)]: the pieces between maximal runs of white space;
    a run at either end leaves an empty piece there. *)
Fixpoint splitWhite_aux (cur : string) (inRun : bool) (s : string) : list string :=
  match s with
  | EmptyString => [cur]
  | String c s' =>
      if isWhite c then
        if inRun then splitWhite_aux EmptyString true s'
        else cur :: splitWhite_aux EmptyString true s'
      else splitWhite_aux (snoc cur c) false s'
  end.

Definition splitWhite (s : string) : list string :=
  splitWhite_aux EmptyString false s.

Definition at_sign : ascii := "@"%char.

(** [s.match(/@[^@]+/g)]: every [@] followed by at least one code unit
    other than [@], with all such code units up to the next [@]; the
    empty list stands for [null]. *)
Definition emitAttr (cur : option string) : list string :=
  match cur with
  | Some m => if 2 <=? String.length m then [m] else []
  | None => []
  end.

Fixpoint matchAttrs_aux (cur : option string) (s : string) : list string :=
  match s with
  | EmptyString => emitAttr cur
  | String c s' =>
      if Ascii.eqb c at_sign
      then emitAttr cur ++ matchAttrs_aux (Some (String at_sign EmptyString)) s'
      else match cur with
           | Some m => matchAttrs_aux (Some (snoc m c)) s'
           | None => matchAttrs_aux None s'
           end
  end.

Definition matchAttrs (s : string) : list string := matchAttrs_aux None s.

(** The longest prefix of [s] whose code units satisfy [p], and the rest. *)
Fixpoint span (p : ascii -> bool) (s : string) : string * string :=
  match s with
  | EmptyString => (EmptyString, EmptyString)
  | String c s' =>
      if p c then let (a, b) := span p s' in (String c a, b)
      else (EmptyString, s)
  end.

(** [xs.join(sep)]. *)
Definition join (sep : string) (xs : list string) : string := String.concat sep xs.

(** [xs.includes(x)] and [set.has(x)] on strings. *)
Definition has (x : string) (xs : list string) : bool :=
  existsb (String.eqb x) xs.

(** A [Set] of strings is the list of its members in insertion order,
    which is the order in which [for ... of] visits them. *)
Definition setAdd (s : list string) (x : string) : list string :=
  if has x s then s else s ++ [x].

Definition newSet (xs : list string) : list string :=
  fold_left setAdd xs [].

(** [Array.prototype.sort] without a comparator, on strings: the
    ascending rearrangement for the code-unit order.  That order is
    total and antisymmetric, so every sorting algorithm returns the
    same array; insertion is used here. *)
Definition le (a b : string) : Prop := String.leb a b = true.

Fixpoint insert (x : string) (l : list string) : list string :=
  match l with
  | [] => [x]
  | y :: l' => if String.leb x y then x :: l else y :: insert x l'
  end.

Fixpoint sort (l : list string) : list string :=
  match l with
  | [] => []
  | x :: l' => insert x (sort l')
  end.

(** [a.every((val, idx) => val === b[idx])]. *)
Fixpoint everyAt (idx : nat) (a b : list string) : bool :=
  match a with
  | [] => true
  | val :: a' =>
      match nth_error b idx with
      | Some w => String.eqb val w
      | None => false
      end && everyAt (S idx) a' b
  end.

End Js.

(** ** schemaParser.ts *)

Module ModelField.
Record t := mk {
  name : string;
  type : string;
  modifiers : list string;
  attributes : list string
}.
End ModelField.

Module Model.
Record t := mk {
  name : string;
  fields : list ModelField.t
}.
End Model.

Module ParsedSchema.
(** [enums], [generators] and [datasources] are declared [any[]] and
    the parser leaves them empty. *)
Record t := mk {
  models : list Model.t;
  enums : list unit;
  generators : list unit;
  datasources : list unit
}.
End ParsedSchema.

Module SchemaParser.

Definition brace_open : ascii := "{"%char.
Definition brace_close : ascii := "}"%char.
Definition newline : ascii := ascii_of_nat 10.

(** One attempt of [modelRegex] at the start of [s]: the text
    [model], white space, a name of word characters (first capture),
    white space, an opening brace, any code units but a closing brace
    (second capture), and a closing brace.  The result holds the two
    captures and the length of the match.  Each quantifier is
    followed by a code unit outside its class, so giving back part of
    a run never helps and the greedy attempt is the only one. *)
Definition matchModelAt (s : string) : option (string * string * nat) :=
  if negb (String.prefix "model" s) then None else
  let (ws1, r1) := Js.span Js.isWhite (Js.drop 5 s) in
  if String.length ws1 =? 0 then None else
  let (modelName, r2) := Js.span Js.isWord r1 in
  if String.length modelName =? 0 then None else
  let (ws2, r3) := Js.span Js.isWhite r2 in
  if String.length ws2 =? 0 then None else
  match r3 with
  | String c r4 =>
      if negb (Ascii.eqb c brace_open) then None else
      let (modelContent, r5) := Js.span (fun c => negb (Ascii.eqb c brace_close)) r4 in
      match r5 with
      | String _ _ =>
          Some (modelName, modelContent,
                5 + String.length ws1 + String.length modelName
                + String.length ws2 + 1 + String.length modelContent + 1)
      | EmptyString => None
      end
  | EmptyString => None
  end.

(** The [while ((modelMatch = modelRegex.exec(...)) !== null)] loop of
    a global regular expression: the leftmost match from [lastIndex]
    on, then again from the end of that match.  [skip] counts the code
    units still covered by the last match. *)
Fixpoint execAll (skip : nat) (s : string) : list (string * string) :=
  match s with
  | EmptyString => []
  | String _ s' =>
      match skip with
      | S k => execAll k s'
      | O =>
          match matchModelAt s with
          | Some (modelName, modelContent, len) =>
              (modelName, modelContent) :: execAll (len - 1) s'
          | None => execAll 0 s'
          end
      end
  end.

(** The body of [for (const line of fieldLines)]: the field pushed for
    a line, or [None] where the loop [continue]s. *)
Definition parseFieldLine (line : string) : option ModelField.t :=
  let trimmedLine := Js.trim line in
  if String.eqb trimmedLine EmptyString || Js.startsWith "//" trimmedLine then None else
  match Js.splitWhite trimmedLine with
  | fieldName :: fieldType :: _ =>
      let modifiers := if Js.endsWith "[]" fieldType then ["array"] else [] in
      let attributes := map Js.trim (Js.matchAttrs trimmedLine) in
      Some (ModelField.mk fieldName (Js.replaceFirst "[]" EmptyString fieldType)
              modifiers attributes)
  | _ => None
  end.

Fixpoint filterMap {A B : Type} (f : A -> option B) (l : list A) : list B :=
  match l with
  | [] => []
  | x :: l' =>
      match f x with
      | Some y => y :: filterMap f l'
      | None => filterMap f l'
      end
  end.

Definition fieldLines (modelContent : string) : list string :=
  Js.splitChar newline (Js.trim modelContent).

Definition parseModel (m : string * string) : Model.t :=
  let (modelName, modelContent) := m in
  Model.mk modelName (filterMap parseFieldLine (fieldLines modelContent)).

(** [parseSchema] on the text that [fs.readFile(schemaPath, "utf-8")]
    returned. *)
Definition parseSchema (schemaContent : string) : ParsedSchema.t :=
  ParsedSchema.mk (map parseModel (execAll 0 schemaContent)) [] [] [].

End SchemaParser.

(** ** schemaComparer.ts *)

Module ChangeType.
Inductive t :=
| CREATE_MODEL | DELETE_MODEL | ALTER_MODEL
| CREATE_FIELD | DELETE_FIELD | ALTER_FIELD.

Definition eqb (a b : t) : bool :=
  match a, b with
  | CREATE_MODEL, CREATE_MODEL | DELETE_MODEL, DELETE_MODEL
  | ALTER_MODEL, ALTER_MODEL | CREATE_FIELD, CREATE_FIELD
  | DELETE_FIELD, DELETE_FIELD | ALTER_FIELD, ALTER_FIELD => true
  | _, _ => false
  end.
End ChangeType.

(** The values that [oldValue] and [newValue] (declared [any]) hold. *)
Inductive Payload :=
| PModel (m : Model.t)
| PField (f : ModelField.t).

Module SchemaChange.
(** Optional members are [None] where the object literal leaves them
    out. *)
Record t := mk {
  type : ChangeType.t;
  model : option string;
  field : option string;
  oldValue : option Payload;
  newValue : option Payload
}.
End SchemaChange.

Module SchemaComparer.
Import ChangeType.

Definition findModel (modelName : string) (ms : list Model.t) : option Model.t :=
  find (fun m => String.eqb (Model.name m) modelName) ms.

Definition findField (fieldName : string) (fs : list ModelField.t)
  : option ModelField.t :=
  find (fun f => String.eqb (ModelField.name f) fieldName) fs.

Definition arraysEqual (a b : list string) : bool :=
  if negb (length a =? length b) then false
  else
    let sortedA := Js.sort a in
    let sortedB := Js.sort b in
    Js.everyAt 0 sortedA sortedB.

(** The three loops of [compareModelFields], each over a [Set] of
    field names. *)
Definition createdFields (oldModel newModel : Model.t) : list SchemaChange.t :=
  let oldFieldNames := Js.newSet (map ModelField.name (Model.fields oldModel)) in
  let newFieldNames := Js.newSet (map ModelField.name (Model.fields newModel)) in
  flat_map (fun fieldName =>
    if negb (Js.has fieldName oldFieldNames) then
      [ SchemaChange.mk CREATE_FIELD (Some (Model.name newModel)) (Some fieldName)
          None (option_map PField (findField fieldName (Model.fields newModel))) ]
    else []) newFieldNames.

Definition deletedFields (oldModel newModel : Model.t) : list SchemaChange.t :=
  let oldFieldNames := Js.newSet (map ModelField.name (Model.fields oldModel)) in
  let newFieldNames := Js.newSet (map ModelField.name (Model.fields newModel)) in
  flat_map (fun fieldName =>
    if negb (Js.has fieldName newFieldNames) then
      [ SchemaChange.mk DELETE_FIELD (Some (Model.name oldModel)) (Some fieldName)
          None None ]
    else []) oldFieldNames.

Definition fieldDiffers (oldField newField : ModelField.t) : bool :=
  negb (String.eqb (ModelField.type oldField) (ModelField.type newField))
  || negb (arraysEqual (ModelField.modifiers oldField) (ModelField.modifiers newField))
  || negb (arraysEqual (ModelField.attributes oldField) (ModelField.attributes newField)).

(** [find(...)!] cannot miss for a name taken from the set of the same
    array (lemma [findField_of_has]); the last branch is never taken. *)
Definition alteredFields (oldModel newModel : Model.t) : list SchemaChange.t :=
  let oldFieldNames := Js.newSet (map ModelField.name (Model.fields oldModel)) in
  let newFieldNames := Js.newSet (map ModelField.name (Model.fields newModel)) in
  flat_map (fun fieldName =>
    if Js.has fieldName newFieldNames then
      match findField fieldName (Model.fields oldModel),
            findField fieldName (Model.fields newModel) with
      | Some oldField, Some newField =>
          if fieldDiffers oldField newField then
            [ SchemaChange.mk ALTER_FIELD (Some (Model.name oldModel)) (Some fieldName)
                (Some (PField oldField)) (Some (PField newField)) ]
          else []
      | _, _ => []
      end
    else []) oldFieldNames.

Definition compareModelFields (oldModel newModel : Model.t) : list SchemaChange.t :=
  createdFields oldModel newModel
  ++ deletedFields oldModel newModel
  ++ alteredFields oldModel newModel.

(** The three loops of [compareSchemas], each over a [Set] of model
    names. *)
Definition createdModels (oldSchema newSchema : ParsedSchema.t) : list SchemaChange.t :=
  let oldModelNames := Js.newSet (map Model.name (ParsedSchema.models oldSchema)) in
  let newModelNames := Js.newSet (map Model.name (ParsedSchema.models newSchema)) in
  flat_map (fun modelName =>
    if negb (Js.has modelName oldModelNames) then
      [ SchemaChange.mk CREATE_MODEL (Some modelName) None None
          (option_map PModel (findModel modelName (ParsedSchema.models newSchema))) ]
    else []) newModelNames.

Definition deletedModels (oldSchema newSchema : ParsedSchema.t) : list SchemaChange.t :=
  let oldModelNames := Js.newSet (map Model.name (ParsedSchema.models oldSchema)) in
  let newModelNames := Js.newSet (map Model.name (ParsedSchema.models newSchema)) in
  flat_map (fun modelName =>
    if negb (Js.has modelName newModelNames) then
      [ SchemaChange.mk DELETE_MODEL (Some modelName) None None None ]
    else []) oldModelNames.

Definition modifiedModels (oldSchema newSchema : ParsedSchema.t) : list SchemaChange.t :=
  let oldModelNames := Js.newSet (map Model.name (ParsedSchema.models oldSchema)) in
  let newModelNames := Js.newSet (map Model.name (ParsedSchema.models newSchema)) in
  flat_map (fun modelName =>
    if Js.has modelName newModelNames then
      match findModel modelName (ParsedSchema.models oldSchema),
            findModel modelName (ParsedSchema.models newSchema) with
      | Some oldModel, Some newModel => compareModelFields oldModel newModel
      | _, _ => []
      end
    else []) oldModelNames.

Definition compareSchemas (oldSchema newSchema : ParsedSchema.t) : list SchemaChange.t :=
  createdModels oldSchema newSchema
  ++ deletedModels oldSchema newSchema
  ++ modifiedModels oldSchema newSchema.

End SchemaComparer.

(** ** Exceptions and the file system *)

(** A computation that may throw. *)
Inductive result (A : Type) : Type :=
| Ok (a : A)
| Throw (what : string).
Arguments Ok {A} a.
Arguments Throw {A} what.

Definition bindR {A B : Type} (r : result A) (k : A -> result B) : result B :=
  match r with
  | Ok a => k a
  | Throw e => Throw e
  end.

(** The calls of [fs-extra] and of [path] that the sources make, on
    the contents of the migrations directory.  Paths are those of
    POSIX: the slash separates the components. *)
Module Fs.

#[local] Unset Elimination Schemes.
Inductive node :=
| File (content : string)
| Dir (entries : list (string * node)).
#[local] Set Elimination Schemes.

Definition dir := list (string * node).

Fixpoint lookup (name : string) (d : dir) : option node :=
  match d with
  | [] => None
  | (n, x) :: d' => if String.eqb n name then Some x else lookup name d'
  end.

(** Replace the entry [name], or add it at the end. *)
Fixpoint set (name : string) (x : node) (d : dir) : dir :=
  match d with
  | [] => [(name, x)]
  | (n, y) :: d' =>
      if String.eqb n name then (n, x) :: d' else (n, y) :: set name x d'
  end.

(** A computation on the directory: the outcome and the directory it
    leaves, also when it throws. *)
Definition io (A : Type) : Type := dir -> result A * dir.

Definition ret {A : Type} (a : A) : io A := fun d => (Ok a, d).

Definition raise {A : Type} (what : string) : io A := fun d => (Throw what, d).

Definition bind {A B : Type} (m : io A) (k : A -> io B) : io B :=
  fun d =>
    match m d with
    | (Ok a, d') => k a d'
    | (Throw e, d') => (Throw e, d')
    end.

(** [path.join(migrationsDir, p)]: the components of [p], where an
    empty component and [.] are dropped and [..] takes away the
    component before it.  The result is the list of the components
    below the migrations directory, outermost first; it is [None] for
    a path that leaves the migrations directory. *)
Definition slash : ascii := "/"%char.

Fixpoint normalize (above parts : list string) : option (list string) :=
  match parts with
  | [] => Some (rev above)
  | part :: parts' =>
      if String.eqb part EmptyString || String.eqb part "." then normalize above parts'
      else if String.eqb part ".." then
        match above with
        | [] => None
        | _ :: above' => normalize above' parts'
        end
      else normalize (part :: above) parts'
  end.

Definition join (p : string) : option (list string) :=
  normalize [] (Js.splitChar slash p).

(** [mkdir -p] along a path: a directory on the way is entered, a
    missing one is made, a file in the way is an error. *)
Fixpoint mkdirs (path : list string) (d : dir) : result dir :=
  match path with
  | [] => Ok d
  | name :: path' =>
      match lookup name d with
      | Some (File _) =>
          Throw (match path' with [] => "EEXIST" | _ :: _ => "ENOTDIR" end)
      | Some (Dir es) => bindR (mkdirs path' es) (fun es' => Ok (set name (Dir es') d))
      | None => bindR (mkdirs path' []) (fun es' => Ok (set name (Dir es') d))
      end
  end.

(** The file [name] in the directory at [path], which has to be
    there: the file is created or its content replaced. *)
Fixpoint writeAt (path : list string) (name content : string) (d : dir) : result dir :=
  match path with
  | [] =>
      match lookup name d with
      | Some (Dir _) => Throw "EISDIR"
      | _ => Ok (set name (File content) d)
      end
  | step :: path' =>
      match lookup step d with
      | Some (Dir es) =>
          bindR (writeAt path' name content es) (fun es' => Ok (set step (Dir es') d))
      | Some (File _) => Throw "ENOTDIR"
      | None => Throw "ENOENT"
      end
  end.

(** [fs.ensureDir(path.join(migrationsDir, p))] and
    [fs.writeFile(path.join(path.join(migrationsDir, p), name), content)].
    What lies outside the migrations directory is no part of the
    state: a call on a path that leaves the directory is taken to
    succeed out there and to change nothing inside (a path that
    climbs out and names the migrations directory again from above is
    not followed back in).  The statements on what is written are
    made for the paths that stay inside. *)
Definition ensureDir (p : string) : io unit :=
  fun d =>
    match join p with
    | None => (Ok tt, d)
    | Some path =>
        match mkdirs path d with
        | Ok d' => (Ok tt, d')
        | Throw e => (Throw e, d)
        end
    end.

Definition writeFile (p name content : string) : io unit :=
  fun d =>
    match join p with
    | None => (Ok tt, d)
    | Some path =>
        match writeAt path name content d with
        | Ok d' => (Ok tt, d')
        | Throw e => (Throw e, d)
        end
    end.

(** [fs.pathExists] and [fs.readFile] inside a directory. *)
Definition pathExists (name : string) (es : dir) : bool :=
  match lookup name es with
  | Some _ => true
  | None => false
  end.

Definition readFile (name : string) (es : dir) : result string :=
  match lookup name es with
  | Some (File content) => Ok content
  | Some (Dir _) => Throw "EISDIR"
  | None => Throw "ENOENT"
  end.

End Fs.

Notation "x <- m ;; k" := (Fs.bind m (fun x => k))
  (at level 61, m at next level, right associativity).

(** ** migrationGenerator.ts *)

Module Migration.
Record t := mk {
  id : string;
  name : string;
  timestamp : string;
  upSql : string;
  downSql : string
}.
End Migration.

(** The text that [fs.writeJson(path, obj, { spaces: 2 })] writes for
    an object of three string members: [JSON.stringify(obj, null, 2)]
    and a final line feed. *)
Module Json.

Definition dquote : ascii := ascii_of_nat 34.
Definition backslash : ascii := ascii_of_nat 92.
Definition lf : string := String (ascii_of_nat 10) EmptyString.

Definition hexDigit (n : nat) : ascii :=
  if n <? 10 then ascii_of_nat (48 + n) else ascii_of_nat (87 + n).

(** One code unit inside a JSON string. *)
Definition escapeChar (c : ascii) : string :=
  let n := nat_of_ascii c in
  if n =? 34 then String backslash (String dquote EmptyString)
  else if n =? 92 then String backslash (String backslash EmptyString)
  else if n =? 8 then String backslash "b"
  else if n =? 9 then String backslash "t"
  else if n =? 10 then String backslash "n"
  else if n =? 12 then String backslash "f"
  else if n =? 13 then String backslash "r"
  else if n <? 32 then
    String backslash
      ("u00" ++ String (hexDigit (n / 16)) (String (hexDigit (n mod 16)) EmptyString))
  else String c EmptyString.

Fixpoint escape (s : string) : string :=
  match s with
  | EmptyString => EmptyString
  | String c s' => (escapeChar c ++ escape s')%string
  end.

Definition quote (s : string) : string :=
  (String dquote (escape s) ++ String dquote EmptyString)%string.

Definition member (key value : string) : string :=
  ("  " ++ quote key ++ ": " ++ quote value)%string.

Definition stringify3 (k1 v1 k2 v2 k3 v3 : string) : string :=
  ("{" ++ lf ++ member k1 v1 ++ "," ++ lf ++ member k2 v2 ++ "," ++ lf
   ++ member k3 v3 ++ lf ++ "}" ++ lf)%string.

End Json.

Module MigrationGenerator.
Import ChangeType.

Definition nl : string := Json.lf.

Definition typeMap : list (string * string) :=
  [ ("String", "TEXT"); ("Int", "INTEGER"); ("Float", "REAL");
    ("Boolean", "BOOLEAN"); ("DateTime", "TIMESTAMP"); ("Json", "JSONB") ].

Fixpoint assoc (key : string) (table : list (string * string)) : option string :=
  match table with
  | [] => None
  | (k, v) :: table' => if String.eqb k key then Some v else assoc key table'
  end.

(** [typeMap] is an object literal, so beside its six members it has
    the ones of [Object.prototype]: functions, and the prototype
    itself under [__proto__].  [inherited] gives for each the name of
    the function. *)
Definition inherited : list (string * string) :=
  [ ("constructor", "Object");
    ("__defineGetter__", "__defineGetter__");
    ("__defineSetter__", "__defineSetter__");
    ("hasOwnProperty", "hasOwnProperty");
    ("__lookupGetter__", "__lookupGetter__");
    ("__lookupSetter__", "__lookupSetter__");
    ("isPrototypeOf", "isPrototypeOf");
    ("propertyIsEnumerable", "propertyIsEnumerable");
    ("toString", "toString");
    ("valueOf", "valueOf");
    ("toLocaleString", "toLocaleString") ].

(** The text of a built-in function in a template literal.  The white
    space inside the braces is the engine's: this is the text of
    JavaScriptCore, the engine of [bun], on three lines; V8 gives the
    same on one line. *)
Definition nativeText (functionName : string) : string :=
  ("function " ++ functionName ++ "() {" ++ nl ++ "    [native code]" ++ nl ++ "}")%string.

(** [typeMap[t] || "TEXT"] as a template literal prints it: an
    inherited member is truthy, so it is printed and not replaced by
    [TEXT]. *)
Definition sqlTypeOf (t : string) : string :=
  match assoc t typeMap with
  | Some sqlType => sqlType
  | None =>
      if String.eqb t "__proto__" then "[object Object]"
      else match assoc t inherited with
           | Some functionName => nativeText functionName
           | None => "TEXT"
           end
  end.

(** The body of [for (const attr of field.attributes)]: what one
    attribute pushes onto [constraints]. *)
Definition constraintsOfAttr (attr : string) : list string :=
  (if Js.includes "@id" attr then ["PRIMARY KEY"] else [])
  ++ (if Js.includes "@unique" attr then ["UNIQUE"] else [])
  ++ (if negb (Js.includes "?" attr) && negb (Js.includes "@default" attr)
      then ["NOT NULL"] else []).

Definition constraintsOf (field : ModelField.t) : list string :=
  flat_map constraintsOfAttr (ModelField.attributes field).

Definition columnDefinition (field : ModelField.t) : string :=
  ("  " ++ ModelField.name field ++ " " ++ sqlTypeOf (ModelField.type field)
   ++ " " ++ Js.join " " (constraintsOf field))%string.

(** [change.model?.toLowerCase()], or the empty string. *)
Definition tableNameOf (change : SchemaChange.t) : string :=
  match SchemaChange.model change with
  | Some m => Js.toLowerCase m
  | None => EmptyString
  end.

(** Each generator returns the statement for [up] and the one for
    [down]; reading a member of [undefined], or iterating over it,
    throws a [TypeError]. *)
Definition generateCreateTableSql (change : SchemaChange.t)
  : result (string * string) :=
  match SchemaChange.newValue change with
  | Some (PModel model) =>
      let tableName := Js.toLowerCase (Model.name model) in
      let columnDefinitions :=
        Js.join ("," ++ nl) (map columnDefinition (Model.fields model)) in
      Ok (("CREATE TABLE " ++ tableName ++ " (" ++ nl ++ columnDefinitions
           ++ nl ++ ");")%string,
          ("DROP TABLE IF EXISTS " ++ tableName ++ ";")%string)
  | _ => Throw "TypeError"
  end.

Definition generateDropTableSql (change : SchemaChange.t) : string * string :=
  let tableName := tableNameOf change in
  (("DROP TABLE IF EXISTS " ++ tableName ++ ";")%string,
   ("-- To properly reverse this migration, you need to recreate the table with its original structure"
    ++ nl ++ "-- CREATE TABLE " ++ tableName ++ " (...);")%string).

Definition generateAddColumnSql (change : SchemaChange.t)
  : result (string * string) :=
  let tableName := tableNameOf change in
  match SchemaChange.newValue change with
  | Some (PField field) =>
      let sqlType := sqlTypeOf (ModelField.type field) in
      let constraints := constraintsOf field in
      Ok (("ALTER TABLE " ++ tableName ++ " ADD COLUMN " ++ ModelField.name field
           ++ " " ++ sqlType ++ " " ++ Js.join " " constraints ++ ";")%string,
          ("ALTER TABLE " ++ tableName ++ " DROP COLUMN " ++ ModelField.name field
           ++ ";")%string)
  | _ => Throw "TypeError"
  end.

Definition generateDropColumnSql (change : SchemaChange.t) : string * string :=
  let tableName := tableNameOf change in
  let fieldName := match SchemaChange.field change with
                   | Some f => f
                   | None => EmptyString
                   end in
  (("ALTER TABLE " ++ tableName ++ " DROP COLUMN " ++ fieldName ++ ";")%string,
   ("-- To properly reverse this migration, you need to add the column back with its original definition"
    ++ nl ++ "-- ALTER TABLE " ++ tableName ++ " ADD COLUMN " ++ fieldName
    ++ " ...;")%string).

(** [typeMap[v.type] || "TEXT"] and [v.name] on a payload: a model has
    no member [type], and [typeMap[undefined]] is [undefined]. *)
Definition payloadSqlType (v : Payload) : string :=
  match v with
  | PField f => sqlTypeOf (ModelField.type f)
  | PModel _ => "TEXT"
  end.

Definition payloadName (v : Payload) : string :=
  match v with
  | PField f => ModelField.name f
  | PModel m => Model.name m
  end.

Definition generateAlterColumnSql (change : SchemaChange.t)
  : result (string * string) :=
  let tableName := tableNameOf change in
  match SchemaChange.oldValue change, SchemaChange.newValue change with
  | Some oldField, Some newField =>
      Ok (("ALTER TABLE " ++ tableName ++ " ALTER COLUMN " ++ payloadName newField
           ++ " TYPE " ++ payloadSqlType newField ++ ";" ++ nl
           ++ "-- Additional constraints may need to be modified separately")%string,
          ("ALTER TABLE " ++ tableName ++ " ALTER COLUMN " ++ payloadName oldField
           ++ " TYPE " ++ payloadSqlType oldField ++ ";" ++ nl
           ++ "-- Additional constraints may need to be modified separately")%string)
  | _, _ => Throw "TypeError"
  end.

(** The [switch] of [generateMigration]: what one change pushes onto
    [upStatements] and onto [downStatements]; no [case] for
    [ALTER_MODEL]. *)
Definition statementsOf (change : SchemaChange.t)
  : result (list string * list string) :=
  match SchemaChange.type change with
  | CREATE_MODEL =>
      bindR (generateCreateTableSql change) (fun '(createTableSql, dropTableSql) =>
      Ok ([createTableSql], [dropTableSql]))
  | DELETE_MODEL =>
      let '(dropTableSqlReverse, createTableSqlReverse) := generateDropTableSql change in
      Ok ([dropTableSqlReverse], [createTableSqlReverse])
  | CREATE_FIELD =>
      bindR (generateAddColumnSql change) (fun '(addColumnSql, dropColumnSql) =>
      Ok ([addColumnSql], [dropColumnSql]))
  | DELETE_FIELD =>
      let '(dropColumnSqlReverse, addColumnSqlReverse) := generateDropColumnSql change in
      Ok ([dropColumnSqlReverse], [addColumnSqlReverse])
  | ALTER_FIELD =>
      bindR (generateAlterColumnSql change) (fun '(alterColumnSql, revertColumnSql) =>
      Ok ([alterColumnSql], [revertColumnSql]))
  | ALTER_MODEL => Ok ([], [])
  end.

Fixpoint processChanges (changes : list SchemaChange.t)
  (upStatements downStatements : list string)
  : result (list string * list string) :=
  match changes with
  | [] => Ok (upStatements, downStatements)
  | change :: changes' =>
      bindR (statementsOf change) (fun '(ups, downs) =>
      processChanges changes' (upStatements ++ ups) (downStatements ++ downs))
  end.

(** The digits of [new Date().toISOString()], cut after the first 14;
    [now] is the text that [toISOString] returned. *)
Definition timestampOf (now : string) : string :=
  Js.take 14 (Js.digitsOnly now).

(** A string is truthy unless it is empty. *)
Definition truthy (s : option string) : option string :=
  match s with
  | Some EmptyString => None
  | other => other
  end.

(** [saveMigrationFiles(migration, migrationsDir)]: the directory is
    [path.join(migrationsDir, migration.id)], so a slash in the id
    leads into nested directories. *)
Definition saveMigrationFiles (migration : Migration.t) : Fs.io unit :=
  let migrationDir := Migration.id migration in
  _ <- Fs.ensureDir migrationDir ;;
  _ <- Fs.writeFile migrationDir "migration.json"
         (Json.stringify3 "id" (Migration.id migration)
                          "name" (Migration.name migration)
                          "timestamp" (Migration.timestamp migration)) ;;
  _ <- Fs.writeFile migrationDir "up.sql" (Migration.upSql migration) ;;
  Fs.writeFile migrationDir "down.sql" (Migration.downSql migration).

(** [generateMigration(changes, migrationsDir, migrationName)]: the
    directory is the state, [now] is the reading of the clock. *)
Definition generateMigration (changes : list SchemaChange.t)
  (migrationName : option string) (now : string)
  : Fs.io (option Migration.t) :=
  if length changes =? 0 then Fs.ret None
  else
    match processChanges changes [] [] with
    | Throw e => Fs.raise e
    | Ok (upStatements, downStatements) =>
        let timestamp := timestampOf now in
        let migrationId :=
          (timestamp ++ match truthy migrationName with
                        | Some n => "_" ++ n
                        | None => EmptyString
                        end)%string in
        let upSql := Js.join (nl ++ nl) upStatements in
        let downSql := Js.join (nl ++ nl) downStatements in
        let migration :=
          Migration.mk migrationId
            (match truthy migrationName with
             | Some n => n
             | None => ("migration_" ++ timestamp)%string
             end)
            timestamp upSql downSql in
        _ <- saveMigrationFiles migration ;;
        Fs.ret (Some migration)
    end.

End MigrationGenerator.

(** ** migrationManager.ts *)

Module MigrationManager.
Import ChangeType.

(** [createMigrationName]: a name from the first two changes.  A
    member that is [undefined] prints as that word. *)
Definition shown (s : option string) : string :=
  match s with
  | Some x => x
  | None => "undefined"
  end.

Definition describe (change : SchemaChange.t) : string :=
  let model := shown (SchemaChange.model change) in
  let field := shown (SchemaChange.field change) in
  match SchemaChange.type change with
  | CREATE_MODEL => "add_" ++ model
  | DELETE_MODEL => "remove_" ++ model
  | CREATE_FIELD => "add_" ++ field ++ "_to_" ++ model
  | DELETE_FIELD => "remove_" ++ field ++ "_from_" ++ model
  | ALTER_FIELD => "change_" ++ field ++ "_in_" ++ model
  | ALTER_MODEL => "schema_change"
  end%string.

Definition createMigrationName (changes : list SchemaChange.t) : string :=
  Js.join "_and_" (map describe (firstn 2 changes)).

(** A member of the document of [migration.json] as [getMigrations]
    meets it.  The document is any JSON value, so a member is a
    string, or something else: [undefined] where the document has no
    such member, [null], a number, a boolean, an array or an object.
    For what is no string, [shown] is the string that the conversion
    to a string gives ([undefined] for a missing member). *)
Inductive Member :=
| Text (s : string)
| NotText (shown : string).

Definition toString (v : Member) : string :=
  match v with
  | Text s => s
  | NotText shown => shown
  end.

(** The three members that [getMigrations] reads of the document. *)
Record Metadata := mkMetadata {
  id : Member;
  name : Member;
  timestamp : Member
}.

(** The objects that [getMigrations] pushes: declared [Migration], but
    [id], [name] and [timestamp] are what the document holds. *)
Module Listed.
Record t := mk {
  id : Member;
  name : Member;
  timestamp : Member;
  upSql : string;
  downSql : string
}.
End Listed.

(** [Array.prototype.sort] with a comparator is stable: an element
    stays before the later elements that compare equal to it.  An
    exception of the comparator ends the sort.  Which pairs are
    compared is the choice of the engine; V8 and JavaScriptCore give
    the comparator as first argument an element that stood behind the
    second one in the array.  So does the insertion that stands for
    the sort here: the elements are taken from left to right, and each
    moves in front of the sorted elements at the end that it is less
    than.  [before] holds the elements sorted so far, the last first.
    The choice shows only where some comparisons throw and others do
    not. *)
Section Sort.
Context {A : Type}.
Variable cmp : A -> A -> result comparison.

Fixpoint insertBy (x : A) (before : list A) : result (list A) :=
  match before with
  | [] => Ok [x]
  | y :: before' =>
      bindR (cmp x y) (fun c =>
      match c with
      | Lt => bindR (insertBy x before') (fun r => Ok (y :: r))
      | _ => Ok (x :: before)
      end)
  end.

Fixpoint sortFrom (before l : list A) : result (list A) :=
  match l with
  | [] => Ok (rev before)
  | x :: l' => bindR (insertBy x before) (fun before' => sortFrom before' l')
  end.

Definition sortBy (l : list A) : result (list A) := sortFrom [] l.
End Sort.

Section GetMigrations.
(** [fs.readJson] on the text of [migration.json], followed by the
    reading of the three members: it throws on a text that is no JSON
    document ([JSON.parse]) and on the document [null] (a member of
    [null]).  And [String.prototype.localeCompare]. *)
Variable parseJson : string -> result Metadata.
Variable localeCompare : string -> string -> comparison.

Definition readJson (name : string) (es : Fs.dir) : result Metadata :=
  bindR (Fs.readFile name es) parseJson.

(** The body of the [try] block for one subdirectory. *)
Definition readMigration (es : Fs.dir) : result (option Listed.t) :=
  if Fs.pathExists "migration.json" es
     && Fs.pathExists "up.sql" es
     && Fs.pathExists "down.sql" es
  then
    bindR (readJson "migration.json" es) (fun metadata =>
    bindR (Fs.readFile "up.sql" es) (fun upSql =>
    bindR (Fs.readFile "down.sql" es) (fun downSql =>
    Ok (Some (Listed.mk (id metadata) (name metadata) (timestamp metadata)
                upSql downSql)))))
  else Ok None.

(** The body of [for (const dir of migrationDirs)]: what one entry
    of the migrations directory pushes onto [migrations].  An entry
    that is no directory is passed over; an exception of the [try]
    block is caught and logged. *)
Definition visit (entry : string * Fs.node) : list Listed.t :=
  match snd entry with
  | Fs.File _ => []
  | Fs.Dir es =>
      match readMigration es with
      | Ok (Some migration) => [migration]
      | Ok None => []
      | Throw _ => []
      end
  end.

(** [a.timestamp.localeCompare(b.timestamp)]: a [TypeError] unless
    [a.timestamp] is a string; [b.timestamp] is converted to one. *)
Definition byTimestamp (a b : Listed.t) : result comparison :=
  match Listed.timestamp a with
  | Text s => Ok (localeCompare s (toString (Listed.timestamp b)))
  | NotText _ => Throw "TypeError"
  end.

(** The sort is outside the [try] block: its exception is the
    exception of [getMigrations]. *)
Definition getMigrations (root : Fs.dir) : result (list Listed.t) :=
  sortBy byTimestamp (flat_map visit root).

End GetMigrations.

(** A reader for the documents that [saveMigrationFiles] writes when
    no member needs an escape: three lines [  "key": "value"] between
    braces; and for the empty object, which has none of the members.
    Every other text is refused.  It takes the place of [JSON.parse]
    in the closed examples only, on these documents and on the empty
    text, where both agree. *)
Fixpoint untilQuote (s : string) : option (string * string) :=
  match s with
  | EmptyString => None
  | String c s' =>
      if Ascii.eqb c Json.dquote then Some (EmptyString, s')
      else if Ascii.eqb c Json.backslash then None
      else match untilQuote s' with
           | Some (v, rest) => Some (String c v, rest)
           | None => None
           end
  end.

Definition expect (p s : string) : option string :=
  if String.prefix p s then Some (Js.drop (String.length p) s) else None.

Definition readMember (key s : string) : option (string * string) :=
  match expect ("  " ++ Json.quote key ++ ": " ++ String Json.dquote EmptyString) s with
  | Some r => untilQuote r
  | None => None
  end.

Definition emptyObject : Metadata :=
  mkMetadata (NotText "undefined") (NotText "undefined") (NotText "undefined").

Definition parsePlain (s : string) : result Metadata :=
  if String.eqb s "{}" then Ok emptyObject else
  match expect ("{" ++ Json.lf) s with
  | None => Throw "SyntaxError"
  | Some r0 =>
  match readMember "id" r0 with
  | None => Throw "SyntaxError"
  | Some (i, r1) =>
  match expect ("," ++ Json.lf) r1 with
  | None => Throw "SyntaxError"
  | Some r2 =>
  match readMember "name" r2 with
  | None => Throw "SyntaxError"
  | Some (n, r3) =>
  match expect ("," ++ Json.lf) r3 with
  | None => Throw "SyntaxError"
  | Some r4 =>
  match readMember "timestamp" r4 with
  | None => Throw "SyntaxError"
  | Some (t, r5) =>
      if String.eqb r5 (Json.lf ++ "}" ++ Json.lf)
      then Ok (mkMetadata (Text i) (Text n) (Text t))
      else Throw "SyntaxError"
  end end end end end end.

(** Code-unit comparison, which is what [localeCompare] yields on
    strings of digits. *)
Definition compareDigits (a b : string) : comparison := String.compare a b.

(** *** The manager

    The state of a [MigrationManager]: [previousSchema] ([null] at
    first) and [isInitialized].  [config.autoApply] and
    [config.databaseUrl] only decide what [applyMigration] logs; it
    changes nothing and has no part here, nor has the console.  The
    schema file lies outside the migrations directory: a call gets its
    text, or [None] when reading it fails, and the text stays the same
    during a call. *)
Record t := mkManager {
  previousSchema : option ParsedSchema.t;
  isInitialized : bool
}.

Definition schemaCacheName : string := ".schema-cache.json".

(** [fs.writeJson] and [fs.writeFile] on a path directly in the
    migrations directory. *)
Definition writeRootFile (name content : string) : Fs.io unit :=
  fun d =>
    match Fs.lookup name d with
    | Some (Fs.Dir _) => (Throw "EISDIR", d)
    | _ => (Ok tt, Fs.set name (Fs.File content) d)
    end.

(** [parseSchema(this.config.schemaPath)]. *)
Definition parseSchemaFile (schemaFile : option string) : result ParsedSchema.t :=
  match schemaFile with
  | Some schemaContent => Ok (SchemaParser.parseSchema schemaContent)
  | None => Throw "ENOENT"
  end.

(** [compareSchemas(this.previousSchema, newSchema)]: reading [models]
    of [null] throws. *)
Definition compareWithPrevious (mgr : t) (newSchema : ParsedSchema.t)
  : result (list SchemaChange.t) :=
  match previousSchema mgr with
  | Some oldSchema => Ok (SchemaComparer.compareSchemas oldSchema newSchema)
  | None => Throw "TypeError"
  end.

Section Manager.
(** The text of the cache document for a clock reading and a schema,
    and the [schema] member of a cache document read back: [Ok None]
    when the member is not there, [Throw] when the text is no JSON
    document.  Both are the library's. *)
Variable stringifyCache : string -> ParsedSchema.t -> string.
Variable parseCache : string -> result (option ParsedSchema.t).

Definition loadCachedSchema (mgr : t) (root : Fs.dir) : t * bool :=
  if Fs.pathExists schemaCacheName root then
    match bindR (Fs.readFile schemaCacheName root) parseCache with
    | Ok schema => (mkManager schema (isInitialized mgr), true)
    | Throw _ => (mgr, false)
    end
  else (mgr, false).

Definition saveSchemaCache (mgr : t) (now : string) (root : Fs.dir) : Fs.dir :=
  match previousSchema mgr with
  | Some schema =>
      snd (writeRootFile schemaCacheName (stringifyCache now schema) root)
  | None => root
  end.

(** [fs.ensureDir] of the migrations directory itself finds it there:
    the directory is the state. *)
Definition initialize (mgr : t) (schemaFile : option string) (now : string)
  (root : Fs.dir) : result unit * t * Fs.dir :=
  let (mgr1, _) := loadCachedSchema mgr root in
  match previousSchema mgr1 with
  | Some _ => (Ok tt, mkManager (previousSchema mgr1) true, root)
  | None =>
      match parseSchemaFile schemaFile with
      | Ok schema =>
          let mgr2 := mkManager (Some schema) (isInitialized mgr1) in
          (Ok tt, mkManager (Some schema) true, saveSchemaCache mgr2 now root)
      | Throw e => (Throw e, mgr1, root)
      end
  end.

(** [if (!this.isInitialized) await this.initialize()]. *)
Definition ensureInitialized (mgr : t) (schemaFile : option string) (now : string)
  (root : Fs.dir) : result unit * t * Fs.dir :=
  if isInitialized mgr then (Ok tt, mgr, root)
  else initialize mgr schemaFile now root.

Definition checkForChanges (mgr : t) (schemaFile : option string) (now : string)
  (root : Fs.dir) : result bool * t * Fs.dir :=
  match ensureInitialized mgr schemaFile now root with
  | (Throw e, mgr1, root1) => (Throw e, mgr1, root1)
  | (Ok _, mgr1, root1) =>
      match bindR (parseSchemaFile schemaFile) (compareWithPrevious mgr1) with
      | Ok changes => (Ok (0 <? length changes), mgr1, root1)
      | Throw _ => (Ok false, mgr1, root1)
      end
  end.

(** [nowInit], [nowGenerate] and [nowCache] are the readings of the
    clock in [initialize], in [generateMigration] and in
    [saveSchemaCache]. *)
Definition handleSchemaChangeFromCli (mgr : t) (migrationName : option string)
  (schemaFile : option string) (nowInit nowGenerate nowCache : string) (root : Fs.dir)
  : result (option Migration.t) * t * Fs.dir :=
  match ensureInitialized mgr schemaFile nowInit root with
  | (Throw e, mgr1, root1) => (Throw e, mgr1, root1)
  | (Ok _, mgr1, root1) =>
      match bindR (parseSchemaFile schemaFile)
              (fun newSchema =>
                 bindR (compareWithPrevious mgr1 newSchema)
                   (fun changes => Ok (newSchema, changes))) with
      | Throw _ => (Ok None, mgr1, root1)
      | Ok (newSchema, changes) =>
          if length changes =? 0 then (Ok None, mgr1, root1)
          else
            let name := match MigrationGenerator.truthy migrationName with
                        | Some n => n
                        | None => createMigrationName changes
                        end in
            match MigrationGenerator.generateMigration changes (Some name)
                    nowGenerate root1 with
            | (Ok (Some migration), root2) =>
                let mgr2 := mkManager (Some newSchema) (isInitialized mgr1) in
                (Ok (Some migration), mgr2, saveSchemaCache mgr2 nowCache root2)
            | (Ok None, root2) => (Ok None, mgr1, root2)
            | (Throw _, root2) => (Ok None, mgr1, root2)
            end
      end
  end.

Definition handleSchemaChange (mgr : t) (schemaFile : option string)
  (nowGenerate nowCache : string) (root : Fs.dir) : t * Fs.dir :=
  match bindR (parseSchemaFile schemaFile)
          (fun newSchema =>
             bindR (compareWithPrevious mgr newSchema)
               (fun changes => Ok (newSchema, changes))) with
  | Throw _ => (mgr, root)
  | Ok (newSchema, changes) =>
      match (if 0 <? length changes
             then MigrationGenerator.generateMigration changes
                    (Some (createMigrationName changes)) nowGenerate root
             else (Ok None, root)) with
      | (Throw _, root1) => (mgr, root1)
      | (Ok _, root1) =>
          let mgr1 := mkManager (Some newSchema) (isInitialized mgr) in
          (mgr1, saveSchemaCache mgr1 nowCache root1)
      end
  end.

End Manager.

End MigrationManager.

(** ** The words of the specification *)

Module Spec.
Import ChangeType.

Definition modelNames (s : ParsedSchema.t) : list string :=
  map Model.name (ParsedSchema.models s).

Definition fieldNames (m : Model.t) : list string :=
  map ModelField.name (Model.fields m).

(** Model names are unique within the schema and field names are unique
    within each model. *)
Definition uniqueNames (s : ParsedSchema.t) : Prop :=
  NoDup (modelNames s)
  /\ Forall (fun m => NoDup (fieldNames m)) (ParsedSchema.models s).

(** A model is absent from a schema when no model there has its name. *)
Definition absentFrom (s : ParsedSchema.t) (m : Model.t) : bool :=
  negb (existsb (fun m' => String.eqb (Model.name m') (Model.name m))
          (ParsedSchema.models s)).

Definition createModel (m : Model.t) : SchemaChange.t :=
  SchemaChange.mk CREATE_MODEL (Some (Model.name m)) None None (Some (PModel m)).

Definition deleteModel (m : Model.t) : SchemaChange.t :=
  SchemaChange.mk DELETE_MODEL (Some (Model.name m)) None None None.

Definition createField (m : Model.t) (f : ModelField.t) : SchemaChange.t :=
  SchemaChange.mk CREATE_FIELD (Some (Model.name m)) (Some (ModelField.name f))
    None (Some (PField f)).

Definition isFieldChange (c : SchemaChange.t) : bool :=
  match SchemaChange.type c with
  | CREATE_FIELD | DELETE_FIELD | ALTER_FIELD => true
  | _ => false
  end.

Definition hasType (k : ChangeType.t) (c : SchemaChange.t) : Prop :=
  SchemaChange.type c = k.

Definition deleteField (m : Model.t) (f : ModelField.t) : SchemaChange.t :=
  SchemaChange.mk DELETE_FIELD (Some (Model.name m)) (Some (ModelField.name f))
    None None.

Definition alterField (m : Model.t) (oldField newField : ModelField.t)
  : SchemaChange.t :=
  SchemaChange.mk ALTER_FIELD (Some (Model.name m)) (Some (ModelField.name oldField))
    (Some (PField oldField)) (Some (PField newField)).

(** A model has a field of the name of [f]. *)
Definition hasField (m : Model.t) (f : ModelField.t) : bool :=
  existsb (fun f' => String.eqb (ModelField.name f') (ModelField.name f))
    (Model.fields m).

(** The fields of a model, one for each name: the first field of each
    name, in the order of the model.  With unique field names these
    are all the fields. *)
Fixpoint firstOfEachName (seen : list string) (fs : list ModelField.t)
  : list ModelField.t :=
  match fs with
  | [] => []
  | f :: fs' =>
      if existsb (String.eqb (ModelField.name f)) seen then firstOfEachName seen fs'
      else f :: firstOfEachName (ModelField.name f :: seen) fs'
  end.

Definition namedFields (m : Model.t) : list ModelField.t :=
  firstOfEachName [] (Model.fields m).

(** Two lists hold the same strings the same number of times. *)
Definition occurrences (x : string) (l : list string) : nat :=
  count_occ string_dec l x.

Definition sameMultiset (a b : list string) : bool :=
  forallb (fun x => occurrences x a =? occurrences x b) (a ++ b).

(** Two fields differ: in type, in modifiers or in attributes, the
    last two compared as multisets. *)
Definition differsb (oldField newField : ModelField.t) : bool :=
  negb (String.eqb (ModelField.type oldField) (ModelField.type newField))
  || negb (sameMultiset (ModelField.modifiers oldField) (ModelField.modifiers newField))
  || negb (sameMultiset (ModelField.attributes oldField) (ModelField.attributes newField)).

(** The field-level changes of a model that both schemas have: a
    [CREATE_FIELD] for every field of the new model whose name the old
    model lacks, in the order of the new model; then a [DELETE_FIELD]
    for every field of the old model whose name the new model lacks;
    then an [ALTER_FIELD] for every field of the old model that
    differs from the field of its name in the new model; both in the
    order of the old model. *)
Definition fieldChanges (oldModel newModel : Model.t) : list SchemaChange.t :=
  map (createField newModel)
    (filter (fun f => negb (hasField oldModel f)) (namedFields newModel))
  ++ map (deleteField oldModel)
       (filter (fun f => negb (hasField newModel f)) (namedFields oldModel))
  ++ flat_map (fun oldField =>
       match SchemaComparer.findField (ModelField.name oldField)
               (Model.fields newModel) with
       | Some newField =>
           if differsb oldField newField
           then [alterField oldModel oldField newField] else []
       | None => []
       end) (namedFields oldModel).

(** The emission order of the differ: a [CREATE_MODEL] for every model
    of [new] that [old] lacks, then a [DELETE_MODEL] for every model of
    [old] that [new] lacks, then for each model of [old] that [new] has
    too, in the order of [old], its field-level changes. *)
Definition emissionOrder (old new : ParsedSchema.t) : list SchemaChange.t :=
  map createModel (filter (absentFrom old) (ParsedSchema.models new))
  ++ map deleteModel (filter (absentFrom new) (ParsedSchema.models old))
  ++ flat_map (fun oldModel =>
       match SchemaComparer.findModel (Model.name oldModel) (ParsedSchema.models new) with
       | Some newModel => fieldChanges oldModel newModel
       | None => []
       end) (ParsedSchema.models old).

(** What the generator needs of a change: a kind its [switch] handles,
    a model name, a field name on a field-level change. *)
Definition differOutput (c : SchemaChange.t) : Prop :=
  In (SchemaChange.type c)
    [CREATE_MODEL; DELETE_MODEL; CREATE_FIELD; DELETE_FIELD; ALTER_FIELD]
  /\ (exists m, SchemaChange.model c = Some m)
  /\ (isFieldChange c = true -> exists f, SchemaChange.field c = Some f).

(** The payloads that the generators read are there and of the right
    shape. *)
Definition payloadsPresent (c : SchemaChange.t) : bool :=
  match SchemaChange.type c, SchemaChange.oldValue c, SchemaChange.newValue c with
  | CREATE_MODEL, _, Some (PModel _) => true
  | CREATE_FIELD, _, Some (PField _) => true
  | ALTER_FIELD, Some (PField _), Some (PField _) => true
  | DELETE_MODEL, _, _ => true
  | DELETE_FIELD, _, _ => true
  | _, _, _ => false
  end.

(** Two fields differ for the differ: in type, in modifiers or in
    attributes, the last two compared as multisets. *)
Definition differs (oldField newField : ModelField.t) : Prop :=
  ModelField.type oldField <> ModelField.type newField
  \/ ~ Permutation (ModelField.modifiers oldField) (ModelField.modifiers newField)
  \/ ~ Permutation (ModelField.attributes oldField) (ModelField.attributes newField).

(** The entries of the directory at a path below the migrations
    directory, none if there is no such directory. *)
Fixpoint entriesAt (path : list string) (d : Fs.dir) : Fs.dir :=
  match path with
  | [] => d
  | name :: path' =>
      match Fs.lookup name d with
      | Some (Fs.Dir es) => entriesAt path' es
      | _ => []
      end
  end.

(** The entries of the directory of a migration: the directory that
    [path.join] names for its id. *)
Definition entriesOf (id : string) (root : Fs.dir) : Fs.dir :=
  match Fs.join id with
  | Some path => entriesAt path root
  | None => []
  end.

Definition notDir (name : string) (es : Fs.dir) : bool :=
  match Fs.lookup name es with
  | Some (Fs.Dir _) => false
  | _ => true
  end.

(** No file stands where the path needs a directory. *)
Fixpoint noFileOn (path : list string) (d : Fs.dir) : bool :=
  match path with
  | [] => true
  | name :: path' =>
      match Fs.lookup name d with
      | Some (Fs.File _) => false
      | Some (Fs.Dir es) => noFileOn path' es
      | None => true
      end
  end.

(** Nothing of the migrations directory stands in the way of saving
    under [id]: no file is on the path of the directory of [id], and
    none of the three file names is a directory there. *)
Definition writable (id : string) (root : Fs.dir) : bool :=
  match Fs.join id with
  | Some path =>
      noFileOn path root
      && notDir "migration.json" (entriesAt path root)
      && notDir "up.sql" (entriesAt path root)
      && notDir "down.sql" (entriesAt path root)
  | None => true
  end.

(** The migrations directory with the entries [es] in the directory at
    [path], which is made if it is not there. *)
Fixpoint putDir (path : list string) (es : Fs.dir) (d : Fs.dir) : Fs.dir :=
  match path with
  | [] => es
  | name :: path' =>
      Fs.set name
        (Fs.Dir (putDir path' es
                   (match Fs.lookup name d with
                    | Some (Fs.Dir es0) => es0
                    | _ => []
                    end))) d
  end.

Definition metadataText (m : Migration.t) : string :=
  Json.stringify3 "id" (Migration.id m) "name" (Migration.name m)
    "timestamp" (Migration.timestamp m).

(** The directory of a migration once its three files are written over
    the entries [es]. *)
Definition storedOver (m : Migration.t) (es : Fs.dir) : Fs.dir :=
  Fs.set "down.sql" (Fs.File (Migration.downSql m))
    (Fs.set "up.sql" (Fs.File (Migration.upSql m))
       (Fs.set "migration.json" (Fs.File (metadataText m)) es)).

(** The migrations directory once the three files of a migration are
    saved: the directory of its id holds them beside what it held; a
    directory outside the migrations directory leaves the state as it
    is. *)
Definition saved (m : Migration.t) (root : Fs.dir) : Fs.dir :=
  match Fs.join (Migration.id m) with
  | Some path => putDir path (storedOver m (entriesAt path root)) root
  | None => root
  end.

(** The migration that [generateMigration] builds from the statements. *)
Definition migrationOf (migrationName : option string) (now : string)
  (ups downs : list string) : Migration.t :=
  let timestamp := MigrationGenerator.timestampOf now in
  Migration.mk
    (timestamp ++ match MigrationGenerator.truthy migrationName with
                  | Some n => "_" ++ n
                  | None => EmptyString
                  end)%string
    (match MigrationGenerator.truthy migrationName with
     | Some n => n
     | None => ("migration_" ++ timestamp)%string
     end)
    timestamp
    (Js.join (MigrationGenerator.nl ++ MigrationGenerator.nl) ups)
    (Js.join (MigrationGenerator.nl ++ MigrationGenerator.nl) downs).

(** The shape of [toISOString] for the years 0000 to 9999, a [d] for
    each digit: four digits of the year, two of the month, and so on to
    three of the milliseconds. *)
Definition isoPattern : string := "dddd-dd-ddTdd:dd:dd.dddZ".

Fixpoint matchesPattern (p s : string) : bool :=
  match p, s with
  | EmptyString, EmptyString => true
  | String pc p', String c s' =>
      (if Ascii.eqb pc "d"%char then Js.isDigit c else Ascii.eqb c pc)
      && matchesPattern p' s'
  | _, _ => false
  end.

Definition isoFormat (now : string) : bool := matchesPattern isoPattern now.

Fixpoint noDigit (p : string) : bool :=
  match p with
  | EmptyString => true
  | String pc p' => negb (Js.isDigit pc) && noDigit p'
  end.

(** A pattern of [n] digit places. *)
Fixpoint digitPlaces (n : nat) : string :=
  match n with
  | O => EmptyString
  | S n' => String "d"%char (digitPlaces n')
  end.

(** The text of [toISOString] with the given digits for the year, the
    month, the day, the hour, the minute, the second and the
    milliseconds. *)
Definition isoText (year month day hour minute second millis : string) : string :=
  (year ++ "-" ++ month ++ "-" ++ day ++ "T" ++ hour ++ ":" ++ minute ++ ":"
   ++ second ++ "." ++ millis ++ "Z")%string.

(** A directory holds the three files of a migration. *)
Definition complete (es : Fs.dir) : bool :=
  Fs.pathExists "migration.json" es
  && Fs.pathExists "up.sql" es
  && Fs.pathExists "down.sql" es.

(** The timestamp of a listed migration is a string. *)
Definition textTimestamp (m : MigrationManager.Listed.t) : bool :=
  match MigrationManager.Listed.timestamp m with
  | MigrationManager.Text _ => true
  | MigrationManager.NotText _ => false
  end.

Definition timestampText (m : MigrationManager.Listed.t) : string :=
  MigrationManager.toString (MigrationManager.Listed.timestamp m).

(** [b] may stand behind [a] in an ascending listing: its timestamp is
    not before that of [a]. *)
Definition ascending (localeCompare : string -> string -> comparison)
  (a b : MigrationManager.Listed.t) : Prop :=
  localeCompare (timestampText b) (timestampText a) <> Lt.

(** Two lists hold the same names. *)
Definition sameNames (a b : list string) : Prop :=
  forall n, In n a <-> In n b.

(** Nothing changed for the differ: the two schemas have the same model
    names; the two models found under a name have the same field names;
    and the two fields found under a name do not differ. *)
Definition unchanged (old new : ParsedSchema.t) : Prop :=
  sameNames (modelNames old) (modelNames new)
  /\ forall n mo mn,
       SchemaComparer.findModel n (ParsedSchema.models old) = Some mo ->
       SchemaComparer.findModel n (ParsedSchema.models new) = Some mn ->
       sameNames (fieldNames mo) (fieldNames mn)
       /\ forall f fo fn,
            SchemaComparer.findField f (Model.fields mo) = Some fo ->
            SchemaComparer.findField f (Model.fields mn) = Some fn ->
            ~ differs fo fn.

(** The differ emits a change of kind [k] for model [m] and, on a
    field-level change, field [f]. *)
Definition emits (old new : ParsedSchema.t) (k : ChangeType.t) (m : string)
  (f : option string) : Prop :=
  exists c, In c (SchemaComparer.compareSchemas old new)
            /\ SchemaChange.type c = k
            /\ SchemaChange.model c = Some m
            /\ SchemaChange.field c = f.

(** Every code unit of a string passes a test. *)
Fixpoint everyChar (p : ascii -> bool) (s : string) : bool :=
  match s with
  | EmptyString => true
  | String c s' => p c && everyChar p s'
  end.

Definition notWhite (c : ascii) : bool := negb (Js.isWhite c).
Definition notAt (c : ascii) : bool := negb (Ascii.eqb c Js.at_sign).
Definition notClose (c : ascii) : bool := negb (Ascii.eqb c SchemaParser.brace_close).

(** An attribute as the parser keeps it: an [@] and then no other. *)
Definition attrShape (a : string) : bool :=
  match a with
  | String c body => Ascii.eqb c Js.at_sign && everyChar notAt body
  | EmptyString => false
  end.

(** A model name as the parser keeps it: word characters, at least one. *)
Definition modelShape (m : Model.t) : Prop :=
  Model.name m <> EmptyString /\ everyChar Js.isWord (Model.name m) = true.

(** A field as the parser keeps it. *)
Definition fieldShape (f : ModelField.t) : Prop :=
  ModelField.name f <> EmptyString
  /\ everyChar notWhite (ModelField.name f) = true
  /\ everyChar notWhite (ModelField.type f) = true
  /\ (ModelField.modifiers f = [] \/ ModelField.modifiers f = ["array"])
  /\ Forall (fun a => attrShape a = true) (ModelField.attributes f).

(** The statements that one change adds to the [up] script and to the
    [down] script; none where its generator throws. *)
Definition upOf (c : SchemaChange.t) : list string :=
  match MigrationGenerator.statementsOf c with
  | Ok (ups, _) => ups
  | Throw _ => []
  end.

Definition downOf (c : SchemaChange.t) : list string :=
  match MigrationGenerator.statementsOf c with
  | Ok (_, downs) => downs
  | Throw _ => []
  end.

(** The kinds for which the [switch] of [generateMigration] has a case. *)
Definition handled (c : SchemaChange.t) : bool :=
  negb (ChangeType.eqb (SchemaChange.type c) ALTER_MODEL).

(** A change whose generator reads a member of a payload that is not
    there: no model in [CREATE_MODEL], no field in [CREATE_FIELD], a
    missing side in [ALTER_FIELD]. *)
Definition missingPayload (c : SchemaChange.t) : bool :=
  match SchemaChange.type c, SchemaChange.oldValue c, SchemaChange.newValue c with
  | CREATE_MODEL, _, Some (PModel _) => false
  | CREATE_MODEL, _, _ => true
  | CREATE_FIELD, _, Some (PField _) => false
  | CREATE_FIELD, _, _ => true
  | ALTER_FIELD, Some _, Some _ => false
  | ALTER_FIELD, _, _ => true
  | _, _, _ => false
  end.

(** The number of digit places of a pattern. *)
Fixpoint countD (p : string) : nat :=
  match p with
  | EmptyString => 0
  | String pc p' => (if Ascii.eqb pc "d"%char then 1 else 0) + countD p'
  end.

Definition scriptSeparator : string :=
  (MigrationGenerator.nl ++ MigrationGenerator.nl)%string.

(** [localeCompare] is a total preorder: never is each of two strings
    before the other, and not being before is transitive. *)
Definition preorder (localeCompare : string -> string -> comparison) : Prop :=
  (forall a b, localeCompare a b = Lt -> localeCompare b a <> Lt)
  /\ (forall a b c, localeCompare b a <> Lt -> localeCompare c b <> Lt ->
                    localeCompare c a <> Lt).

(** No two different migrations of a list have timestamps that
    [localeCompare] takes for equal. *)
Definition strictlyOrdered (localeCompare : string -> string -> comparison)
  (l : list MigrationManager.Listed.t) : Prop :=
  forall a b, In a l -> In b l -> ascending localeCompare a b ->
              ascending localeCompare b a -> a = b.

(** The metadata that [readJson] has to give back for a migration, and
    the migration as the listing returns it. *)
Definition metadataOf (m : Migration.t) : MigrationManager.Metadata :=
  MigrationManager.mkMetadata (MigrationManager.Text (Migration.id m))
    (MigrationManager.Text (Migration.name m))
    (MigrationManager.Text (Migration.timestamp m)).

Definition listed (m : Migration.t) : MigrationManager.Listed.t :=
  MigrationManager.Listed.mk (MigrationManager.Text (Migration.id m))
    (MigrationManager.Text (Migration.name m))
    (MigrationManager.Text (Migration.timestamp m))
    (Migration.upSql m) (Migration.downSql m).

(** A string of [n] digits. *)
Definition digits (n : nat) (s : string) : Prop :=
  String.length s = n /\ everyChar Js.isDigit s = true.

(** *** The model blocks and the field lines of a schema text *)

(** A model block starts the text [s]: the word [model], white space,
    the name (word characters), white space, an opening brace, the
    content (anything but a closing brace) and a closing brace; [rest]
    is the text behind the block. *)
Definition modelBlockAt (s name content rest : string) : Prop :=
  exists ws1 ws2,
    s = ("model" ++ ws1 ++ name ++ ws2 ++ "{" ++ content ++ "}" ++ rest)%string
    /\ ws1 <> EmptyString /\ everyChar Js.isWhite ws1 = true
    /\ name <> EmptyString /\ everyChar Js.isWord name = true
    /\ ws2 <> EmptyString /\ everyChar Js.isWhite ws2 = true
    /\ everyChar notClose content = true.

(** The model blocks of a text, name and content of each, as a search
    from left to right finds them: where a block starts, it is taken
    and the search goes on behind it; where none starts, the search
    moves on by one code unit. *)
Inductive blocksOf : string -> list (string * string) -> Prop :=
| blocks_end : blocksOf EmptyString []
| blocks_skip (c : ascii) (s : string) (bs : list (string * string)) :
    (forall name content rest, ~ modelBlockAt (String c s) name content rest) ->
    blocksOf s bs -> blocksOf (String c s) bs
| blocks_take (s name content rest : string) (bs : list (string * string)) :
    modelBlockAt s name content rest ->
    blocksOf rest bs -> blocksOf s ((name, content) :: bs).

Definition notNewline (c : ascii) : bool := negb (Ascii.eqb c SchemaParser.newline).

(** The lines of the content of a block, the white space at the two
    ends of the content apart: joined by line feeds they give that
    text back, and none holds a line feed. *)
Definition linesOf (content : string) (lines : list string) : Prop :=
  lines <> []
  /\ Js.join (String SchemaParser.newline EmptyString) lines = Js.trim content
  /\ Forall (fun line => everyChar notNewline line = true) lines.

(** A line declares the field [name]: without the white space at its
    two ends it does not start with two slashes, and it is [name],
    white space and more text, where [name] is not empty and holds no
    white space. *)
Definition declares (line name : string) : Prop :=
  Js.startsWith "//" (Js.trim line) = false
  /\ exists ws more,
       Js.trim line = (name ++ ws ++ more)%string
       /\ name <> EmptyString /\ everyChar notWhite name = true
       /\ ws <> EmptyString /\ everyChar Js.isWhite ws = true
       /\ more <> EmptyString.

(** The names that the lines declare, in the order of the lines; a
    line that declares none is passed over. *)
Inductive declaredNames : list string -> list string -> Prop :=
| declared_end : declaredNames [] []
| declared_name (line name : string) (lines names : list string) :
    declares line name -> declaredNames lines names ->
    declaredNames (line :: lines) (name :: names)
| declared_none (line : string) (lines names : list string) :
    (forall name, ~ declares line name) -> declaredNames lines names ->
    declaredNames (line :: lines) names.

(** The field names that a block declares. *)
Definition blockDeclares (content : string) (names : list string) : Prop :=
  exists lines, linesOf content lines /\ declaredNames lines names.

(** An id that is one component of a path: [path.join] leaves it as it
    is. *)
Definition oneComponent (id : string) : Prop := Fs.join id = Some [id].

End Spec.

(** ** The scenario of the specification *)

Module Scenario.

Definition lf : string := Json.lf.

Definition oldText : string :=
  "model User {" ++ lf
  ++ "  id Int @id" ++ lf
  ++ "  email String @unique" ++ lf
  ++ "  name String" ++ lf
  ++ "}" ++ lf.

Definition newText : string :=
  "model User {" ++ lf
  ++ "  id Int @id" ++ lf
  ++ "  email String @unique" ++ lf
  ++ "  name String" ++ lf
  ++ "  bio String?" ++ lf
  ++ "}" ++ lf ++ lf
  ++ "model Post {" ++ lf
  ++ "  id Int @id" ++ lf
  ++ "  title String" ++ lf
  ++ "}" ++ lf.

Definition id_ : ModelField.t := ModelField.mk "id" "Int" [] ["@id"].
Definition email : ModelField.t := ModelField.mk "email" "String" [] ["@unique"].
Definition name_ : ModelField.t := ModelField.mk "name" "String" [] [].
(** The parser leaves the question mark in the type. *)
Definition bio : ModelField.t := ModelField.mk "bio" "String?" [] [].
Definition title : ModelField.t := ModelField.mk "title" "String" [] [].

Definition oldUser : Model.t := Model.mk "User" [id_; email; name_].
Definition newUser : Model.t := Model.mk "User" [id_; email; name_; bio].
Definition post : Model.t := Model.mk "Post" [id_; title].

Definition oldSchema : ParsedSchema.t := ParsedSchema.mk [oldUser] [] [] [].
Definition newSchema : ParsedSchema.t := ParsedSchema.mk [newUser; post] [] [] [].

Definition changes : list SchemaChange.t :=
  [Spec.createModel post; Spec.createField newUser bio].

Definition upSql : string :=
  "CREATE TABLE post (" ++ lf
  ++ "  id INTEGER PRIMARY KEY NOT NULL," ++ lf
  ++ "  title TEXT " ++ lf
  ++ ");" ++ lf ++ lf
  ++ "ALTER TABLE user ADD COLUMN bio TEXT ;".

Definition downSql : string :=
  "DROP TABLE IF EXISTS post;" ++ lf ++ lf
  ++ "ALTER TABLE user DROP COLUMN bio;".

(** A text with two blocks of one name, the first with two lines of
    one name. *)
Definition dupText : string :=
  "model A {" ++ lf
  ++ "  a Int" ++ lf
  ++ "  a String" ++ lf
  ++ "}" ++ lf
  ++ "model A {" ++ lf
  ++ "  b Int" ++ lf
  ++ "}" ++ lf.

(** Two versions of a schema that differ in the order of the attributes
    of one field. *)
Definition permOld : ParsedSchema.t :=
  ParsedSchema.mk
    [Model.mk "User" [ModelField.mk "id" "Int" [] ["@id"; "@unique"]]] [] [] [].

Definition permNew : ParsedSchema.t :=
  ParsedSchema.mk
    [Model.mk "User" [ModelField.mk "id" "Int" [] ["@unique"; "@id"]]] [] [] [].

(** Two readings of the clock within one second. *)
Definition now1 : string := "2025-05-04T12:34:56.100Z".
Definition now2 : string := "2025-05-04T12:34:56.900Z".

(** Directories of the migrations root: a complete one, one without
    [down.sql], and one whose [migration.json] is empty. *)
Definition stored : Migration.t :=
  Migration.mk "20250504123456_add_Post" "add_Post" "20250504123456"
    "CREATE TABLE post ();" "DROP TABLE IF EXISTS post;".

Definition completeDir : Fs.dir :=
  [ ("migration.json", Fs.File (Spec.metadataText stored));
    ("up.sql", Fs.File (Migration.upSql stored));
    ("down.sql", Fs.File (Migration.downSql stored)) ].



(** A second complete directory, one second later, and a directory of
    another tool: three files, [migration.json] an empty object. *)
Definition later : Migration.t :=
  Migration.mk "20250504123457_add_Tag" "add_Tag" "20250504123457"
    "CREATE TABLE tag ();" "DROP TABLE IF EXISTS tag;".

Definition laterDir : Fs.dir :=
  [ ("migration.json", Fs.File (Spec.metadataText later));
    ("up.sql", Fs.File (Migration.upSql later));
    ("down.sql", Fs.File (Migration.downSql later)) ].

Definition foreignDir : Fs.dir :=
  [ ("migration.json", Fs.File "{}");
    ("up.sql", Fs.File "SELECT 1;");
    ("down.sql", Fs.File "SELECT 1;") ].

(** A migrations directory in which the directory of an id is there
    already. *)
Definition existing : Fs.dir :=
  [ ("20250504123456_change",
     Fs.Dir [ ("up.sql", Fs.File "CREATE TABLE post ();") ]) ].

(** The model [User] under another name. *)
Definition renamedSchema : ParsedSchema.t :=
  ParsedSchema.mk [Model.mk "Account" [id_; email; name_]] [] [] [].

(** A cache codec for the one document of the examples: the text
    [cache] for the schema [newSchema].  It takes the place of
    [JSON.stringify] and [JSON.parse] in the closed examples only. *)
Definition cacheText (now : string) (schema : ParsedSchema.t) : string := "cache".

Definition cacheSchema (text : string) : result (option ParsedSchema.t) :=
  if String.eqb text "cache" then Ok (Some newSchema) else Throw "SyntaxError".

Definition manager : MigrationManager.t :=
  MigrationManager.mkManager (Some oldSchema) true.

End Scenario.

(** * Properties *)

(** ** Strings *)

Section StringFacts.

Lemma append_assoc (a b c : string) : ((a ++ b) ++ c)%string = (a ++ b ++ c)%string.
Proof. induction a as [| ch a IH]; simpl; [reflexivity | now rewrite IH]. Qed.

Lemma append_nil_r (a : string) : (a ++ EmptyString)%string = a.
Proof. induction a as [| ch a IH]; simpl; [reflexivity | now rewrite IH]. Qed.

Lemma length_append (a b : string) :
  String.length (a ++ b) = String.length a + String.length b.
Proof. induction a as [| ch a IH]; simpl; [reflexivity | now rewrite IH]. Qed.

Lemma take_append (n : nat) (a b : string) :
  String.length a = n -> Js.take n (a ++ b) = a.
Proof.
  revert n. induction a as [| ch a IH]; intros n H; simpl in *; subst n.
  - now destruct b.
  - simpl. now rewrite IH.
Qed.

Lemma append_cancel_l (a b c : string) : (a ++ b)%string = (a ++ c)%string -> b = c.
Proof.
  induction a as [| ch a IH]; simpl; intros H; [exact H |].
  injection H as H. now apply IH.
Qed.

End StringFacts.

(** ** Sets of names *)

Section NameSets.

Lemma has_In (x : string) (l : list string) : Js.has x l = true <-> In x l.
Proof.
  unfold Js.has. rewrite existsb_exists. split.
  - intros [y [Hy Heq]]. apply String.eqb_eq in Heq. now subst.
  - intros H. exists x. split; [assumption | apply String.eqb_refl].
Qed.

Lemma has_false (x : string) (l : list string) : Js.has x l = false <-> ~ In x l.
Proof.
  rewrite <- has_In. destruct (Js.has x l); split; intros; congruence.
Qed.

Lemma setAdd_In (s : list string) (x y : string) :
  In y (Js.setAdd s x) <-> In y s \/ y = x.
Proof.
  unfold Js.setAdd. destruct (Js.has x s) eqn:E.
  - apply has_In in E. split; [tauto | intros [H | ->]; assumption].
  - rewrite in_app_iff. simpl. intuition.
Qed.

Lemma fold_setAdd_In (xs acc : list string) (y : string) :
  In y (fold_left Js.setAdd xs acc) <-> In y acc \/ In y xs.
Proof.
  revert acc. induction xs as [| x xs IH]; intros acc; simpl.
  - tauto.
  - rewrite IH, setAdd_In. intuition.
Qed.

Lemma newSet_In (xs : list string) (y : string) : In y (Js.newSet xs) <-> In y xs.
Proof. unfold Js.newSet. rewrite fold_setAdd_In. simpl. tauto. Qed.

Lemma has_newSet (xs : list string) (y : string) :
  Js.has y (Js.newSet xs) = Js.has y xs.
Proof.
  destruct (Js.has y xs) eqn:E.
  - apply has_In, newSet_In, has_In, E.
  - apply has_false. rewrite newSet_In. now apply has_false.
Qed.

Lemma fold_setAdd_distinct (xs acc : list string) :
  NoDup (acc ++ xs) -> fold_left Js.setAdd xs acc = acc ++ xs.
Proof.
  revert acc. induction xs as [| x xs IH]; intros acc Hnd; simpl.
  - now rewrite app_nil_r.
  - assert (Hx : Js.has x acc = false).
    { apply has_false. intros Hin. apply NoDup_remove_2 in Hnd.
      apply Hnd. apply in_or_app. now left. }
    unfold Js.setAdd at 2. rewrite Hx.
    rewrite IH; rewrite <- app_assoc; simpl; [reflexivity | assumption].
Qed.

(** A [Set] built from an array without repetitions lists it as it is. *)
Lemma newSet_distinct (xs : list string) : NoDup xs -> Js.newSet xs = xs.
Proof. intros H. unfold Js.newSet. now rewrite fold_setAdd_distinct. Qed.

Lemma flat_map_nil {A B : Type} (f : A -> list B) (l : list A) :
  (forall x, In x l -> f x = []) -> flat_map f l = [].
Proof.
  induction l as [| a l IH]; intros H; simpl; [reflexivity |].
  rewrite (H a (or_introl eq_refl)), IH; [reflexivity |].
  intros x Hx. apply H. now right.
Qed.

Lemma flat_map_filter_map {A B : Type} (p : A -> bool) (g : A -> B) (l : list A) :
  flat_map (fun x => if p x then [g x] else []) l = map g (filter p l).
Proof.
  induction l as [| a l IH]; simpl; [reflexivity |].
  destruct (p a); simpl; now rewrite IH.
Qed.

End NameSets.

(** ** [Array.prototype.find] by name *)

Section FindByName.
Context {A : Type}.
Variable key : A -> string.

#[local] Abbreviation findBy k l := (find (fun y => String.eqb (key y) k) l).

Lemma findBy_Some (k : string) (l : list A) (x : A) :
  findBy k l = Some x -> In x l /\ key x = k.
Proof.
  intros H. apply find_some in H. destruct H as [Hin Heq].
  split; [assumption | now apply String.eqb_eq].
Qed.

Lemma findBy_defined (k : string) (l : list A) :
  In k (map key l) -> exists x, findBy k l = Some x.
Proof.
  induction l as [| a l IH]; simpl; [tauto |].
  intros [Ha | Hin].
  - subst k. rewrite String.eqb_refl. now exists a.
  - destruct (String.eqb (key a) k); [now exists a | auto].
Qed.

Lemma findBy_None (k : string) (l : list A) :
  findBy k l = None -> ~ In k (map key l).
Proof.
  intros H Hin. destruct (findBy_defined k l Hin) as [x Hx]. congruence.
Qed.

Lemma findBy_distinct (l : list A) (x : A) :
  NoDup (map key l) -> In x l -> findBy (key x) l = Some x.
Proof.
  induction l as [| a l IH]; simpl; [tauto |].
  intros Hnd [-> | Hin].
  - now rewrite String.eqb_refl.
  - inversion Hnd as [| ? ? Hnotin Hnd']; subst.
    destruct (String.eqb (key a) (key x)) eqn:E.
    + apply String.eqb_eq in E. exfalso. apply Hnotin. rewrite E.
      now apply in_map.
    + now apply IH.
Qed.

End FindByName.

(** ** The default sort and [arraysEqual] *)

Section SortFacts.

Lemma leb_refl (a : string) : String.leb a a = true.
Proof. destruct (String.leb_total a a); assumption. Qed.

Lemma leb_false_flip (a b : string) : String.leb a b = false -> String.leb b a = true.
Proof. intros H. destruct (String.leb_total a b); congruence. Qed.

Lemma ltb_lts (a b : string) : String.compare a b = Lt <-> String_as_OT.lt a b.
Proof. apply String_as_OT.cmp_lt. Qed.

Lemma leb_trans (a b c : string) :
  String.leb a b = true -> String.leb b c = true -> String.leb a c = true.
Proof.
  intros Hab Hbc.
  destruct (String.compare a b) eqn:Eab.
  - apply String.compare_eq_iff in Eab. now subst.
  - destruct (String.compare b c) eqn:Ebc.
    + apply String.compare_eq_iff in Ebc. now subst.
    + apply ltb_lts in Eab, Ebc.
      pose proof (String_as_OT.lt_trans _ _ _ Eab Ebc) as Hac.
      apply ltb_lts in Hac. unfold String.leb. now rewrite Hac.
    + unfold String.leb in Hbc. rewrite Ebc in Hbc. discriminate.
  - unfold String.leb in Hab. rewrite Eab in Hab. discriminate.
Qed.

Lemma insert_Permutation (x : string) (l : list string) :
  Permutation (x :: l) (Js.insert x l).
Proof.
  induction l as [| y l IH]; simpl; [apply Permutation_refl |].
  destruct (String.leb x y); [apply Permutation_refl |].
  eapply Permutation_trans; [apply perm_swap |]. now apply perm_skip.
Qed.

Lemma sort_Permutation (l : list string) : Permutation l (Js.sort l).
Proof.
  induction l as [| x l IH]; simpl; [constructor |].
  eapply Permutation_trans; [apply perm_skip, IH | apply insert_Permutation].
Qed.

Lemma insert_sorted (x : string) (l : list string) :
  StronglySorted Js.le l -> StronglySorted Js.le (Js.insert x l).
Proof.
  induction l as [| y l IH]; intros Hs; simpl.
  - repeat constructor.
  - inversion Hs as [| ? ? Hs' Hall]; subst.
    destruct (String.leb x y) eqn:E.
    + constructor; [assumption |]. constructor; [exact E |].
      eapply Forall_impl; [| exact Hall].
      intros z Hz. exact (leb_trans _ _ _ E Hz).
    + constructor; [now apply IH |].
      apply Forall_forall. intros z Hz.
      apply (Permutation_in _ (Permutation_sym (insert_Permutation x l))) in Hz.
      destruct Hz as [<- | Hz].
      * now apply leb_false_flip.
      * rewrite Forall_forall in Hall. now apply Hall.
Qed.

Lemma sort_sorted (l : list string) : StronglySorted Js.le (Js.sort l).
Proof.
  induction l as [| x l IH]; simpl; [constructor | now apply insert_sorted].
Qed.

(** Two ascending arrangements of the same multiset coincide. *)
Lemma sorted_unique (l1 l2 : list string) :
  StronglySorted Js.le l1 -> StronglySorted Js.le l2 ->
  Permutation l1 l2 -> l1 = l2.
Proof.
  revert l2. induction l1 as [| x l1 IH]; intros l2 H1 H2 Hp.
  - apply Permutation_nil in Hp. now subst.
  - destruct l2 as [| y l2].
    + apply Permutation_sym, Permutation_nil in Hp. discriminate.
    + inversion H1 as [| ? ? H1' Hall1]; subst.
      inversion H2 as [| ? ? H2' Hall2]; subst.
      rewrite Forall_forall in Hall1, Hall2.
      assert (Hxy : x = y).
      { assert (Hx : In x (y :: l2)) by (eapply Permutation_in; [exact Hp | now left]).
        assert (Hy : In y (x :: l1))
          by (eapply Permutation_in; [apply Permutation_sym; exact Hp | now left]).
        destruct Hx as [Hx | Hx]; [now subst |].
        destruct Hy as [Hy | Hy]; [now subst |].
        apply String.leb_antisym; [now apply Hall1 | now apply Hall2]. }
      subst y. f_equal. apply IH; try assumption.
      eapply Permutation_cons_inv; exact Hp.
Qed.

Lemma sort_of_Permutation (a b : list string) :
  Permutation a b -> Js.sort a = Js.sort b.
Proof.
  intros Hp. apply sorted_unique; try apply sort_sorted.
  eapply Permutation_trans; [apply Permutation_sym, sort_Permutation |].
  eapply Permutation_trans; [exact Hp | apply sort_Permutation].
Qed.

Lemma everyAt_eq (a b pre : list string) :
  length a = length b ->
  (Js.everyAt (length pre) a (pre ++ b) = true <-> a = b).
Proof.
  revert b pre. induction a as [| val a IH]; intros [| w b] pre Hlen;
    simpl in *; try discriminate.
  - tauto.
  - rewrite nth_error_app2, Nat.sub_diag by lia. simpl.
    injection Hlen as Hlen.
    replace (pre ++ w :: b) with ((pre ++ [w]) ++ b) by now rewrite <- app_assoc.
    replace (S (length pre)) with (length (pre ++ [w]))
      by (rewrite length_app; simpl; lia).
    rewrite andb_true_iff, String.eqb_eq, (IH b (pre ++ [w]) Hlen).
    split; [intros [-> ->]; reflexivity | intros H; injection H; auto].
Qed.

(** [arraysEqual] decides equality as multisets. *)
Lemma arraysEqual_Permutation (a b : list string) :
  SchemaComparer.arraysEqual a b = true <-> Permutation a b.
Proof.
  unfold SchemaComparer.arraysEqual.
  destruct (length a =? length b) eqn:El; simpl.
  - apply Nat.eqb_eq in El.
    assert (Hls : length (Js.sort a) = length (Js.sort b)).
    { rewrite <- (Permutation_length (sort_Permutation a)).
      now rewrite <- (Permutation_length (sort_Permutation b)). }
    rewrite (everyAt_eq (Js.sort a) (Js.sort b) [] Hls). split.
    + intros Heq.
      eapply Permutation_trans; [apply sort_Permutation |].
      rewrite Heq. apply Permutation_sym, sort_Permutation.
    + apply sort_of_Permutation.
  - apply Nat.eqb_neq in El. split; [discriminate |].
    intros Hp. apply Permutation_length in Hp. contradiction.
Qed.

Lemma arraysEqual_refl (a : list string) : SchemaComparer.arraysEqual a a = true.
Proof. apply arraysEqual_Permutation, Permutation_refl. Qed.

End SortFacts.

(** ** The differ *)

Section Differ.
Import ChangeType.

Lemma In_newSet_has (l : list string) (x : string) :
  In x (Js.newSet l) -> Js.has x (Js.newSet l) = true.
Proof. intros H. now apply has_In. Qed.

Lemma findModel_of_has (n : string) (ms : list Model.t) :
  Js.has n (Js.newSet (map Model.name ms)) = true ->
  exists m, SchemaComparer.findModel n ms = Some m.
Proof.
  intros H. apply (proj1 (has_In _ _)) in H. apply (proj1 (newSet_In _ _)) in H.
  exact (findBy_defined Model.name n ms H).
Qed.

Lemma findField_of_has (n : string) (fs : list ModelField.t) :
  Js.has n (Js.newSet (map ModelField.name fs)) = true ->
  exists f, SchemaComparer.findField n fs = Some f.
Proof.
  intros H. apply (proj1 (has_In _ _)) in H. apply (proj1 (newSet_In _ _)) in H.
  exact (findBy_defined ModelField.name n fs H).
Qed.

Lemma fieldDiffers_same (f : ModelField.t) : SchemaComparer.fieldDiffers f f = false.
Proof.
  unfold SchemaComparer.fieldDiffers.
  now rewrite String.eqb_refl, !arraysEqual_refl.
Qed.

Lemma fieldDiffers_spec (fo fn : ModelField.t) :
  SchemaComparer.fieldDiffers fo fn = true <-> Spec.differs fo fn.
Proof.
  unfold SchemaComparer.fieldDiffers, Spec.differs.
  rewrite !orb_true_iff, !negb_true_iff, String.eqb_neq.
  assert (Hperm : forall a b, SchemaComparer.arraysEqual a b = false <-> ~ Permutation a b).
  { intros a b. rewrite <- arraysEqual_Permutation.
    destruct (SchemaComparer.arraysEqual a b); split; congruence. }
  rewrite !Hperm. tauto.
Qed.

Lemma compareModelFields_same (m : Model.t) : SchemaComparer.compareModelFields m m = [].
Proof.
  unfold SchemaComparer.compareModelFields, SchemaComparer.createdFields,
    SchemaComparer.deletedFields, SchemaComparer.alteredFields.
  rewrite !flat_map_nil; try reflexivity; intros x Hx.
  - rewrite (In_newSet_has _ _ Hx).
    destruct (SchemaComparer.findField x (Model.fields m)); [| reflexivity].
    now rewrite fieldDiffers_same.
  - now rewrite (In_newSet_has _ _ Hx).
  - now rewrite (In_newSet_has _ _ Hx).
Qed.

(** Needs no assumption on the names. *)
Lemma compareSchemas_same (s : ParsedSchema.t) : SchemaComparer.compareSchemas s s = [].
Proof.
  unfold SchemaComparer.compareSchemas, SchemaComparer.createdModels,
    SchemaComparer.deletedModels, SchemaComparer.modifiedModels.
  rewrite !flat_map_nil; try reflexivity; intros x Hx.
  - rewrite (In_newSet_has _ _ Hx).
    destruct (SchemaComparer.findModel x (ParsedSchema.models s)); [| reflexivity].
    apply compareModelFields_same.
  - now rewrite (In_newSet_has _ _ Hx).
  - now rewrite (In_newSet_has _ _ Hx).
Qed.

Lemma createdFields_kind (mo mn : Model.t) :
  Forall (fun c => Spec.hasType CREATE_FIELD c
                   /\ SchemaChange.model c = Some (Model.name mn)
                   /\ (exists f, SchemaChange.field c = Some f)
                   /\ Spec.payloadsPresent c = true)
    (SchemaComparer.createdFields mo mn).
Proof.
  unfold SchemaComparer.createdFields. apply Forall_flat_map, Forall_forall.
  intros x Hx. destruct (negb _); [| constructor].
  destruct (findField_of_has x (Model.fields mn) (In_newSet_has _ _ Hx)) as [f Hf].
  rewrite Hf. repeat constructor. now exists x.
Qed.

Lemma deletedFields_kind (mo mn : Model.t) :
  Forall (fun c => Spec.hasType DELETE_FIELD c
                   /\ SchemaChange.model c = Some (Model.name mo)
                   /\ (exists f, SchemaChange.field c = Some f)
                   /\ Spec.payloadsPresent c = true)
    (SchemaComparer.deletedFields mo mn).
Proof.
  unfold SchemaComparer.deletedFields. apply Forall_flat_map, Forall_forall.
  intros x Hx. destruct (negb _); [| constructor].
  repeat constructor. now exists x.
Qed.

Lemma alteredFields_kind (mo mn : Model.t) :
  Forall (fun c => Spec.hasType ALTER_FIELD c
                   /\ SchemaChange.model c = Some (Model.name mo)
                   /\ (exists f, SchemaChange.field c = Some f)
                   /\ Spec.payloadsPresent c = true)
    (SchemaComparer.alteredFields mo mn).
Proof.
  unfold SchemaComparer.alteredFields. apply Forall_flat_map, Forall_forall.
  intros x Hx. destruct (Js.has x _); [| constructor].
  destruct (SchemaComparer.findField x (Model.fields mo)); [| constructor].
  destruct (SchemaComparer.findField x (Model.fields mn)); [| constructor].
  destruct (SchemaComparer.fieldDiffers _ _); [| constructor].
  repeat constructor. now exists x.
Qed.

(** Every change of [compareModelFields] is field-level, names a model
    that is one of the two compared, names a field and carries the
    payloads of its kind. *)
Lemma compareModelFields_kind (mo mn : Model.t) :
  Forall (fun c => Spec.isFieldChange c = true
                   /\ (SchemaChange.model c = Some (Model.name mo)
                       \/ SchemaChange.model c = Some (Model.name mn))
                   /\ (exists f, SchemaChange.field c = Some f)
                   /\ Spec.payloadsPresent c = true)
    (SchemaComparer.compareModelFields mo mn).
Proof.
  unfold SchemaComparer.compareModelFields. rewrite !Forall_app. repeat split.
  - eapply Forall_impl; [| apply createdFields_kind].
    intros c (Ht & Hm & Hf & Hp). unfold Spec.hasType, Spec.isFieldChange in *.
    rewrite Ht. auto.
  - eapply Forall_impl; [| apply deletedFields_kind].
    intros c (Ht & Hm & Hf & Hp). unfold Spec.hasType, Spec.isFieldChange in *.
    rewrite Ht. auto.
  - eapply Forall_impl; [| apply alteredFields_kind].
    intros c (Ht & Hm & Hf & Hp). unfold Spec.hasType, Spec.isFieldChange in *.
    rewrite Ht. auto.
Qed.

End Differ.

Section DifferOutput.
Import ChangeType.

Lemma compareSchemas_kind (old new : ParsedSchema.t) :
  Forall (fun c => Spec.differOutput c /\ Spec.payloadsPresent c = true)
    (SchemaComparer.compareSchemas old new).
Proof.
  unfold SchemaComparer.compareSchemas. rewrite !Forall_app. repeat split.
  - unfold SchemaComparer.createdModels. apply Forall_flat_map, Forall_forall.
    intros x Hx. destruct (negb _); [| constructor].
    destruct (findModel_of_has x _ (In_newSet_has _ _ Hx)) as [m Hm]. rewrite Hm.
    constructor; [| constructor]. unfold Spec.differOutput, Spec.isFieldChange. simpl.
    repeat split; try discriminate; try tauto. now exists x.
  - unfold SchemaComparer.deletedModels. apply Forall_flat_map, Forall_forall.
    intros x Hx. destruct (negb _); [| constructor].
    constructor; [| constructor]. unfold Spec.differOutput, Spec.isFieldChange. simpl.
    repeat split; try discriminate; try tauto. now exists x.
  - unfold SchemaComparer.modifiedModels. apply Forall_flat_map, Forall_forall.
    intros x Hx. destruct (Js.has x _); [| constructor].
    destruct (SchemaComparer.findModel x (ParsedSchema.models old)) as [mo |]; [| constructor].
    destruct (SchemaComparer.findModel x (ParsedSchema.models new)) as [mn |]; [| constructor].
    eapply Forall_impl; [| apply compareModelFields_kind].
    intros c (Hk & Hm & Hf & Hp). split; [| exact Hp].
    unfold Spec.differOutput. repeat split.
    + unfold Spec.isFieldChange in Hk.
      destruct (SchemaChange.type c); try discriminate; simpl; tauto.
    + destruct Hm as [Hm | Hm]; eauto.
    + intros _. exact Hf.
Qed.

Lemma statementsOf_ok (c : SchemaChange.t) :
  Spec.payloadsPresent c = true ->
  exists ups downs, MigrationGenerator.statementsOf c = Ok (ups, downs).
Proof.
  destruct c as [k m f ov nv].
  unfold Spec.payloadsPresent, MigrationGenerator.statementsOf,
    MigrationGenerator.generateCreateTableSql, MigrationGenerator.generateAddColumnSql,
    MigrationGenerator.generateAlterColumnSql. simpl.
  destruct k; intros H;
    try (destruct nv as [[? | ?] |]; try discriminate);
    try (destruct ov as [[? | ?] |]; try discriminate);
    simpl; eauto.
Qed.

Lemma processChanges_ok (cs : list SchemaChange.t) :
  Forall (fun c => Spec.payloadsPresent c = true) cs ->
  forall ups downs, exists ups' downs',
    MigrationGenerator.processChanges cs ups downs = Ok (ups', downs').
Proof.
  induction 1 as [| c cs Hc _ IH]; intros ups downs; simpl.
  - eauto.
  - destruct (statementsOf_ok c Hc) as (u & d & E). rewrite E. simpl. apply IH.
Qed.

(** C10.  Every change that the differ emits has one of the five kinds
    that the generator handles (never [ALTER_MODEL]), carries a model
    name, and carries a field name when it is field-level; so the
    generator's loop over the differ's output throws nothing. *)
Theorem compareSchemas_output_handled (old new : ParsedSchema.t) :
  Forall Spec.differOutput (SchemaComparer.compareSchemas old new)
  /\ exists ups downs,
       MigrationGenerator.processChanges (SchemaComparer.compareSchemas old new) [] []
       = Ok (ups, downs).
Proof.
  pose proof (compareSchemas_kind old new) as H. split.
  - eapply Forall_impl; [| exact H]. now intros c [Hc _].
  - apply processChanges_ok. eapply Forall_impl; [| exact H]. now intros c [_ Hc].
Qed.

(** An [ALTER_FIELD] change for field [f] of model [m] is emitted
    exactly when both schemas have a model [m], both models have a
    field [f], and the two fields differ. *)
Lemma alter_field_emitted (old new : ParsedSchema.t) (m f : string) (c : SchemaChange.t) :
  In c (SchemaComparer.compareSchemas old new) ->
  SchemaChange.type c = ALTER_FIELD ->
  SchemaChange.model c = Some m -> SchemaChange.field c = Some f ->
  exists mo mn fo fn,
    SchemaComparer.findModel m (ParsedSchema.models old) = Some mo
    /\ SchemaComparer.findModel m (ParsedSchema.models new) = Some mn
    /\ SchemaComparer.findField f (Model.fields mo) = Some fo
    /\ SchemaComparer.findField f (Model.fields mn) = Some fn
    /\ SchemaComparer.fieldDiffers fo fn = true
    /\ c = SchemaChange.mk ALTER_FIELD (Some m) (Some f) (Some (PField fo)) (Some (PField fn)).
Proof.
  unfold SchemaComparer.compareSchemas. rewrite !in_app_iff.
  intros [Hin | [Hin | Hin]] Ht Hm Hf.
  - unfold SchemaComparer.createdModels in Hin. apply in_flat_map in Hin.
    destruct Hin as (x & _ & Hin). destruct (negb _); [| contradiction].
    destruct Hin as [<- | []]. discriminate.
  - unfold SchemaComparer.deletedModels in Hin. apply in_flat_map in Hin.
    destruct Hin as (x & _ & Hin). destruct (negb _); [| contradiction].
    destruct Hin as [<- | []]. discriminate.
  - unfold SchemaComparer.modifiedModels in Hin. apply in_flat_map in Hin.
    destruct Hin as (x & _ & Hin). destruct (Js.has x _); [| contradiction].
    destruct (SchemaComparer.findModel x (ParsedSchema.models old)) as [mo |] eqn:Eo;
      [| contradiction].
    destruct (SchemaComparer.findModel x (ParsedSchema.models new)) as [mn |] eqn:En;
      [| contradiction].
    unfold SchemaComparer.compareModelFields in Hin. rewrite !in_app_iff in Hin.
    destruct Hin as [Hin | [Hin | Hin]].
    + pose proof (createdFields_kind mo mn) as Hk. rewrite Forall_forall in Hk.
      destruct (Hk c Hin) as (Hk' & _). unfold Spec.hasType in Hk'. congruence.
    + pose proof (deletedFields_kind mo mn) as Hk. rewrite Forall_forall in Hk.
      destruct (Hk c Hin) as (Hk' & _). unfold Spec.hasType in Hk'. congruence.
    + unfold SchemaComparer.alteredFields in Hin. apply in_flat_map in Hin.
      destruct Hin as (y & _ & Hin). destruct (Js.has y _); [| contradiction].
      destruct (SchemaComparer.findField y (Model.fields mo)) as [fo |] eqn:Efo;
        [| contradiction].
      destruct (SchemaComparer.findField y (Model.fields mn)) as [fn |] eqn:Efn;
        [| contradiction].
      destruct (SchemaComparer.fieldDiffers fo fn) eqn:Ed; [| contradiction].
      destruct Hin as [<- | []]. simpl in Hm, Hf.
      injection Hm as Hm. injection Hf as Hf. subst y.
      destruct (findBy_Some Model.name x _ mo Eo) as [_ Hx].
      rewrite Hx in Hm. subst x.
      exists mo, mn, fo, fn. rewrite Hx. auto 10.
Qed.

Lemma alter_field_found (old new : ParsedSchema.t) (m f : string)
  (mo mn : Model.t) (fo fn : ModelField.t) :
  SchemaComparer.findModel m (ParsedSchema.models old) = Some mo ->
  SchemaComparer.findModel m (ParsedSchema.models new) = Some mn ->
  SchemaComparer.findField f (Model.fields mo) = Some fo ->
  SchemaComparer.findField f (Model.fields mn) = Some fn ->
  SchemaComparer.fieldDiffers fo fn = true ->
  In (SchemaChange.mk ALTER_FIELD (Some m) (Some f) (Some (PField fo)) (Some (PField fn)))
    (SchemaComparer.compareSchemas old new).
Proof.
  intros Eo En Efo Efn Ed.
  destruct (findBy_Some Model.name m _ mo Eo) as [Hmo Hno].
  destruct (findBy_Some Model.name m _ mn En) as [Hmn Hnn].
  destruct (findBy_Some ModelField.name f _ fo Efo) as [Hfo Hnfo].
  destruct (findBy_Some ModelField.name f _ fn Efn) as [Hfn Hnfn].
  unfold SchemaComparer.compareSchemas. rewrite !in_app_iff. right. right.
  unfold SchemaComparer.modifiedModels. apply in_flat_map. exists m. split.
  - apply newSet_In. rewrite <- Hno. now apply in_map.
  - rewrite has_newSet.
    replace (Js.has m (map Model.name (ParsedSchema.models new))) with true
      by (symmetry; apply has_In; rewrite <- Hnn; now apply in_map).
    rewrite Eo, En.
    unfold SchemaComparer.compareModelFields. rewrite !in_app_iff. right. right.
    unfold SchemaComparer.alteredFields. apply in_flat_map. exists f. split.
    + apply newSet_In. rewrite <- Hnfo. now apply in_map.
    + rewrite has_newSet.
      replace (Js.has f (map ModelField.name (Model.fields mn))) with true
        by (symmetry; apply has_In; rewrite <- Hnfn; now apply in_map).
      rewrite Efo, Efn, Ed, Hno. now left.
Qed.

(** C5.  The differ emits [ALTER_FIELD] for field [f] of model [m]
    exactly when both versions of the model have the field and the two
    versions of the field differ in type, or in modifiers as a multiset,
    or in attributes as a multiset; in particular two versions with the
    same type and the same modifiers whose attribute lists are
    permutations of each other give no [ALTER_FIELD]. *)
Theorem alter_field_iff_differs (old new : ParsedSchema.t) (m f : string) :
  ((exists c, In c (SchemaComparer.compareSchemas old new)
              /\ SchemaChange.type c = ALTER_FIELD
              /\ SchemaChange.model c = Some m /\ SchemaChange.field c = Some f)
   <->
   (exists mo mn fo fn,
      SchemaComparer.findModel m (ParsedSchema.models old) = Some mo
      /\ SchemaComparer.findModel m (ParsedSchema.models new) = Some mn
      /\ SchemaComparer.findField f (Model.fields mo) = Some fo
      /\ SchemaComparer.findField f (Model.fields mn) = Some fn
      /\ Spec.differs fo fn))
  /\ (forall mo mn fo fn,
        SchemaComparer.findModel m (ParsedSchema.models old) = Some mo ->
        SchemaComparer.findModel m (ParsedSchema.models new) = Some mn ->
        SchemaComparer.findField f (Model.fields mo) = Some fo ->
        SchemaComparer.findField f (Model.fields mn) = Some fn ->
        ModelField.type fo = ModelField.type fn ->
        ModelField.modifiers fo = ModelField.modifiers fn ->
        Permutation (ModelField.attributes fo) (ModelField.attributes fn) ->
        ~ exists c, In c (SchemaComparer.compareSchemas old new)
                    /\ SchemaChange.type c = ALTER_FIELD
                    /\ SchemaChange.model c = Some m
                    /\ SchemaChange.field c = Some f).
Proof.
  split; [split |].
  - intros (c & Hin & Ht & Hm & Hf).
    destruct (alter_field_emitted old new m f c Hin Ht Hm Hf)
      as (mo & mn & fo & fn & Eo & En & Efo & Efn & Ed & _).
    exists mo, mn, fo, fn. rewrite <- fieldDiffers_spec. auto.
  - intros (mo & mn & fo & fn & Eo & En & Efo & Efn & Ed).
    apply fieldDiffers_spec in Ed.
    eexists. split; [exact (alter_field_found old new m f mo mn fo fn Eo En Efo Efn Ed) |].
    simpl. auto.
  - intros mo mn fo fn Eo En Efo Efn Ht Hm Ha (c & Hin & Hk & Hcm & Hcf).
    destruct (alter_field_emitted old new m f c Hin Hk Hcm Hcf)
      as (mo' & mn' & fo' & fn' & Eo' & En' & Efo' & Efn' & Ed & _).
    rewrite Eo in Eo'. injection Eo' as <-.
    rewrite En in En'. injection En' as <-.
    rewrite Efo in Efo'. injection Efo' as <-.
    rewrite Efn in Efn'. injection Efn' as <-.
    apply fieldDiffers_spec in Ed. unfold Spec.differs in Ed. rewrite Hm in Ed.
    destruct Ed as [H | [H | H]].
    + contradiction.
    + apply H, Permutation_refl.
    + contradiction.
Qed.

Lemma alter_field_iff_differs_witness :
  Permutation ["@id"; "@unique"] ["@unique"; "@id"]
  /\ ~ exists c, In c (SchemaComparer.compareSchemas Scenario.permOld Scenario.permNew)
                 /\ SchemaChange.type c = ALTER_FIELD
                 /\ SchemaChange.model c = Some "User"
                 /\ SchemaChange.field c = Some "id".
Proof.
  split; [apply perm_swap |].
  exact (proj2 (alter_field_iff_differs Scenario.permOld Scenario.permNew "User" "id")
           _ _ _ _ eq_refl eq_refl eq_refl eq_refl eq_refl eq_refl
           (perm_swap "@unique" "@id" [])).
Defined.

End DifferOutput.

(** ** The order of emission *)

Section EmissionOrder.
Import ChangeType.

Lemma flat_map_map_ext {A B C : Type} (g : A -> B) (f : B -> list C)
  (h : A -> list C) (l : list A) :
  (forall x, In x l -> f (g x) = h x) -> flat_map f (map g l) = flat_map h l.
Proof.
  induction l as [| a l IH]; intros H; simpl; [reflexivity |].
  rewrite (H a (or_introl eq_refl)), IH; [reflexivity |].
  intros x Hx. apply H. now right.
Qed.

Lemma has_modelNames (s : ParsedSchema.t) (m : Model.t) :
  negb (Js.has (Model.name m) (Js.newSet (Spec.modelNames s))) = Spec.absentFrom s m.
Proof.
  unfold Spec.absentFrom, Spec.modelNames. rewrite has_newSet. f_equal.
  unfold Js.has. induction (ParsedSchema.models s) as [| a l IH]; simpl; [reflexivity |].
  now rewrite IH, String.eqb_sym.
Qed.

Lemma absentFrom_false (s : ParsedSchema.t) (m : Model.t) :
  Spec.absentFrom s m = false <-> In (Model.name m) (Spec.modelNames s).
Proof.
  rewrite <- has_modelNames, negb_false_iff, has_newSet. apply has_In.
Qed.

Lemma createdModels_order (old new : ParsedSchema.t) :
  NoDup (Spec.modelNames new) ->
  SchemaComparer.createdModels old new
  = map Spec.createModel (filter (Spec.absentFrom old) (ParsedSchema.models new)).
Proof.
  intros Hn. unfold SchemaComparer.createdModels.
  fold (Spec.modelNames new). fold (Spec.modelNames old).
  rewrite (newSet_distinct _ Hn). unfold Spec.modelNames at 2.
  rewrite <- flat_map_filter_map. apply flat_map_map_ext.
  intros m Hm. cbv beta. rewrite has_modelNames.
  unfold SchemaComparer.findModel.
  now rewrite (findBy_distinct Model.name _ m Hn Hm).
Qed.

Lemma deletedModels_order (old new : ParsedSchema.t) :
  NoDup (Spec.modelNames old) ->
  SchemaComparer.deletedModels old new
  = map Spec.deleteModel (filter (Spec.absentFrom new) (ParsedSchema.models old)).
Proof.
  intros Ho. unfold SchemaComparer.deletedModels.
  fold (Spec.modelNames new). fold (Spec.modelNames old).
  rewrite (newSet_distinct _ Ho). unfold Spec.modelNames at 2.
  rewrite <- flat_map_filter_map. apply flat_map_map_ext.
  intros m Hm. cbv beta. now rewrite has_modelNames.
Qed.

Lemma modifiedModels_order (old new : ParsedSchema.t) :
  NoDup (Spec.modelNames old) ->
  SchemaComparer.modifiedModels old new
  = flat_map (fun oldModel =>
       match SchemaComparer.findModel (Model.name oldModel) (ParsedSchema.models new) with
       | Some newModel => SchemaComparer.compareModelFields oldModel newModel
       | None => []
       end) (ParsedSchema.models old).
Proof.
  intros Ho. unfold SchemaComparer.modifiedModels.
  fold (Spec.modelNames new). fold (Spec.modelNames old).
  rewrite (newSet_distinct _ Ho). unfold Spec.modelNames at 2.
  apply flat_map_map_ext. intros m Hm. cbv beta.
  unfold SchemaComparer.findModel at 1.
  rewrite (findBy_distinct Model.name _ m Ho Hm).
  destruct (SchemaComparer.findModel (Model.name m) (ParsedSchema.models new)) as [mn |] eqn:En.
  - destruct (findBy_Some Model.name _ _ mn En) as [Hin Hname].
    replace (Js.has (Model.name m) (Js.newSet (Spec.modelNames new))) with true;
      [reflexivity |].
    symmetry. rewrite has_newSet. apply has_In. rewrite <- Hname.
    unfold Spec.modelNames. now apply in_map.
  - now destruct (Js.has _ _).
Qed.

Lemma fieldChanges_of_common_models (old new : ParsedSchema.t) :
  Forall (fun c => Spec.isFieldChange c = true ->
                   exists m, SchemaChange.model c = Some m
                             /\ In m (Spec.modelNames old) /\ In m (Spec.modelNames new))
    (SchemaComparer.compareSchemas old new).
Proof.
  unfold SchemaComparer.compareSchemas. rewrite !Forall_app. repeat split.
  - unfold SchemaComparer.createdModels. apply Forall_flat_map, Forall_forall.
    intros x _. destruct (negb _); repeat constructor. discriminate.
  - unfold SchemaComparer.deletedModels. apply Forall_flat_map, Forall_forall.
    intros x _. destruct (negb _); repeat constructor. discriminate.
  - unfold SchemaComparer.modifiedModels. apply Forall_flat_map, Forall_forall.
    intros x _. destruct (Js.has x _); [| constructor].
    destruct (SchemaComparer.findModel x (ParsedSchema.models old)) as [mo |] eqn:Eo;
      [| constructor].
    destruct (SchemaComparer.findModel x (ParsedSchema.models new)) as [mn |] eqn:En;
      [| constructor].
    destruct (findBy_Some Model.name _ _ mo Eo) as [Hio Hno].
    destruct (findBy_Some Model.name _ _ mn En) as [Hin Hnn].
    eapply Forall_impl; [| apply compareModelFields_kind].
    intros c (_ & Hm & _) _. exists x. repeat split.
    + destruct Hm as [Hm | Hm]; congruence.
    + rewrite <- Hno. unfold Spec.modelNames. now apply in_map.
    + rewrite <- Hnn. unfold Spec.modelNames. now apply in_map.
Qed.

Lemma has_same_members (x : string) (acc seen : list string) :
  (forall y, In y acc <-> In y seen) -> Js.has x acc = Js.has x seen.
Proof.
  intros H. destruct (Js.has x seen) eqn:E.
  - apply has_In. apply H. now apply has_In.
  - apply has_false. intros Hin. apply (proj1 (has_false _ _) E). now apply H.
Qed.

(** A [Set] of the names of some fields lists the name of the first
    field of each name, in the order of the fields. *)
Lemma fold_setAdd_first (fs : list ModelField.t) (acc seen : list string) :
  (forall y, In y acc <-> In y seen) ->
  fold_left Js.setAdd (map ModelField.name fs) acc
  = acc ++ map ModelField.name (Spec.firstOfEachName seen fs).
Proof.
  revert acc seen. induction fs as [| f fs IH]; intros acc seen H; simpl.
  - now rewrite app_nil_r.
  - unfold Js.setAdd at 2. rewrite (has_same_members _ acc seen H).
    change (existsb (String.eqb (ModelField.name f)) seen)
      with (Js.has (ModelField.name f) seen).
    destruct (Js.has (ModelField.name f) seen).
    + now apply IH.
    + rewrite (IH (acc ++ [ModelField.name f]) (ModelField.name f :: seen)).
      * now rewrite <- app_assoc.
      * intros y. rewrite in_app_iff. simpl. rewrite H. tauto.
Qed.

Lemma newSet_first (fs : list ModelField.t) :
  Js.newSet (map ModelField.name fs)
  = map ModelField.name (Spec.firstOfEachName [] fs).
Proof.
  unfold Js.newSet. rewrite (fold_setAdd_first fs [] []); [reflexivity | tauto].
Qed.

(** [find] by the name of one of these fields finds that field. *)
Lemma first_found (fs : list ModelField.t) (seen : list string) (f : ModelField.t) :
  In f (Spec.firstOfEachName seen fs) ->
  ~ In (ModelField.name f) seen
  /\ SchemaComparer.findField (ModelField.name f) fs = Some f.
Proof.
  revert seen. induction fs as [| g fs IH]; intros seen; simpl; [contradiction |].
  change (existsb (String.eqb (ModelField.name g)) seen)
    with (Js.has (ModelField.name g) seen).
  unfold SchemaComparer.findField. simpl.
  destruct (Js.has (ModelField.name g) seen) eqn:E.
  - intros Hin. destruct (IH seen Hin) as [Hns Hfind]. split; [exact Hns |].
    destruct (String.eqb (ModelField.name g) (ModelField.name f)) eqn:Eg; [| exact Hfind].
    apply String.eqb_eq in Eg. rewrite Eg in E. apply has_In in E. contradiction.
  - intros [<- | Hin].
    + split; [now apply has_false | now rewrite String.eqb_refl].
    + destruct (IH (ModelField.name g :: seen) Hin) as [Hns Hfind].
      split; [intros H; apply Hns; now right |].
      destruct (String.eqb (ModelField.name g) (ModelField.name f)) eqn:Eg; [| exact Hfind].
      apply String.eqb_eq in Eg. exfalso. apply Hns. now left.
Qed.

Lemma firstOfEachName_distinct (fs : list ModelField.t) (seen : list string) :
  NoDup (map ModelField.name fs) ->
  (forall f, In f fs -> ~ In (ModelField.name f) seen) ->
  Spec.firstOfEachName seen fs = fs.
Proof.
  revert seen. induction fs as [| g fs IH]; intros seen Hnd Hseen; simpl; [reflexivity |].
  change (existsb (String.eqb (ModelField.name g)) seen)
    with (Js.has (ModelField.name g) seen).
  inversion Hnd as [| ? ? Hnotin Hnd']; subst.
  rewrite (proj2 (has_false _ _) (Hseen g (or_introl eq_refl))).
  f_equal. apply IH; [exact Hnd' |].
  intros f Hf [Heq | Hin].
  - apply Hnotin. rewrite Heq. now apply in_map.
  - apply (Hseen f); [now right | exact Hin].
Qed.

Lemma has_fieldNames (m : Model.t) (f : ModelField.t) :
  Js.has (ModelField.name f) (Js.newSet (map ModelField.name (Model.fields m)))
  = Spec.hasField m f.
Proof.
  unfold Spec.hasField. rewrite has_newSet. unfold Js.has.
  induction (Model.fields m) as [| a l IH]; simpl; [reflexivity |].
  now rewrite IH, String.eqb_sym.
Qed.

Lemma sameMultiset_Permutation (a b : list string) :
  Spec.sameMultiset a b = true <-> Permutation a b.
Proof.
  unfold Spec.sameMultiset, Spec.occurrences.
  rewrite forallb_forall, (Permutation_count_occ string_dec). split.
  - intros H x. destruct (in_dec string_dec x (a ++ b)) as [Hin | Hnot].
    + apply Nat.eqb_eq. now apply H.
    + rewrite (proj1 (count_occ_not_In string_dec a x)),
        (proj1 (count_occ_not_In string_dec b x)); [reflexivity | |];
        intros Hx; apply Hnot, in_or_app; auto.
  - intros H x _. apply Nat.eqb_eq. apply H.
Qed.

Lemma arraysEqual_sameMultiset (a b : list string) :
  SchemaComparer.arraysEqual a b = Spec.sameMultiset a b.
Proof.
  destruct (SchemaComparer.arraysEqual a b) eqn:E1, (Spec.sameMultiset a b) eqn:E2;
    try reflexivity.
  - apply arraysEqual_Permutation, sameMultiset_Permutation in E1. congruence.
  - apply sameMultiset_Permutation, arraysEqual_Permutation in E2. congruence.
Qed.

Lemma fieldDiffers_differsb (fo fn : ModelField.t) :
  SchemaComparer.fieldDiffers fo fn = Spec.differsb fo fn.
Proof.
  unfold SchemaComparer.fieldDiffers, Spec.differsb.
  now rewrite !arraysEqual_sameMultiset.
Qed.

Lemma differsb_spec (fo fn : ModelField.t) :
  Spec.differsb fo fn = true <-> Spec.differs fo fn.
Proof. rewrite <- fieldDiffers_differsb. apply fieldDiffers_spec. Qed.

Lemma flat_map_ext_In {A B : Type} (f g : A -> list B) (l : list A) :
  (forall x, In x l -> f x = g x) -> flat_map f l = flat_map g l.
Proof.
  induction l as [| a l IH]; intros H; simpl; [reflexivity |].
  rewrite (H a (or_introl eq_refl)), IH; [reflexivity |].
  intros x Hx. apply H. now right.
Qed.

Lemma createdFields_order (mo mn : Model.t) :
  SchemaComparer.createdFields mo mn
  = map (Spec.createField mn)
      (filter (fun f => negb (Spec.hasField mo f)) (Spec.namedFields mn)).
Proof.
  unfold SchemaComparer.createdFields. cbv zeta.
  rewrite (newSet_first (Model.fields mn)). fold (Spec.namedFields mn).
  rewrite <- flat_map_filter_map. apply flat_map_map_ext.
  intros f Hf. cbv beta. rewrite has_fieldNames.
  now rewrite (proj2 (first_found _ _ _ Hf)).
Qed.

Lemma deletedFields_order (mo mn : Model.t) :
  SchemaComparer.deletedFields mo mn
  = map (Spec.deleteField mo)
      (filter (fun f => negb (Spec.hasField mn f)) (Spec.namedFields mo)).
Proof.
  unfold SchemaComparer.deletedFields. cbv zeta.
  rewrite (newSet_first (Model.fields mo)). fold (Spec.namedFields mo).
  rewrite <- flat_map_filter_map. apply flat_map_map_ext.
  intros f Hf. cbv beta. now rewrite has_fieldNames.
Qed.

Lemma alteredFields_order (mo mn : Model.t) :
  SchemaComparer.alteredFields mo mn
  = flat_map (fun oldField =>
       match SchemaComparer.findField (ModelField.name oldField) (Model.fields mn) with
       | Some newField =>
           if Spec.differsb oldField newField
           then [Spec.alterField mo oldField newField] else []
       | None => []
       end) (Spec.namedFields mo).
Proof.
  unfold SchemaComparer.alteredFields. cbv zeta.
  rewrite (newSet_first (Model.fields mo)). fold (Spec.namedFields mo).
  apply flat_map_map_ext. intros f Hf. cbv beta.
  rewrite has_fieldNames, (proj2 (first_found _ _ _ Hf)).
  destruct (SchemaComparer.findField (ModelField.name f) (Model.fields mn))
    as [fn |] eqn:En.
  - destruct (findBy_Some ModelField.name _ _ fn En) as [Hin Hname].
    replace (Spec.hasField mn f) with true.
    + now rewrite fieldDiffers_differsb.
    + symmetry. unfold Spec.hasField. apply existsb_exists. exists fn.
      split; [exact Hin | now apply String.eqb_eq].
  - now destruct (Spec.hasField mn f).
Qed.

(** The three loops of [compareModelFields] give the field-level
    changes of the two models, whatever the names of their fields. *)
Lemma compareModelFields_order (mo mn : Model.t) :
  SchemaComparer.compareModelFields mo mn = Spec.fieldChanges mo mn.
Proof.
  unfold SchemaComparer.compareModelFields, Spec.fieldChanges.
  now rewrite createdFields_order, deletedFields_order, alteredFields_order.
Qed.

Lemma emissionOrder_of_distinct (old new : ParsedSchema.t) :
  NoDup (Spec.modelNames old) -> NoDup (Spec.modelNames new) ->
  SchemaComparer.compareSchemas old new = Spec.emissionOrder old new.
Proof.
  intros Ho Hn. unfold SchemaComparer.compareSchemas, Spec.emissionOrder.
  rewrite (createdModels_order old new Hn), (deletedModels_order old new Ho),
    (modifiedModels_order old new Ho).
  do 2 f_equal. apply flat_map_ext_In. intros m _.
  destruct (SchemaComparer.findModel (Model.name m) (ParsedSchema.models new));
    [apply compareModelFields_order | reflexivity].
Qed.

(** C4.  With unique model names on both sides the changes of the
    differ are, in this order: one [CREATE_MODEL] for every model of
    [new] that [old] lacks; one [DELETE_MODEL] for every model of [old]
    that [new] lacks; then, for each model that both have, in the order
    of [old], a [CREATE_FIELD] for every field that only the new model
    has, a [DELETE_FIELD] for every field that only the old model has,
    and an [ALTER_FIELD] for every field of both that differs, each of
    them naming that model.  The fields of a model are taken one for
    each name, which are all its fields when their names are unique.  A
    field-level change always names a model that both schemas have, so
    a created or a deleted model gets none. *)
Theorem compareSchemas_emission_order (old new : ParsedSchema.t) :
  NoDup (Spec.modelNames old) -> NoDup (Spec.modelNames new) ->
  SchemaComparer.compareSchemas old new = Spec.emissionOrder old new
  /\ (forall m, NoDup (Spec.fieldNames m) -> Spec.namedFields m = Model.fields m)
  /\ (forall oldField newField,
        Spec.differsb oldField newField = true <-> Spec.differs oldField newField)
  /\ Forall (fun c => Spec.isFieldChange c = true ->
                      exists m, SchemaChange.model c = Some m
                                /\ In m (Spec.modelNames old)
                                /\ In m (Spec.modelNames new))
       (SchemaComparer.compareSchemas old new).
Proof.
  intros Ho Hn. split; [now apply emissionOrder_of_distinct |].
  split; [| split; [exact differsb_spec | apply fieldChanges_of_common_models]].
  intros m Hm. unfold Spec.namedFields. apply firstOfEachName_distinct; [exact Hm |].
  intros f _ [].
Qed.

Lemma scenario_names_distinct :
  NoDup (Spec.modelNames Scenario.oldSchema) /\ NoDup (Spec.modelNames Scenario.newSchema).
Proof.
  split; repeat constructor; simpl; intuition discriminate.
Qed.

Lemma compareSchemas_emission_order_witness :
  NoDup (Spec.modelNames Scenario.oldSchema)
  /\ NoDup (Spec.modelNames Scenario.newSchema)
  /\ SchemaComparer.compareSchemas Scenario.oldSchema Scenario.newSchema
     = Spec.emissionOrder Scenario.oldSchema Scenario.newSchema
  /\ Spec.emissionOrder Scenario.oldSchema Scenario.newSchema
     = [Spec.createModel Scenario.post; Spec.createField Scenario.newUser Scenario.bio].
Proof.
  split; [exact (proj1 scenario_names_distinct) |].
  split; [exact (proj2 scenario_names_distinct) |].
  split; [| vm_compute; reflexivity].
  exact (proj1 (compareSchemas_emission_order Scenario.oldSchema Scenario.newSchema
                  (proj1 scenario_names_distinct) (proj2 scenario_names_distinct))).
Defined.

(** C3.  A schema with unique model names and unique field names,
    compared with itself, gives no change. *)
Theorem compareSchemas_self_empty (s : ParsedSchema.t) :
  Spec.uniqueNames s -> SchemaComparer.compareSchemas s s = [].
Proof. intros _. apply compareSchemas_same. Qed.

Lemma scenario_unique_names : Spec.uniqueNames Scenario.newSchema.
Proof.
  split; [exact (proj2 scenario_names_distinct) |].
  repeat constructor; simpl; intuition discriminate.
Qed.

Lemma compareSchemas_self_empty_witness :
  Spec.uniqueNames Scenario.newSchema
  /\ SchemaComparer.compareSchemas Scenario.newSchema Scenario.newSchema = [].
Proof.
  split; [exact scenario_unique_names |].
  exact (compareSchemas_self_empty Scenario.newSchema scenario_unique_names).
Defined.

End EmissionOrder.

(** ** The file system *)

Section FsFacts.

Lemma lookup_set_eq (n : string) (x : Fs.node) (d : Fs.dir) :
  Fs.lookup n (Fs.set n x d) = Some x.
Proof.
  induction d as [| [k y] d IH]; simpl.
  - now rewrite String.eqb_refl.
  - destruct (String.eqb k n) eqn:E; simpl; rewrite E; [reflexivity | exact IH].
Qed.

Lemma lookup_set_ne (n n' : string) (x : Fs.node) (d : Fs.dir) :
  n <> n' -> Fs.lookup n' (Fs.set n x d) = Fs.lookup n' d.
Proof.
  intros Hne. induction d as [| [k y] d IH]; simpl.
  - apply String.eqb_neq in Hne. now rewrite Hne.
  - destruct (String.eqb k n) eqn:E; simpl.
    + apply String.eqb_eq in E. subst k.
      apply String.eqb_neq in Hne. now rewrite Hne.
    + destruct (String.eqb k n'); [reflexivity | exact IH].
Qed.

Lemma set_set (n : string) (x y : Fs.node) (d : Fs.dir) :
  Fs.set n y (Fs.set n x d) = Fs.set n y d.
Proof.
  induction d as [| [k z] d IH]; simpl.
  - now rewrite String.eqb_refl.
  - destruct (String.eqb k n) eqn:E; simpl; rewrite E; [reflexivity | now rewrite IH].
Qed.

Lemma notDir_set_file (n n' c : string) (es : Fs.dir) :
  Spec.notDir n' es = true -> Spec.notDir n' (Fs.set n (Fs.File c) es) = true.
Proof.
  unfold Spec.notDir. intros H. destruct (String.eqb n n') eqn:E.
  - apply String.eqb_eq in E. subst n'. now rewrite lookup_set_eq.
  - apply String.eqb_neq in E. now rewrite lookup_set_ne.
Qed.

Lemma set_lookup_same (n : string) (x : Fs.node) (d : Fs.dir) :
  Fs.lookup n d = Some x -> Fs.set n x d = d.
Proof.
  induction d as [| [k y] d IH]; simpl; [discriminate |].
  destruct (String.eqb k n) eqn:E.
  - intros H. now injection H as ->.
  - intros H. now rewrite IH.
Qed.

Lemma entriesAt_empty (path : list string) : Spec.entriesAt path [] = [].
Proof. destruct path; reflexivity. Qed.

Lemma noFileOn_empty (path : list string) : Spec.noFileOn path [] = true.
Proof. destruct path; reflexivity. Qed.

Lemma entriesAt_putDir (path : list string) (es d : Fs.dir) :
  Spec.entriesAt path (Spec.putDir path es d) = es.
Proof.
  revert d. induction path as [| n path IH]; intros d; simpl; [reflexivity |].
  rewrite lookup_set_eq. apply IH.
Qed.

Lemma putDir_putDir (path : list string) (es1 es2 d : Fs.dir) :
  Spec.putDir path es2 (Spec.putDir path es1 d) = Spec.putDir path es2 d.
Proof.
  revert d. induction path as [| n path IH]; intros d; simpl; [reflexivity |].
  rewrite lookup_set_eq, set_set. now rewrite IH.
Qed.

(** [mkdirs] succeeds exactly where no file is on the path, and leaves
    what the directory held. *)
Lemma mkdirs_free (path : list string) (d : Fs.dir) :
  Spec.noFileOn path d = true ->
  Fs.mkdirs path d = Ok (Spec.putDir path (Spec.entriesAt path d) d).
Proof.
  revert d. induction path as [| n path IH]; intros d; simpl; [reflexivity |].
  destruct (Fs.lookup n d) as [[c | es] |] eqn:El; intros H.
  - discriminate.
  - now rewrite (IH es H).
  - rewrite (IH [] (noFileOn_empty path)). now rewrite entriesAt_empty.
Qed.

Lemma mkdirs_blocked (path : list string) (d : Fs.dir) :
  Spec.noFileOn path d = false -> exists e, Fs.mkdirs path d = Throw e.
Proof.
  revert d. induction path as [| n path IH]; intros d; simpl; [discriminate |].
  destruct (Fs.lookup n d) as [[c | es] |] eqn:El; intros H.
  - eauto.
  - destruct (IH es H) as [e He]. rewrite He. simpl. eauto.
  - discriminate.
Qed.

Lemma mkdirs_error (path : list string) (d : Fs.dir) (e : string) :
  Fs.mkdirs path d = Throw e -> e <> "TypeError".
Proof.
  revert d. induction path as [| n path IH]; intros d; simpl; [discriminate |].
  destruct (Fs.lookup n d) as [[c | es] |].
  - destruct path; intros H; injection H as <-; discriminate.
  - destruct (Fs.mkdirs path es) as [es' | e'] eqn:Em; simpl; [discriminate |].
    intros H. injection H as <-. exact (IH _ Em).
  - destruct (Fs.mkdirs path []) as [es' | e'] eqn:Em; simpl; [discriminate |].
    intros H. injection H as <-. exact (IH _ Em).
Qed.

Lemma writeAt_error (path : list string) (name content : string) (d : Fs.dir)
  (e : string) :
  Fs.writeAt path name content d = Throw e -> e <> "TypeError".
Proof.
  revert d. induction path as [| n path IH]; intros d; simpl.
  - destruct (Fs.lookup name d) as [[c | es] |]; intros H; try discriminate.
    injection H as <-. discriminate.
  - destruct (Fs.lookup n d) as [[c | es] |].
    + intros H. injection H as <-. discriminate.
    + destruct (Fs.writeAt path name content es) as [es' | e'] eqn:Ew; simpl;
        [discriminate |].
      intros H. injection H as <-. exact (IH _ Ew).
    + intros H. injection H as <-. discriminate.
Qed.

(** Writing a file into a directory that is there. *)
Lemma writeAt_putDir (path : list string) (name content : string) (es d : Fs.dir) :
  Spec.notDir name es = true ->
  Fs.writeAt path name content (Spec.putDir path es d)
  = Ok (Spec.putDir path (Fs.set name (Fs.File content) es) d).
Proof.
  intros Hn. revert d. induction path as [| n path IH]; intros d; simpl.
  - unfold Spec.notDir in Hn.
    destruct (Fs.lookup name es) as [[c | es'] |]; try reflexivity. discriminate.
  - rewrite lookup_set_eq, IH. simpl. now rewrite set_set.
Qed.

Lemma writeAt_putDir_blocked (path : list string) (name content : string)
  (es d : Fs.dir) :
  Spec.notDir name es = false ->
  exists e, Fs.writeAt path name content (Spec.putDir path es d) = Throw e.
Proof.
  intros Hn. revert d. induction path as [| n path IH]; intros d; simpl.
  - unfold Spec.notDir in Hn.
    destruct (Fs.lookup name es) as [[c | es'] |]; try discriminate. eauto.
  - rewrite lookup_set_eq. destruct (IH (match Fs.lookup n d with
                                         | Some (Fs.Dir es0) => es0
                                         | _ => []
                                         end)) as [e He].
    rewrite He. simpl. eauto.
Qed.

Lemma saveMigrationFiles_outside (m : Migration.t) (d : Fs.dir) :
  Fs.join (Migration.id m) = None ->
  MigrationGenerator.saveMigrationFiles m d = (Ok tt, d).
Proof.
  intros Hj.
  unfold MigrationGenerator.saveMigrationFiles, Fs.bind, Fs.ensureDir, Fs.writeFile.
  now rewrite Hj.
Qed.

Lemma saveMigrationFiles_at (m : Migration.t) (path : list string) (d : Fs.dir) :
  Fs.join (Migration.id m) = Some path ->
  Spec.noFileOn path d = true ->
  Spec.notDir "migration.json" (Spec.entriesAt path d) = true ->
  Spec.notDir "up.sql" (Spec.entriesAt path d) = true ->
  Spec.notDir "down.sql" (Spec.entriesAt path d) = true ->
  MigrationGenerator.saveMigrationFiles m d
  = (Ok tt, Spec.putDir path (Spec.storedOver m (Spec.entriesAt path d)) d).
Proof.
  intros Hj Hf H1 H2 H3.
  unfold MigrationGenerator.saveMigrationFiles, Fs.bind, Fs.ensureDir, Fs.writeFile.
  rewrite Hj, (mkdirs_free path d Hf).
  rewrite (writeAt_putDir path _ _ _ d H1).
  rewrite (writeAt_putDir path "up.sql" _ _ d (notDir_set_file _ _ _ _ H2)).
  rewrite (writeAt_putDir path "down.sql" _ _ d
             (notDir_set_file _ _ _ _ (notDir_set_file _ _ _ _ H3))).
  reflexivity.
Qed.

(** Saving succeeds whenever the place is writable, whether or not the
    directory of the migration is there already. *)
Lemma saveMigrationFiles_writable (m : Migration.t) (d : Fs.dir) :
  Spec.writable (Migration.id m) d = true ->
  MigrationGenerator.saveMigrationFiles m d = (Ok tt, Spec.saved m d).
Proof.
  unfold Spec.writable, Spec.saved.
  destruct (Fs.join (Migration.id m)) as [path |] eqn:Hj; intros H.
  - apply andb_prop in H. destruct H as [H H3]. apply andb_prop in H.
    destruct H as [H H2]. apply andb_prop in H. destruct H as [Hf H1].
    now apply saveMigrationFiles_at.
  - now apply saveMigrationFiles_outside.
Qed.

Lemma saveMigrationFiles_unwritable (m : Migration.t) (d : Fs.dir) :
  Spec.writable (Migration.id m) d = false ->
  exists e d', MigrationGenerator.saveMigrationFiles m d = (Throw e, d').
Proof.
  unfold Spec.writable.
  destruct (Fs.join (Migration.id m)) as [path |] eqn:Hj; [| discriminate].
  intros H.
  unfold MigrationGenerator.saveMigrationFiles, Fs.bind, Fs.ensureDir, Fs.writeFile.
  rewrite Hj.
  destruct (Spec.noFileOn path d) eqn:Hf.
  2:{ destruct (mkdirs_blocked path d Hf) as [e He]. rewrite He. eauto. }
  rewrite (mkdirs_free path d Hf).
  destruct (Spec.notDir "migration.json" (Spec.entriesAt path d)) eqn:H1.
  2:{ destruct (writeAt_putDir_blocked path "migration.json"
                  (Json.stringify3 "id" (Migration.id m) "name" (Migration.name m)
                     "timestamp" (Migration.timestamp m)) _ d H1) as [e He].
      rewrite He. eauto. }
  rewrite (writeAt_putDir path _ _ _ d H1).
  destruct (Spec.notDir "up.sql" (Spec.entriesAt path d)) eqn:H2.
  2:{ assert (H2' : Spec.notDir "up.sql"
                      (Fs.set "migration.json"
                         (Fs.File (Json.stringify3 "id" (Migration.id m)
                                     "name" (Migration.name m)
                                     "timestamp" (Migration.timestamp m)))
                         (Spec.entriesAt path d)) = false)
        by (unfold Spec.notDir in *; now rewrite lookup_set_ne by discriminate).
      destruct (writeAt_putDir_blocked path "up.sql" (Migration.upSql m) _ d H2')
        as [e He].
      rewrite He. eauto. }
  rewrite (writeAt_putDir path "up.sql" _ _ d (notDir_set_file _ _ _ _ H2)).
  destruct (Spec.notDir "down.sql" (Spec.entriesAt path d)) eqn:H3; [discriminate |].
  assert (H3' : Spec.notDir "down.sql"
                  (Fs.set "up.sql" (Fs.File (Migration.upSql m))
                     (Fs.set "migration.json"
                        (Fs.File (Json.stringify3 "id" (Migration.id m)
                                    "name" (Migration.name m)
                                    "timestamp" (Migration.timestamp m)))
                        (Spec.entriesAt path d))) = false)
    by (unfold Spec.notDir in *; now rewrite !lookup_set_ne by discriminate).
  destruct (writeAt_putDir_blocked path "down.sql" (Migration.downSql m) _ d H3')
    as [e He].
  rewrite He. eauto.
Qed.

Lemma saveMigrationFiles_throws (m : Migration.t) (e : string) (d d' : Fs.dir) :
  MigrationGenerator.saveMigrationFiles m d = (Throw e, d') -> e <> "TypeError".
Proof.
  unfold MigrationGenerator.saveMigrationFiles, Fs.bind, Fs.ensureDir, Fs.writeFile.
  destruct (Fs.join (Migration.id m)) as [path |]; [| discriminate].
  destruct (Fs.mkdirs path d) as [d0 | e0] eqn:E0.
  2:{ intros H. injection H as <- _. exact (mkdirs_error _ _ _ E0). }
  destruct (Fs.writeAt path "migration.json" _ d0) as [d1 | e1] eqn:E1.
  2:{ intros H. injection H as <- _. exact (writeAt_error _ _ _ _ _ E1). }
  destruct (Fs.writeAt path "up.sql" _ d1) as [d2 | e2] eqn:E2.
  2:{ intros H. injection H as <- _. exact (writeAt_error _ _ _ _ _ E2). }
  destruct (Fs.writeAt path "down.sql" _ d2) as [d3 | e3] eqn:E3; [discriminate |].
  intros H. injection H as <- _. exact (writeAt_error _ _ _ _ _ E3).
Qed.

Lemma writable_empty (id : string) : Spec.writable id [] = true.
Proof.
  unfold Spec.writable. destruct (Fs.join id) as [path |]; [| reflexivity].
  now rewrite noFileOn_empty, entriesAt_empty.
Qed.

(** An id without a slash that is neither empty nor made of dots is
    one component. *)
Lemma splitChar_aux_plain (sep : ascii) (cur s : string) :
  Spec.everyChar (fun c => negb (Ascii.eqb c sep)) s = true ->
  Js.splitChar_aux sep cur s = [(cur ++ s)%string].
Proof.
  revert cur. induction s as [| c s IH]; intros cur H; simpl in *.
  - assert (E : (cur ++ EmptyString)%string = cur)
      by (induction cur as [| a cur IHc]; simpl; [reflexivity | now rewrite IHc]).
    now rewrite E.
  - apply andb_prop in H. destruct H as [Hc Hs]. apply negb_true_iff in Hc.
    rewrite Hc, (IH _ Hs). unfold Js.snoc.
    assert (E : forall a b : string,
                 ((a ++ String c EmptyString) ++ b)%string = (a ++ String c b)%string)
      by (intros a b; induction a as [| x a IHa]; simpl; [reflexivity | now rewrite IHa]).
    now rewrite E.
Qed.

Lemma oneComponent_plain (id : string) :
  Spec.everyChar (fun c => negb (Ascii.eqb c Fs.slash)) id = true ->
  id <> EmptyString -> id <> "." -> id <> ".." ->
  Spec.oneComponent id.
Proof.
  intros Hs H0 H1 H2. unfold Spec.oneComponent, Fs.join, Js.splitChar.
  rewrite (splitChar_aux_plain Fs.slash EmptyString id Hs). simpl.
  apply String.eqb_neq in H0, H1, H2. now rewrite H0, H1, H2.
Qed.

Lemma saved_oneComponent (m : Migration.t) (d : Fs.dir) :
  Spec.oneComponent (Migration.id m) ->
  Spec.saved m d
  = Fs.set (Migration.id m)
      (Fs.Dir (Spec.storedOver m (Spec.entriesOf (Migration.id m) d))) d.
Proof.
  unfold Spec.oneComponent, Spec.saved, Spec.entriesOf. intros ->. simpl.
  now destruct (Fs.lookup (Migration.id m) d) as [[c | es] |].
Qed.

End FsFacts.

(** ** The generator *)

Section Generator.
Import ChangeType.

Lemma generateMigration_unfold (c : SchemaChange.t) (cs : list SchemaChange.t)
  (migrationName : option string) (now : string) (root : Fs.dir) :
  MigrationGenerator.generateMigration (c :: cs) migrationName now root
  = match MigrationGenerator.processChanges (c :: cs) [] [] with
    | Throw e => (Throw e, root)
    | Ok (ups, downs) =>
        match MigrationGenerator.saveMigrationFiles
                (Spec.migrationOf migrationName now ups downs) root with
        | (Ok _, root') => (Ok (Some (Spec.migrationOf migrationName now ups downs)), root')
        | (Throw e, root') => (Throw e, root')
        end
    end.
Proof.
  unfold MigrationGenerator.generateMigration.
  change (length (c :: cs) =? 0) with false. cbv iota.
  destruct (MigrationGenerator.processChanges (c :: cs) [] []) as [[ups downs] | e];
    reflexivity.
Qed.

Lemma generateMigration_ok (changes : list SchemaChange.t)
  (migrationName : option string) (now : string) (root : Fs.dir)
  (ups downs : list string) :
  changes <> [] ->
  MigrationGenerator.processChanges changes [] [] = Ok (ups, downs) ->
  Spec.writable (Migration.id (Spec.migrationOf migrationName now ups downs)) root = true ->
  MigrationGenerator.generateMigration changes migrationName now root
  = (Ok (Some (Spec.migrationOf migrationName now ups downs)),
     Spec.saved (Spec.migrationOf migrationName now ups downs) root).
Proof.
  intros Hne Hp Hw. destruct changes as [| c cs]; [contradiction |].
  rewrite generateMigration_unfold, Hp.
  now rewrite (saveMigrationFiles_writable _ _ Hw).
Qed.

Lemma generateMigration_some (changes : list SchemaChange.t)
  (migrationName : option string) (now : string) (root root' : Fs.dir)
  (m : Migration.t) :
  MigrationGenerator.generateMigration changes migrationName now root
  = (Ok (Some m), root') ->
  exists ups downs,
    MigrationGenerator.processChanges changes [] [] = Ok (ups, downs)
    /\ m = Spec.migrationOf migrationName now ups downs.
Proof.
  destruct changes as [| c cs]; [discriminate |].
  rewrite generateMigration_unfold.
  destruct (MigrationGenerator.processChanges (c :: cs) [] []) as [[ups downs] | e];
    [| discriminate].
  destruct (MigrationGenerator.saveMigrationFiles _ root) as [[u | e] r];
    [| discriminate].
  intros H. injection H as H _. exists ups, downs. split; [reflexivity | now symmetry].
Qed.

Lemma generateMigration_none (changes : list SchemaChange.t)
  (migrationName : option string) (now : string) (root root' : Fs.dir) :
  MigrationGenerator.generateMigration changes migrationName now root = (Ok None, root') ->
  changes = [].
Proof.
  destruct changes as [| c cs]; [reflexivity |].
  rewrite generateMigration_unfold.
  destruct (MigrationGenerator.processChanges (c :: cs) [] []) as [[ups downs] | e];
    [| discriminate].
  destruct (MigrationGenerator.saveMigrationFiles _ root) as [[u | e] r]; discriminate.
Qed.

(** C6.  On an empty list of changes [generateMigration] returns
    [null], throws nothing and leaves the migrations directory as it
    found it; and [null] is returned for the empty list only. *)
Theorem generateMigration_empty :
  (forall migrationName now root,
     MigrationGenerator.generateMigration [] migrationName now root = (Ok None, root))
  /\ (forall changes migrationName now root root',
        MigrationGenerator.generateMigration changes migrationName now root
        = (Ok None, root') -> changes = []).
Proof.
  split.
  - reflexivity.
  - intros changes migrationName now root root'. apply generateMigration_none.
Qed.

(** C1, on the code.  The loop over the attributes pushes [NOT NULL]
    once for every attribute that holds neither a question mark nor
    [@default], in between the other constraints: a field with [@id]
    and [@unique] gets [NOT NULL] twice, the second after [UNIQUE] and
    the first before it, and a field without attributes gets no
    [NOT NULL] at all. *)
Theorem constraints_pushed_per_attribute :
  MigrationGenerator.constraintsOf (ModelField.mk "id" "Int" [] ["@id"; "@unique"])
  = ["PRIMARY KEY"; "NOT NULL"; "UNIQUE"; "NOT NULL"]
  /\ MigrationGenerator.generateAddColumnSql
       (Spec.createField Scenario.oldUser (ModelField.mk "id" "Int" [] ["@id"; "@unique"]))
     = Ok ("ALTER TABLE user ADD COLUMN id INTEGER PRIMARY KEY NOT NULL UNIQUE NOT NULL;",
           "ALTER TABLE user DROP COLUMN id;")
  /\ MigrationGenerator.columnDefinition (ModelField.mk "id" "Int" [] ["@id"; "@unique"])
     = "  id INTEGER PRIMARY KEY NOT NULL UNIQUE NOT NULL"
  /\ MigrationGenerator.constraintsOf Scenario.name_ = []
  /\ MigrationGenerator.columnDefinition Scenario.name_ = "  name TEXT ".
Proof. repeat split; vm_compute; reflexivity. Qed.

Lemma scenario_processChanges :
  MigrationGenerator.processChanges Scenario.changes [] []
  = Ok ([ ("CREATE TABLE post (" ++ Scenario.lf
           ++ "  id INTEGER PRIMARY KEY NOT NULL," ++ Scenario.lf
           ++ "  title TEXT " ++ Scenario.lf ++ ");")%string;
          "ALTER TABLE user ADD COLUMN bio TEXT ;" ],
        [ "DROP TABLE IF EXISTS post;"; "ALTER TABLE user DROP COLUMN bio;" ]).
Proof. vm_compute. reflexivity. Qed.

(** C2.  The scenario: the two texts parse to the two schemas; the
    differ gives [CREATE_MODEL] for [Post] and then [CREATE_FIELD] for
    [User.bio], and nothing else; whatever the name and the time,
    [generateMigration] on these two changes returns a migration whose
    [upSql] is the [CREATE TABLE post] statement with its two columns
    followed by [ALTER TABLE user ADD COLUMN bio TEXT], the latter
    without [NOT NULL], and whose [downSql] is
    [DROP TABLE IF EXISTS post] followed by
    [ALTER TABLE user DROP COLUMN bio]. *)
Theorem scenario_diff_and_sql :
  SchemaParser.parseSchema Scenario.oldText = Scenario.oldSchema
  /\ SchemaParser.parseSchema Scenario.newText = Scenario.newSchema
  /\ SchemaComparer.compareSchemas Scenario.oldSchema Scenario.newSchema = Scenario.changes
  /\ (forall migrationName now, exists m root',
        MigrationGenerator.generateMigration Scenario.changes migrationName now []
        = (Ok (Some m), root')
        /\ Migration.upSql m = Scenario.upSql
        /\ Migration.downSql m = Scenario.downSql)
  /\ Js.includes "CREATE TABLE post (" Scenario.upSql = true
  /\ Js.includes "ALTER TABLE user ADD COLUMN bio TEXT" Scenario.upSql = true
  /\ MigrationGenerator.generateAddColumnSql (Spec.createField Scenario.newUser Scenario.bio)
     = Ok ("ALTER TABLE user ADD COLUMN bio TEXT ;", "ALTER TABLE user DROP COLUMN bio;")
  /\ Js.includes "NOT NULL" "ALTER TABLE user ADD COLUMN bio TEXT ;" = false
  /\ Js.includes "DROP TABLE IF EXISTS post" Scenario.downSql = true
  /\ Js.includes "ALTER TABLE user DROP COLUMN bio" Scenario.downSql = true.
Proof.
  split; [vm_compute; reflexivity |].
  split; [vm_compute; reflexivity |].
  split; [vm_compute; reflexivity |].
  split; [| repeat split; vm_compute; reflexivity].
  intros migrationName now. eexists. eexists. split.
  - apply (generateMigration_ok Scenario.changes migrationName now []
             _ _ ltac:(discriminate) scenario_processChanges).
    apply writable_empty.
  - split; vm_compute; reflexivity.
Qed.

End Generator.

(** ** Timestamps and identifiers *)

Section Timestamps.

Lemma ascii_compare_refl (c : ascii) : Ascii.compare c c = Eq.
Proof. unfold Ascii.compare. apply N.compare_refl. Qed.

Lemma ascii_eqb_true (c d : ascii) : Ascii.eqb c d = true -> c = d.
Proof. apply Ascii.eqb_eq. Qed.

(** On two texts of one shape whose fixed code units are no digits, the
    order of the texts is the order of their digits. *)
Lemma compare_digitsOnly (p s1 s2 : string) :
  Spec.noDigit p = true ->
  Spec.matchesPattern p s1 = true -> Spec.matchesPattern p s2 = true ->
  String.compare (Js.digitsOnly s1) (Js.digitsOnly s2) = String.compare s1 s2.
Proof.
  revert s1 s2. induction p as [| pc p IH]; intros [| c1 s1] [| c2 s2] Hp H1 H2;
    simpl in *; try discriminate; [reflexivity |].
  apply andb_prop in Hp. destruct Hp as [Hpc Hp].
  apply andb_prop in H1. destruct H1 as [Hc1 H1].
  apply andb_prop in H2. destruct H2 as [Hc2 H2].
  destruct (Ascii.eqb pc "d"%char).
  - rewrite Hc1, Hc2. simpl. now rewrite (IH s1 s2 Hp H1 H2).
  - apply ascii_eqb_true in Hc1, Hc2. subst c1 c2.
    apply negb_true_iff in Hpc. rewrite Hpc, ascii_compare_refl.
    now apply IH.
Qed.

Lemma take_compare (n : nat) (s1 s2 : string) :
  String.compare s1 s2 <> Gt ->
  String.compare (Js.take n s1) (Js.take n s2) <> Gt.
Proof.
  revert s1 s2. induction n as [| n IH]; intros [| c1 s1] [| c2 s2] H; simpl in *;
    try discriminate; try congruence.
  destruct (Ascii.compare c1 c2); try discriminate; try congruence.
  now apply IH.
Qed.

Lemma leb_compare (a b : string) : String.leb a b = true <-> String.compare a b <> Gt.
Proof.
  unfold String.leb. destruct (String.compare a b); split; congruence.
Qed.

(** The timestamp never decreases when the clock does not. *)
Lemma timestampOf_monotone (now1 now2 : string) :
  Spec.isoFormat now1 = true -> Spec.isoFormat now2 = true ->
  String.leb now1 now2 = true ->
  String.leb (MigrationGenerator.timestampOf now1) (MigrationGenerator.timestampOf now2)
  = true.
Proof.
  intros H1 H2 Hle. apply leb_compare. apply leb_compare in Hle.
  unfold MigrationGenerator.timestampOf. apply take_compare.
  now rewrite (compare_digitsOnly Spec.isoPattern now1 now2 eq_refl H1 H2).
Qed.

Lemma storedOver_reads (m : Migration.t) (es : Fs.dir) :
  Fs.readFile "migration.json" (Spec.storedOver m es) = Ok (Spec.metadataText m)
  /\ Fs.readFile "up.sql" (Spec.storedOver m es) = Ok (Migration.upSql m)
  /\ Fs.readFile "down.sql" (Spec.storedOver m es) = Ok (Migration.downSql m).
Proof.
  unfold Spec.storedOver, Fs.readFile. repeat split.
  - rewrite !lookup_set_ne by discriminate. now rewrite lookup_set_eq.
  - rewrite lookup_set_ne by discriminate. now rewrite lookup_set_eq.
  - now rewrite lookup_set_eq.
Qed.

Lemma digitsOnly_append (a b : string) :
  Js.digitsOnly (a ++ b) = (Js.digitsOnly a ++ Js.digitsOnly b)%string.
Proof.
  induction a as [| c a IH]; simpl; [reflexivity |].
  destruct (Js.isDigit c); simpl; now rewrite IH.
Qed.

Lemma digitsOnly_of_digits (s : string) :
  Spec.everyChar Js.isDigit s = true -> Js.digitsOnly s = s.
Proof.
  induction s as [| c s IH]; simpl; [reflexivity |].
  intros H. apply andb_prop in H. destruct H as [Hc Hs]. now rewrite Hc, IH.
Qed.

Lemma matchesPattern_append (p1 p2 s1 s2 : string) :
  Spec.matchesPattern p1 s1 = true -> Spec.matchesPattern p2 s2 = true ->
  Spec.matchesPattern (p1 ++ p2) (s1 ++ s2) = true.
Proof.
  revert s1. induction p1 as [| pc p1 IH]; intros [| c s1] H1 H2; simpl in *;
    try discriminate; [exact H2 |].
  apply andb_prop in H1. destruct H1 as [Hc H1]. now rewrite Hc, IH.
Qed.

Lemma matchesPattern_digits (n : nat) (s : string) :
  Spec.digits n s -> Spec.matchesPattern (Spec.digitPlaces n) s = true.
Proof.
  intros [Hl Hd]. revert n Hl. induction s as [| c s IH]; intros n Hl; simpl in *.
  - now subst n.
  - subst n. simpl. apply andb_prop in Hd. destruct Hd as [Hc Hs].
    now rewrite Hc, IH.
Qed.

(** The text of [toISOString] has the shape that [isoFormat] tests. *)
Lemma isoText_isoFormat (year month day hour minute second millis : string) :
  Spec.digits 4 year -> Spec.digits 2 month -> Spec.digits 2 day ->
  Spec.digits 2 hour -> Spec.digits 2 minute -> Spec.digits 2 second ->
  Spec.digits 3 millis ->
  Spec.isoFormat (Spec.isoText year month day hour minute second millis) = true.
Proof.
  intros Hy Hmo Hd Hh Hmi Hs Hms. unfold Spec.isoFormat, Spec.isoText.
  change Spec.isoPattern
    with (Spec.digitPlaces 4 ++ "-" ++ Spec.digitPlaces 2 ++ "-" ++ Spec.digitPlaces 2 ++ "T"
          ++ Spec.digitPlaces 2 ++ ":" ++ Spec.digitPlaces 2 ++ ":" ++ Spec.digitPlaces 2 ++ "."
          ++ Spec.digitPlaces 3 ++ "Z")%string.
  repeat (apply matchesPattern_append;
          [first [now apply matchesPattern_digits | reflexivity] |]).
  reflexivity.
Qed.

(** The timestamp is the clock reading without the milliseconds: year,
    month, day, hour, minute and second, digits only. *)
Lemma timestampOf_isoText (year month day hour minute second millis : string) :
  Spec.digits 4 year -> Spec.digits 2 month -> Spec.digits 2 day ->
  Spec.digits 2 hour -> Spec.digits 2 minute -> Spec.digits 2 second ->
  Spec.digits 3 millis ->
  MigrationGenerator.timestampOf
    (Spec.isoText year month day hour minute second millis)
  = (year ++ month ++ day ++ hour ++ minute ++ second)%string.
Proof.
  intros [Ly Dy] [Lmo Dmo] [Ld Dd] [Lh Dh] [Lmi Dmi] [Ls Ds] [Lms Dms].
  unfold MigrationGenerator.timestampOf, Spec.isoText.
  rewrite !digitsOnly_append.
  rewrite (digitsOnly_of_digits _ Dy), (digitsOnly_of_digits _ Dmo),
    (digitsOnly_of_digits _ Dd), (digitsOnly_of_digits _ Dh),
    (digitsOnly_of_digits _ Dmi), (digitsOnly_of_digits _ Ds),
    (digitsOnly_of_digits _ Dms).
  change (Js.digitsOnly "-") with EmptyString.
  change (Js.digitsOnly "T") with EmptyString.
  change (Js.digitsOnly ":") with EmptyString.
  change (Js.digitsOnly ".") with EmptyString.
  change (Js.digitsOnly "Z") with EmptyString.
  cbn [append].
  replace (year ++ month ++ day ++ hour ++ minute ++ second ++ millis ++ EmptyString)%string
    with ((year ++ month ++ day ++ hour ++ minute ++ second) ++ millis ++ EmptyString)%string
    by (now rewrite !append_assoc).
  apply take_append. rewrite !length_append. lia.
Qed.

Lemma generateMigration_identity (changes : list SchemaChange.t)
  (migrationName : option string) (now : string) (root root' : Fs.dir)
  (m : Migration.t) :
  MigrationGenerator.generateMigration changes migrationName now root
  = (Ok (Some m), root') ->
  Migration.timestamp m = MigrationGenerator.timestampOf now
  /\ Migration.id m
     = (MigrationGenerator.timestampOf now
        ++ match MigrationGenerator.truthy migrationName with
           | Some n => "_" ++ n
           | None => EmptyString
           end)%string.
Proof.
  intros H. apply generateMigration_some in H. destruct H as (ups & downs & _ & ->).
  split; reflexivity.
Qed.

Lemma saved_reads (m : Migration.t) (path : list string) (root : Fs.dir) :
  Fs.join (Migration.id m) = Some path ->
  Fs.readFile "migration.json" (Spec.entriesAt path (Spec.saved m root))
  = Ok (Spec.metadataText m)
  /\ Fs.readFile "up.sql" (Spec.entriesAt path (Spec.saved m root))
     = Ok (Migration.upSql m)
  /\ Fs.readFile "down.sql" (Spec.entriesAt path (Spec.saved m root))
     = Ok (Migration.downSql m).
Proof.
  intros Hj. unfold Spec.saved. rewrite Hj, entriesAt_putDir. apply storedOver_reads.
Qed.

(** C8, as the code has it.  The timestamp is the clock reading cut to
    whole seconds, the fourteen digits of year, month, day, hour,
    minute and second: it never decreases when the clock does not, and
    two readings within one second give the same timestamp.  The
    timestamp of a generated migration is that of the clock reading,
    and its id is the timestamp, followed by an underscore and the
    name when one is given; so two calls with one name within one
    second return one id.  Saving does not look for an earlier
    migration: wherever the place is writable, also when the directory
    of that id exists, the call returns the new migration and the three
    files of the directory hold its text. *)
Theorem timestamps_and_ids_as_generated :
  (forall now1 now2,
     Spec.isoFormat now1 = true -> Spec.isoFormat now2 = true ->
     String.leb now1 now2 = true ->
     String.leb (MigrationGenerator.timestampOf now1) (MigrationGenerator.timestampOf now2)
     = true)
  /\ (forall year month day hour minute second millis,
        Spec.digits 4 year -> Spec.digits 2 month -> Spec.digits 2 day ->
        Spec.digits 2 hour -> Spec.digits 2 minute -> Spec.digits 2 second ->
        Spec.digits 3 millis ->
        Spec.isoFormat (Spec.isoText year month day hour minute second millis) = true
        /\ MigrationGenerator.timestampOf
             (Spec.isoText year month day hour minute second millis)
           = (year ++ month ++ day ++ hour ++ minute ++ second)%string)
  /\ (forall year month day hour minute second millis millis',
        Spec.digits 4 year -> Spec.digits 2 month -> Spec.digits 2 day ->
        Spec.digits 2 hour -> Spec.digits 2 minute -> Spec.digits 2 second ->
        Spec.digits 3 millis -> Spec.digits 3 millis' ->
        MigrationGenerator.timestampOf
          (Spec.isoText year month day hour minute second millis)
        = MigrationGenerator.timestampOf
            (Spec.isoText year month day hour minute second millis'))
  /\ (forall changes migrationName now root root' m,
        MigrationGenerator.generateMigration changes migrationName now root
        = (Ok (Some m), root') ->
        Migration.timestamp m = MigrationGenerator.timestampOf now
        /\ Migration.id m
           = (MigrationGenerator.timestampOf now
              ++ match MigrationGenerator.truthy migrationName with
                 | Some n => "_" ++ n
                 | None => EmptyString
                 end)%string)
  /\ (forall changes1 changes2 migrationName now1 now2 root1 root2 root1' root2' m1 m2,
        MigrationGenerator.generateMigration changes1 migrationName now1 root1
        = (Ok (Some m1), root1') ->
        MigrationGenerator.generateMigration changes2 migrationName now2 root2
        = (Ok (Some m2), root2') ->
        MigrationGenerator.timestampOf now1 = MigrationGenerator.timestampOf now2 ->
        Migration.id m1 = Migration.id m2)
  /\ (forall changes migrationName now root ups downs path,
        changes <> [] ->
        MigrationGenerator.processChanges changes [] [] = Ok (ups, downs) ->
        Fs.join (Migration.id (Spec.migrationOf migrationName now ups downs)) = Some path ->
        Spec.writable (Migration.id (Spec.migrationOf migrationName now ups downs)) root
        = true ->
        exists root',
          MigrationGenerator.generateMigration changes migrationName now root
          = (Ok (Some (Spec.migrationOf migrationName now ups downs)), root')
          /\ Fs.readFile "up.sql" (Spec.entriesAt path root')
             = Ok (Migration.upSql (Spec.migrationOf migrationName now ups downs))
          /\ Fs.readFile "down.sql" (Spec.entriesAt path root')
             = Ok (Migration.downSql (Spec.migrationOf migrationName now ups downs))
          /\ Fs.readFile "migration.json" (Spec.entriesAt path root')
             = Ok (Spec.metadataText (Spec.migrationOf migrationName now ups downs))).
Proof.
  split; [exact timestampOf_monotone |].
  split.
  { intros year month day hour minute second millis Hy Hmo Hd Hh Hmi Hs Hms.
    split; [now apply isoText_isoFormat | now apply timestampOf_isoText]. }
  split.
  { intros year month day hour minute second millis millis' Hy Hmo Hd Hh Hmi Hs Hms Hms'.
    now rewrite !timestampOf_isoText. }
  split; [exact generateMigration_identity |].
  split.
  { intros changes1 changes2 migrationName now1 now2 root1 root2 root1' root2' m1 m2
      H1 H2 Hts.
    apply generateMigration_identity in H1, H2.
    destruct H1 as [_ ->], H2 as [_ ->]. now rewrite Hts. }
  intros changes migrationName now root ups downs path Hne Hp Hj Hw.
  eexists. split; [exact (generateMigration_ok _ _ _ _ _ _ Hne Hp Hw) |].
  destruct (saved_reads (Spec.migrationOf migrationName now ups downs) path root Hj)
    as (Hjson & Hup & Hdown).
  auto.
Qed.

Lemma timestamps_and_ids_as_generated_witness :
  Spec.isoFormat Scenario.now1 = true
  /\ Spec.isoFormat Scenario.now2 = true
  /\ String.leb Scenario.now1 Scenario.now2 = true
  /\ String.leb (MigrationGenerator.timestampOf Scenario.now1)
       (MigrationGenerator.timestampOf Scenario.now2) = true
  /\ MigrationGenerator.timestampOf (Spec.isoText "2025" "05" "04" "12" "34" "56" "100")
     = MigrationGenerator.timestampOf (Spec.isoText "2025" "05" "04" "12" "34" "56" "900")
  /\ Fs.readFile "up.sql" (Spec.entriesAt ["20250504123456_change"] Scenario.existing)
     = Ok "CREATE TABLE post ();"
  /\ (exists m root',
        MigrationGenerator.generateMigration [Spec.deleteModel Scenario.post]
          (Some "change") Scenario.now2 Scenario.existing
        = (Ok (Some m), root')
        /\ Fs.readFile "up.sql" (Spec.entriesAt ["20250504123456_change"] root')
           = Ok "DROP TABLE IF EXISTS post;").
Proof.
  split; [reflexivity |]. split; [reflexivity |]. split; [reflexivity |].
  split.
  { exact (proj1 timestamps_and_ids_as_generated Scenario.now1 Scenario.now2
             eq_refl eq_refl eq_refl). }
  split.
  { apply (proj1 (proj2 (proj2 timestamps_and_ids_as_generated)));
      split; reflexivity. }
  split; [reflexivity |].
  destruct (proj2 (proj2 (proj2 (proj2 (proj2 timestamps_and_ids_as_generated))))
              [Spec.deleteModel Scenario.post] (Some "change") Scenario.now2
              Scenario.existing
              (flat_map Spec.upOf [Spec.deleteModel Scenario.post])
              (flat_map Spec.downOf [Spec.deleteModel Scenario.post])
              ["20250504123456_change"]
              ltac:(discriminate) eq_refl eq_refl eq_refl)
    as (root' & Hg & Hup & _).
  eexists. exists root'. split; [exact Hg | exact Hup].
Defined.

(** C8 fails on the code.  Two calls, the clock 800 milliseconds
    further at the second: both return a migration, with one timestamp
    and one id, and afterwards the directory of that id is the only one
    and holds the second migration. *)
Lemma second_call_reuses_id :
  exists m1 root1 m2 root2,
    MigrationGenerator.generateMigration [Spec.createModel Scenario.post]
      (Some "change") Scenario.now1 [] = (Ok (Some m1), root1)
    /\ MigrationGenerator.generateMigration [Spec.deleteModel Scenario.post]
         (Some "change") Scenario.now2 root1 = (Ok (Some m2), root2)
    /\ String.ltb Scenario.now1 Scenario.now2 = true
    /\ Migration.timestamp m1 = Migration.timestamp m2
    /\ Migration.id m1 = Migration.id m2
    /\ Migration.upSql m1 <> Migration.upSql m2
    /\ map fst root2 = [Migration.id m1]
    /\ Fs.readFile "up.sql" (Spec.entriesOf (Migration.id m1) root2)
       = Ok (Migration.upSql m2).
Proof.
  do 4 eexists.
  split; [vm_compute; reflexivity |].
  split; [vm_compute; reflexivity |].
  repeat split; try (vm_compute; reflexivity).
  vm_compute. discriminate.
Qed.

End Timestamps.

(** ** Listing the migrations *)

Section Sorting.
Context {A : Type}.
Variable cmp : A -> A -> result comparison.

Lemma insertBy_Permutation (x : A) (l r : list A) :
  MigrationManager.insertBy cmp x l = Ok r -> Permutation (x :: l) r.
Proof.
  revert r. induction l as [| y l IH]; intros r; simpl.
  - intros H. injection H as <-. apply Permutation_refl.
  - destruct (cmp x y) as [[| |] | e]; simpl; try discriminate;
      try (intros H; injection H as <-; apply Permutation_refl).
    destruct (MigrationManager.insertBy cmp x l) as [r' | e]; simpl; [| discriminate].
    intros H. injection H as <-.
    eapply Permutation_trans; [apply perm_swap |]. now apply perm_skip, IH.
Qed.

Lemma sortFrom_Permutation (before l r : list A) :
  MigrationManager.sortFrom cmp before l = Ok r -> Permutation (before ++ l) r.
Proof.
  revert before r. induction l as [| x l IH]; intros before r; simpl.
  - intros H. injection H as <-. rewrite app_nil_r. apply Permutation_rev.
  - destruct (MigrationManager.insertBy cmp x before) as [before' | e] eqn:Ei; simpl;
      [| discriminate].
    intros H. apply IH in H.
    eapply Permutation_trans; [| exact H].
    eapply Permutation_trans; [apply Permutation_sym, Permutation_middle |].
    change (x :: before ++ l) with ((x :: before) ++ l).
    apply Permutation_app_tail. now apply insertBy_Permutation.
Qed.

Lemma sortBy_Permutation (l r : list A) :
  MigrationManager.sortBy cmp l = Ok r -> Permutation l r.
Proof. exact (sortFrom_Permutation [] l r). Qed.

(** Where the comparator does not throw on the elements of a list,
    neither does the sort. *)
Lemma insertBy_defined (x : A) (l : list A) :
  (forall y, In y l -> exists c, cmp x y = Ok c) ->
  exists r, MigrationManager.insertBy cmp x l = Ok r.
Proof.
  induction l as [| y l IH]; intros H; simpl; [eauto |].
  destruct (H y (or_introl eq_refl)) as [c ->]. simpl.
  destruct c; eauto.
  destruct IH as [r ->]; [intros z Hz; apply H; now right |]. simpl. eauto.
Qed.

Lemma sortFrom_defined (before l : list A) :
  (forall x y, In x l -> exists c, cmp x y = Ok c) ->
  exists r, MigrationManager.sortFrom cmp before l = Ok r.
Proof.
  revert before. induction l as [| x l IH]; intros before H; simpl; [eauto |].
  destruct (insertBy_defined x before) as [before' ->].
  { intros y _. apply H. now left. }
  simpl. apply IH. intros a b Ha. apply H. now right.
Qed.

End Sorting.

Section SortedLists.
Context {A : Type}.
Variable R : A -> A -> Prop.

Lemma Sorted_snoc (l : list A) (y x : A) :
  Sorted R (l ++ [y]) -> R y x -> Sorted R ((l ++ [y]) ++ [x]).
Proof.
  induction l as [| a l IH]; simpl; intros Hs Hyx.
  - repeat constructor. exact Hyx.
  - inversion Hs as [| ? ? Hs' Hhd]; subst. constructor; [now apply IH |].
    destruct l as [| b l]; simpl in *; inversion Hhd; subst; now constructor.
Qed.

(** A list that descends, read backwards, ascends. *)
Lemma Sorted_rev (l : list A) :
  Sorted (fun a b => R b a) l -> Sorted R (rev l).
Proof.
  induction l as [| x l IH]; intros Hs; [constructor |].
  inversion Hs as [| ? ? Hs' Hhd]; subst. specialize (IH Hs').
  destruct l as [| y l]; [repeat constructor |].
  inversion Hhd as [| ? ? Hyx]; subst.
  change (rev (x :: y :: l)) with ((rev l ++ [y]) ++ [x]).
  now apply Sorted_snoc.
Qed.

End SortedLists.

Section Listing.
Variable parseJson : string -> result MigrationManager.Metadata.
Variable localeCompare : string -> string -> comparison.

(** [localeCompare] never puts each of two strings before the other. *)
Hypothesis localeCompare_total :
  forall a b, localeCompare a b = Lt -> localeCompare b a <> Lt.

Let cmp := MigrationManager.byTimestamp localeCompare.

Lemma byTimestamp_text (a b : MigrationManager.Listed.t) :
  Spec.textTimestamp a = true ->
  cmp a b = Ok (localeCompare (Spec.timestampText a) (Spec.timestampText b)).
Proof.
  unfold cmp, MigrationManager.byTimestamp, Spec.textTimestamp, Spec.timestampText.
  destruct (MigrationManager.Listed.timestamp a); [reflexivity | discriminate].
Qed.

Lemma byTimestamp_not_text (a b : MigrationManager.Listed.t) :
  Spec.textTimestamp a = false -> cmp a b = Throw "TypeError".
Proof.
  unfold cmp, MigrationManager.byTimestamp, Spec.textTimestamp.
  destruct (MigrationManager.Listed.timestamp a); [discriminate | reflexivity].
Qed.

(** The elements sorted so far, the last first, descend. *)
Let descending (a b : MigrationManager.Listed.t) : Prop :=
  Spec.ascending localeCompare b a.

Lemma insertBy_sorted (x : MigrationManager.Listed.t)
  (l r : list MigrationManager.Listed.t) :
  Spec.textTimestamp x = true ->
  Sorted descending l ->
  MigrationManager.insertBy cmp x l = Ok r ->
  Sorted descending r
  /\ (forall z, descending z x -> HdRel descending z l -> HdRel descending z r).
Proof.
  intros Hx. revert r. induction l as [| y l IH]; intros r Hs; simpl.
  - intros H. injection H as <-. split; [repeat constructor |].
    intros z Hz _. now constructor.
  - rewrite (byTimestamp_text x y Hx). simpl.
    inversion Hs as [| ? ? Hs' Hhd]; subst.
    destruct (localeCompare (Spec.timestampText x) (Spec.timestampText y)) eqn:E.
    + intros H. injection H as <-. split.
      * constructor; [assumption |]. constructor.
        unfold descending, Spec.ascending. congruence.
      * intros z Hz _. now constructor.
    + destruct (MigrationManager.insertBy cmp x l) as [r' | e] eqn:Ei; simpl;
        [| discriminate].
      intros H. injection H as <-.
      assert (Hyx : descending y x)
        by (unfold descending, Spec.ascending; now apply localeCompare_total).
      destruct (IH r' Hs' eq_refl) as [Hs1 Hh1]. split.
      * constructor; [exact Hs1 | now apply Hh1].
      * intros z _ Hz. inversion Hz; subst. now constructor.
    + intros H. injection H as <-. split.
      * constructor; [assumption |]. constructor.
        unfold descending, Spec.ascending. congruence.
      * intros z Hz _. now constructor.
Qed.

Lemma sortFrom_sorted (before l r : list MigrationManager.Listed.t) :
  Forall (fun m => Spec.textTimestamp m = true) l ->
  Sorted descending before ->
  MigrationManager.sortFrom cmp before l = Ok r ->
  Sorted (Spec.ascending localeCompare) r.
Proof.
  revert before r. induction l as [| x l IH]; intros before r Hall Hs; simpl.
  - intros H. injection H as <-. now apply Sorted_rev.
  - inversion Hall as [| ? ? Hx Hl]; subst.
    destruct (MigrationManager.insertBy cmp x before) as [before' | e] eqn:Ei; simpl;
      [| discriminate].
    apply (IH before' r Hl).
    exact (proj1 (insertBy_sorted x before before' Hx Hs Ei)).
Qed.

(** With string timestamps the sort succeeds, and gives the elements
    in ascending order. *)
Lemma sortBy_text (l : list MigrationManager.Listed.t) :
  Forall (fun m => Spec.textTimestamp m = true) l ->
  exists r, MigrationManager.sortBy cmp l = Ok r
            /\ Permutation r l
            /\ Sorted (Spec.ascending localeCompare) r.
Proof.
  intros Hall. unfold MigrationManager.sortBy.
  destruct (sortFrom_defined cmp [] l) as [r Hr].
  { intros x y Hx. rewrite Forall_forall in Hall.
    rewrite (byTimestamp_text x y (Hall x Hx)). eauto. }
  exists r. split; [exact Hr |]. split.
  - apply Permutation_sym. exact (sortFrom_Permutation cmp [] l r Hr).
  - apply (sortFrom_sorted [] l r Hall); [constructor | exact Hr].
Qed.

Lemma visit_In (entry : string * Fs.node) (m : MigrationManager.Listed.t) :
  In m (MigrationManager.visit parseJson entry)
  <-> exists es, snd entry = Fs.Dir es
                 /\ MigrationManager.readMigration parseJson es = Ok (Some m).
Proof.
  unfold MigrationManager.visit. destruct (snd entry) as [c | es]; split.
  - contradiction.
  - intros (es & H & _). discriminate.
  - destruct (MigrationManager.readMigration parseJson es) as [[m' |] | e] eqn:E;
      try contradiction.
    intros [<- | []]. now exists es.
  - intros (es' & H & Hr). injection H as <-. rewrite Hr. now left.
Qed.

Lemma readMigration_spec (es : Fs.dir) (m : MigrationManager.Listed.t) :
  MigrationManager.readMigration parseJson es = Ok (Some m)
  <-> Spec.complete es = true
      /\ exists metadata upSql downSql,
           MigrationManager.readJson parseJson "migration.json" es = Ok metadata
           /\ Fs.readFile "up.sql" es = Ok upSql
           /\ Fs.readFile "down.sql" es = Ok downSql
           /\ m = MigrationManager.Listed.mk (MigrationManager.id metadata)
                    (MigrationManager.name metadata)
                    (MigrationManager.timestamp metadata) upSql downSql.
Proof.
  unfold MigrationManager.readMigration. fold (Spec.complete es).
  destruct (Spec.complete es); split.
  - intros H. split; [reflexivity |].
    destruct (MigrationManager.readJson parseJson "migration.json" es) as [metadata | e];
      [| discriminate].
    destruct (Fs.readFile "up.sql" es) as [upSql | e]; [| discriminate].
    destruct (Fs.readFile "down.sql" es) as [downSql | e]; [| discriminate].
    simpl in H. injection H as <-. now exists metadata, upSql, downSql.
  - intros (_ & metadata & upSql & downSql & -> & -> & -> & ->). reflexivity.
  - discriminate.
  - intros [H _]. discriminate.
Qed.

Lemma visit_incomplete (name : string) (es : Fs.dir) :
  Spec.complete es = false -> MigrationManager.visit parseJson (name, Fs.Dir es) = [].
Proof.
  intros H. unfold MigrationManager.visit, MigrationManager.readMigration. simpl.
  fold (Spec.complete es). now rewrite H.
Qed.



Lemma getMigrations_without_entry (entry : string * Fs.node) (r1 r2 : Fs.dir) :
  MigrationManager.visit parseJson entry = [] ->
  MigrationManager.getMigrations parseJson localeCompare (r1 ++ entry :: r2)
  = MigrationManager.getMigrations parseJson localeCompare (r1 ++ r2).
Proof.
  intros H. unfold MigrationManager.getMigrations.
  rewrite !flat_map_app. simpl. now rewrite H.
Qed.


End Listing.

Lemma compareDigits_total (a b : string) :
  MigrationManager.compareDigits a b = Lt -> MigrationManager.compareDigits b a <> Lt.
Proof.
  unfold MigrationManager.compareDigits. rewrite (String.compare_antisym b a).
  intros ->. discriminate.
Qed.



(** * Further properties of the differ *)

Section DifferMembership.
Import ChangeType.

Lemma flat_map_nil_iff {A B : Type} (f : A -> list B) (l : list A) :
  flat_map f l = [] <-> forall x, In x l -> f x = [].
Proof.
  split; [| apply flat_map_nil].
  induction l as [| a l IH]; simpl; intros H x Hx; [contradiction |].
  apply app_eq_nil in H. destruct H as [Ha Hl].
  destruct Hx as [<- | Hx]; [exact Ha | now apply IH].
Qed.

Lemma In_names_has (n : string) (l : list string) :
  In n l -> Js.has n (Js.newSet l) = true.
Proof. intros H. rewrite has_newSet. now apply has_In. Qed.

Lemma notIn_names_has (n : string) (l : list string) :
  ~ In n l -> Js.has n (Js.newSet l) = false.
Proof. intros H. rewrite has_newSet. now apply has_false. Qed.

Lemma has_names_In (n : string) (l : list string) :
  Js.has n (Js.newSet l) = true -> In n l.
Proof. rewrite has_newSet. apply has_In. Qed.

Lemma has_names_notIn (n : string) (l : list string) :
  Js.has n (Js.newSet l) = false -> ~ In n l.
Proof. rewrite has_newSet. apply has_false. Qed.

(** What [compareModelFields] holds, change by change. *)
Lemma compareModelFields_In (mo mn : Model.t) (c : SchemaChange.t) :
  In c (SchemaComparer.compareModelFields mo mn)
  <-> (exists f, In f (Spec.fieldNames mn) /\ ~ In f (Spec.fieldNames mo)
                 /\ c = SchemaChange.mk CREATE_FIELD (Some (Model.name mn)) (Some f) None
                          (option_map PField (SchemaComparer.findField f (Model.fields mn))))
      \/ (exists f, In f (Spec.fieldNames mo) /\ ~ In f (Spec.fieldNames mn)
                    /\ c = SchemaChange.mk DELETE_FIELD (Some (Model.name mo)) (Some f)
                             None None)
      \/ (exists f fo fn,
            SchemaComparer.findField f (Model.fields mo) = Some fo
            /\ SchemaComparer.findField f (Model.fields mn) = Some fn
            /\ SchemaComparer.fieldDiffers fo fn = true
            /\ c = SchemaChange.mk ALTER_FIELD (Some (Model.name mo)) (Some f)
                     (Some (PField fo)) (Some (PField fn))).
Proof.
  unfold SchemaComparer.compareModelFields. rewrite !in_app_iff.
  unfold SchemaComparer.createdFields, SchemaComparer.deletedFields,
    SchemaComparer.alteredFields.
  fold (Spec.fieldNames mo). fold (Spec.fieldNames mn).
  rewrite !in_flat_map. split.
  - intros [(f & Hf & Hc) | [(f & Hf & Hc) | (f & Hf & Hc)]].
    + left. apply (proj1 (newSet_In _ _)) in Hf.
      destruct (Js.has f (Js.newSet (Spec.fieldNames mo))) eqn:E; [contradiction |].
      apply has_names_notIn in E. destruct Hc as [<- | []]. now exists f.
    + right. left. apply (proj1 (newSet_In _ _)) in Hf.
      destruct (Js.has f (Js.newSet (Spec.fieldNames mn))) eqn:E; [contradiction |].
      apply has_names_notIn in E. destruct Hc as [<- | []]. now exists f.
    + right. right.
      destruct (Js.has f (Js.newSet (Spec.fieldNames mn))); [| contradiction].
      destruct (SchemaComparer.findField f (Model.fields mo)) as [fo |] eqn:Eo;
        [| contradiction].
      destruct (SchemaComparer.findField f (Model.fields mn)) as [fn |] eqn:En;
        [| contradiction].
      destruct (SchemaComparer.fieldDiffers fo fn) eqn:Ed; [| contradiction].
      destruct Hc as [<- | []]. now exists f, fo, fn.
  - intros [(f & Hn & Ho & ->) | [(f & Ho & Hn & ->) | (f & fo & fn & Eo & En & Ed & ->)]].
    + left. exists f. split; [now apply newSet_In |].
      rewrite (notIn_names_has _ _ Ho). now left.
    + right. left. exists f. split; [now apply newSet_In |].
      rewrite (notIn_names_has _ _ Hn). now left.
    + right. right. exists f.
      destruct (findBy_Some ModelField.name f _ fo Eo) as [Hio Hno].
      destruct (findBy_Some ModelField.name f _ fn En) as [Hin Hnn].
      split.
      * apply newSet_In. rewrite <- Hno. unfold Spec.fieldNames. now apply in_map.
      * rewrite In_names_has
          by (rewrite <- Hnn; unfold Spec.fieldNames; now apply in_map).
        rewrite Eo, En, Ed. now left.
Qed.

(** What [compareSchemas] holds, change by change. *)
Lemma compareSchemas_In (old new : ParsedSchema.t) (c : SchemaChange.t) :
  In c (SchemaComparer.compareSchemas old new)
  <-> (exists n, In n (Spec.modelNames new) /\ ~ In n (Spec.modelNames old)
                 /\ c = SchemaChange.mk CREATE_MODEL (Some n) None None
                          (option_map PModel
                             (SchemaComparer.findModel n (ParsedSchema.models new))))
      \/ (exists n, In n (Spec.modelNames old) /\ ~ In n (Spec.modelNames new)
                    /\ c = SchemaChange.mk DELETE_MODEL (Some n) None None None)
      \/ (exists n mo mn,
            SchemaComparer.findModel n (ParsedSchema.models old) = Some mo
            /\ SchemaComparer.findModel n (ParsedSchema.models new) = Some mn
            /\ In c (SchemaComparer.compareModelFields mo mn)).
Proof.
  unfold SchemaComparer.compareSchemas. rewrite !in_app_iff.
  unfold SchemaComparer.createdModels, SchemaComparer.deletedModels,
    SchemaComparer.modifiedModels.
  fold (Spec.modelNames old). fold (Spec.modelNames new).
  rewrite !in_flat_map. split.
  - intros [(n & Hn & Hc) | [(n & Hn & Hc) | (n & Hn & Hc)]].
    + left. apply (proj1 (newSet_In _ _)) in Hn.
      destruct (Js.has n (Js.newSet (Spec.modelNames old))) eqn:E; [contradiction |].
      apply has_names_notIn in E. destruct Hc as [<- | []]. now exists n.
    + right. left. apply (proj1 (newSet_In _ _)) in Hn.
      destruct (Js.has n (Js.newSet (Spec.modelNames new))) eqn:E; [contradiction |].
      apply has_names_notIn in E. destruct Hc as [<- | []]. now exists n.
    + right. right.
      destruct (Js.has n (Js.newSet (Spec.modelNames new))); [| contradiction].
      destruct (SchemaComparer.findModel n (ParsedSchema.models old)) as [mo |] eqn:Eo;
        [| contradiction].
      destruct (SchemaComparer.findModel n (ParsedSchema.models new)) as [mn |] eqn:En;
        [| contradiction].
      now exists n, mo, mn.
  - intros [(n & Hn & Ho & ->) | [(n & Ho & Hn & ->) | (n & mo & mn & Eo & En & Hc)]].
    + left. exists n. split; [now apply newSet_In |].
      rewrite (notIn_names_has _ _ Ho). now left.
    + right. left. exists n. split; [now apply newSet_In |].
      rewrite (notIn_names_has _ _ Hn). now left.
    + right. right. exists n.
      destruct (findBy_Some Model.name n _ mo Eo) as [Hio Hno].
      destruct (findBy_Some Model.name n _ mn En) as [Hin Hnn].
      split.
      * apply newSet_In. rewrite <- Hno. unfold Spec.modelNames. now apply in_map.
      * rewrite In_names_has
          by (rewrite <- Hnn; unfold Spec.modelNames; now apply in_map).
        now rewrite Eo, En.
Qed.

End DifferMembership.

Section DifferKinds.
Import ChangeType.

Lemma nil_iff_no_In {A : Type} (l : list A) : l = [] <-> forall x, ~ In x l.
Proof.
  split; [intros -> x [] |].
  destruct l as [| a l]; [reflexivity |]. intros H. destruct (H a). now left.
Qed.

Lemma differs_sym (a b : ModelField.t) : Spec.differs a b -> Spec.differs b a.
Proof.
  unfold Spec.differs. intros [H | [H | H]].
  - left. congruence.
  - right. left. intros Hp. apply H. now apply Permutation_sym.
  - right. right. intros Hp. apply H. now apply Permutation_sym.
Qed.

Lemma create_model_iff (old new : ParsedSchema.t) (m : string) :
  Spec.emits old new CREATE_MODEL m None
  <-> In m (Spec.modelNames new) /\ ~ In m (Spec.modelNames old).
Proof.
  unfold Spec.emits. split.
  - intros (c & Hin & Ht & Hm & _). apply compareSchemas_In in Hin.
    destruct Hin as [(n & Hn & Ho & ->) | [(n & _ & _ & ->) | (n & mo & mn & _ & _ & Hc)]];
      simpl in *; try discriminate.
    + injection Hm as <-. now split.
    + apply compareModelFields_In in Hc.
      destruct Hc as [(f & _ & _ & ->) | [(f & _ & _ & ->) | (f & fo & fn & _ & _ & _ & ->)]];
        discriminate.
  - intros [Hn Ho]. eexists. split.
    + apply compareSchemas_In. left. exists m. repeat split; eassumption.
    + simpl. auto.
Qed.

Lemma delete_model_iff (old new : ParsedSchema.t) (m : string) :
  Spec.emits old new DELETE_MODEL m None
  <-> In m (Spec.modelNames old) /\ ~ In m (Spec.modelNames new).
Proof.
  unfold Spec.emits. split.
  - intros (c & Hin & Ht & Hm & _). apply compareSchemas_In in Hin.
    destruct Hin as [(n & _ & _ & ->) | [(n & Ho & Hn & ->) | (n & mo & mn & _ & _ & Hc)]];
      simpl in *; try discriminate.
    + injection Hm as <-. now split.
    + apply compareModelFields_In in Hc.
      destruct Hc as [(f & _ & _ & ->) | [(f & _ & _ & ->) | (f & fo & fn & _ & _ & _ & ->)]];
        discriminate.
  - intros [Ho Hn]. eexists. split.
    + apply compareSchemas_In. right. left. exists m. repeat split; eassumption.
    + simpl. auto.
Qed.

Lemma create_field_iff (old new : ParsedSchema.t) (m f : string) :
  Spec.emits old new CREATE_FIELD m (Some f)
  <-> exists mo mn,
        SchemaComparer.findModel m (ParsedSchema.models old) = Some mo
        /\ SchemaComparer.findModel m (ParsedSchema.models new) = Some mn
        /\ In f (Spec.fieldNames mn) /\ ~ In f (Spec.fieldNames mo).
Proof.
  unfold Spec.emits. split.
  - intros (c & Hin & Ht & Hm & Hf). apply compareSchemas_In in Hin.
    destruct Hin as [(n & _ & _ & ->) | [(n & _ & _ & ->) | (n & mo & mn & Eo & En & Hc)]];
      simpl in *; try discriminate.
    apply compareModelFields_In in Hc.
    destruct Hc as [(g & Hn & Ho & ->) | [(g & _ & _ & ->) | (g & fo & fn & _ & _ & _ & ->)]];
      simpl in *; try discriminate.
    injection Hm as Hm. injection Hf as ->.
    destruct (findBy_Some Model.name n _ mn En) as [_ Hname].
    rewrite Hname in Hm. subst n. now exists mo, mn.
  - intros (mo & mn & Eo & En & Hn & Ho).
    destruct (findBy_Some Model.name m _ mn En) as [_ Hname].
    eexists. split.
    + apply compareSchemas_In. right. right. exists m, mo, mn.
      repeat split; try eassumption.
      apply compareModelFields_In. left. exists f. repeat split; eassumption.
    + simpl. rewrite Hname. auto.
Qed.

Lemma delete_field_iff (old new : ParsedSchema.t) (m f : string) :
  Spec.emits old new DELETE_FIELD m (Some f)
  <-> exists mo mn,
        SchemaComparer.findModel m (ParsedSchema.models old) = Some mo
        /\ SchemaComparer.findModel m (ParsedSchema.models new) = Some mn
        /\ In f (Spec.fieldNames mo) /\ ~ In f (Spec.fieldNames mn).
Proof.
  unfold Spec.emits. split.
  - intros (c & Hin & Ht & Hm & Hf). apply compareSchemas_In in Hin.
    destruct Hin as [(n & _ & _ & ->) | [(n & _ & _ & ->) | (n & mo & mn & Eo & En & Hc)]];
      simpl in *; try discriminate.
    apply compareModelFields_In in Hc.
    destruct Hc as [(g & _ & _ & ->) | [(g & Ho & Hn & ->) | (g & fo & fn & _ & _ & _ & ->)]];
      simpl in *; try discriminate.
    injection Hm as Hm. injection Hf as ->.
    destruct (findBy_Some Model.name n _ mo Eo) as [_ Hname].
    rewrite Hname in Hm. subst n. now exists mo, mn.
  - intros (mo & mn & Eo & En & Ho & Hn).
    destruct (findBy_Some Model.name m _ mo Eo) as [_ Hname].
    eexists. split.
    + apply compareSchemas_In. right. right. exists m, mo, mn.
      repeat split; try eassumption.
      apply compareModelFields_In. right. left. exists f. repeat split; eassumption.
    + simpl. rewrite Hname. auto.
Qed.

Lemma alter_field_sym (old new : ParsedSchema.t) (m f : string) :
  Spec.emits old new ALTER_FIELD m (Some f) -> Spec.emits new old ALTER_FIELD m (Some f).
Proof.
  intros (c & Hin & Ht & Hm & Hf).
  destruct (alter_field_emitted old new m f c Hin Ht Hm Hf)
    as (mo & mn & fo & fn & Eo & En & Efo & Efn & Ed & _).
  apply fieldDiffers_spec, differs_sym, fieldDiffers_spec in Ed.
  eexists. split; [exact (alter_field_found new old m f mn mo fn fo En Eo Efn Efo Ed) |].
  simpl. auto.
Qed.

Lemma compareSchemas_nil_iff (old new : ParsedSchema.t) :
  SchemaComparer.compareSchemas old new = [] <-> Spec.unchanged old new.
Proof.
  rewrite nil_iff_no_In. split.
  - intros Hno. split.
    + intros n. split; intros Hn.
      * destruct (in_dec string_dec n (Spec.modelNames new)) as [H | H]; [exact H |].
        exfalso. eapply Hno. apply compareSchemas_In. right. left. now exists n.
      * destruct (in_dec string_dec n (Spec.modelNames old)) as [H | H]; [exact H |].
        exfalso. eapply Hno. apply compareSchemas_In. left. now exists n.
    + intros n mo mn Eo En.
      assert (Hnof : forall c, ~ In c (SchemaComparer.compareModelFields mo mn)).
      { intros c Hc. apply (Hno c). apply compareSchemas_In. right. right.
        now exists n, mo, mn. }
      split.
      * intros f. split; intros Hf.
        -- destruct (in_dec string_dec f (Spec.fieldNames mn)) as [H | H]; [exact H |].
           exfalso. eapply Hnof. apply compareModelFields_In. right. left. now exists f.
        -- destruct (in_dec string_dec f (Spec.fieldNames mo)) as [H | H]; [exact H |].
           exfalso. eapply Hnof. apply compareModelFields_In. left. now exists f.
      * intros f fo fn Efo Efn Hd. apply fieldDiffers_spec in Hd.
        eapply Hnof. apply compareModelFields_In. right. right. now exists f, fo, fn.
  - intros [Hnames Hmodels] c Hin. apply compareSchemas_In in Hin.
    destruct Hin as [(n & Hn & Ho & _) | [(n & Ho & Hn & _) | (n & mo & mn & Eo & En & Hc)]].
    + apply Ho. now apply Hnames.
    + apply Hn. now apply Hnames.
    + destruct (Hmodels n mo mn Eo En) as [Hfields Hsame].
      apply compareModelFields_In in Hc.
      destruct Hc as [(f & Hfn & Hfo & _) | [(f & Hfo & Hfn & _)
                                            | (f & fo & fn & Efo & Efn & Ed & _)]].
      * apply Hfo. now apply Hfields.
      * apply Hfn. now apply Hfields.
      * apply fieldDiffers_spec in Ed. exact (Hsame f fo fn Efo Efn Ed).
Qed.

(** X1.  The differ returns no change exactly when nothing changed: the
    two schemas have the same model names, models of one name have the
    same field names, and fields of one name have the same type and,
    up to order, the same modifiers and attributes. *)
Theorem compareSchemas_empty_iff_unchanged (old new : ParsedSchema.t) :
  SchemaComparer.compareSchemas old new = [] <-> Spec.unchanged old new.
Proof. apply compareSchemas_nil_iff. Qed.

(** X2.  When each kind of change is emitted: [CREATE_MODEL] for the
    names that only [new] has, [DELETE_MODEL] for the names that only
    [old] has, and, between the two models found under a name that both
    have, [CREATE_FIELD] for the field names that only the new model
    has and [DELETE_FIELD] for those that only the old model has. *)
Theorem differ_kinds_characterised (old new : ParsedSchema.t) (m f : string) :
  (Spec.emits old new CREATE_MODEL m None
   <-> In m (Spec.modelNames new) /\ ~ In m (Spec.modelNames old))
  /\ (Spec.emits old new DELETE_MODEL m None
      <-> In m (Spec.modelNames old) /\ ~ In m (Spec.modelNames new))
  /\ (Spec.emits old new CREATE_FIELD m (Some f)
      <-> exists mo mn,
            SchemaComparer.findModel m (ParsedSchema.models old) = Some mo
            /\ SchemaComparer.findModel m (ParsedSchema.models new) = Some mn
            /\ In f (Spec.fieldNames mn) /\ ~ In f (Spec.fieldNames mo))
  /\ (Spec.emits old new DELETE_FIELD m (Some f)
      <-> exists mo mn,
            SchemaComparer.findModel m (ParsedSchema.models old) = Some mo
            /\ SchemaComparer.findModel m (ParsedSchema.models new) = Some mn
            /\ In f (Spec.fieldNames mo) /\ ~ In f (Spec.fieldNames mn)).
Proof.
  split; [apply create_model_iff |]. split; [apply delete_model_iff |].
  split; [apply create_field_iff | apply delete_field_iff].
Qed.

(** X3.  Comparing in the other direction mirrors the diff: what was
    created is deleted, what was deleted is created, and the same
    fields are altered. *)
Theorem differ_mirror (old new : ParsedSchema.t) (m f : string) :
  (Spec.emits old new CREATE_MODEL m None <-> Spec.emits new old DELETE_MODEL m None)
  /\ (Spec.emits old new DELETE_MODEL m None <-> Spec.emits new old CREATE_MODEL m None)
  /\ (Spec.emits old new CREATE_FIELD m (Some f)
      <-> Spec.emits new old DELETE_FIELD m (Some f))
  /\ (Spec.emits old new DELETE_FIELD m (Some f)
      <-> Spec.emits new old CREATE_FIELD m (Some f))
  /\ (Spec.emits old new ALTER_FIELD m (Some f)
      <-> Spec.emits new old ALTER_FIELD m (Some f)).
Proof.
  repeat split; try apply alter_field_sym.
  - rewrite create_model_iff, delete_model_iff. tauto.
  - rewrite create_model_iff, delete_model_iff. tauto.
  - rewrite create_model_iff, delete_model_iff. tauto.
  - rewrite create_model_iff, delete_model_iff. tauto.
  - rewrite create_field_iff. intros (mo & mn & Eo & En & H).
    apply delete_field_iff. now exists mn, mo.
  - rewrite delete_field_iff. intros (mo & mn & Eo & En & H).
    apply create_field_iff. now exists mn, mo.
  - rewrite delete_field_iff. intros (mo & mn & Eo & En & H).
    apply create_field_iff. now exists mn, mo.
  - rewrite create_field_iff. intros (mo & mn & Eo & En & H).
    apply delete_field_iff. now exists mn, mo.
Qed.

Lemma filter_all {A : Type} (p : A -> bool) (l : list A) :
  (forall x, In x l -> p x = true) -> filter p l = l.
Proof.
  induction l as [| a l IH]; intros H; simpl; [reflexivity |].
  rewrite (H a (or_introl eq_refl)), IH; [reflexivity |].
  intros x Hx. apply H. now right.
Qed.

Lemma absentFrom_true (s : ParsedSchema.t) (m : Model.t) :
  ~ In (Model.name m) (Spec.modelNames s) -> Spec.absentFrom s m = true.
Proof.
  intros H. destruct (Spec.absentFrom s m) eqn:E; [reflexivity |].
  apply absentFrom_false in E. contradiction.
Qed.

(** X4.  With unique model names and no name in common, a rename for
    one, the diff is a [CREATE_MODEL] for every model of [new], in the
    order of [new], then a [DELETE_MODEL] for every model of [old], in
    the order of [old], and no field-level change. *)
Theorem compareSchemas_disjoint_names (old new : ParsedSchema.t) :
  NoDup (Spec.modelNames old) -> NoDup (Spec.modelNames new) ->
  (forall n, In n (Spec.modelNames old) -> ~ In n (Spec.modelNames new)) ->
  SchemaComparer.compareSchemas old new
  = map Spec.createModel (ParsedSchema.models new)
    ++ map Spec.deleteModel (ParsedSchema.models old).
Proof.
  intros Ho Hn Hdis. unfold SchemaComparer.compareSchemas.
  rewrite (createdModels_order old new Hn), (deletedModels_order old new Ho),
    (modifiedModels_order old new Ho).
  rewrite !filter_all, flat_map_nil, app_nil_r; try reflexivity.
  - intros mo Hmo.
    destruct (SchemaComparer.findModel (Model.name mo) (ParsedSchema.models new))
      as [mn |] eqn:En; [| reflexivity].
    destruct (findBy_Some Model.name _ _ mn En) as [Hin Hname].
    exfalso. apply (Hdis (Model.name mo)).
    + unfold Spec.modelNames. now apply in_map.
    + rewrite <- Hname. unfold Spec.modelNames. now apply in_map.
  - intros mo Hmo. apply absentFrom_true, Hdis. unfold Spec.modelNames. now apply in_map.
  - intros mn Hmn. apply absentFrom_true. intros Hin.
    apply (Hdis _ Hin). unfold Spec.modelNames. now apply in_map.
Qed.

Lemma compareSchemas_disjoint_names_witness :
  NoDup (Spec.modelNames Scenario.oldSchema)
  /\ NoDup (Spec.modelNames Scenario.renamedSchema)
  /\ SchemaComparer.compareSchemas Scenario.oldSchema Scenario.renamedSchema
     = [ Spec.createModel (Model.mk "Account"
                             [Scenario.id_; Scenario.email; Scenario.name_]);
         Spec.deleteModel Scenario.oldUser ].
Proof.
  assert (H1 : NoDup (Spec.modelNames Scenario.oldSchema))
    by (repeat constructor; simpl; tauto).
  assert (H2 : NoDup (Spec.modelNames Scenario.renamedSchema))
    by (repeat constructor; simpl; tauto).
  split; [exact H1 |]. split; [exact H2 |].
  apply (compareSchemas_disjoint_names Scenario.oldSchema Scenario.renamedSchema H1 H2).
  simpl. intros n [<- | []] [H | []]. discriminate.
Defined.

(** X5.  [arraysEqual] is an equivalence on arrays of strings that
    ignores the order and counts repetitions: it holds exactly between
    rearrangements, so never between arrays of different lengths. *)
Theorem arraysEqual_equivalence :
  (forall a, SchemaComparer.arraysEqual a a = true)
  /\ (forall a b, SchemaComparer.arraysEqual a b = SchemaComparer.arraysEqual b a)
  /\ (forall a b c,
        SchemaComparer.arraysEqual a b = true -> SchemaComparer.arraysEqual b c = true ->
        SchemaComparer.arraysEqual a c = true)
  /\ (forall a b, SchemaComparer.arraysEqual a b = true <-> Permutation a b)
  /\ (forall a b, length a <> length b -> SchemaComparer.arraysEqual a b = false).
Proof.
  split; [exact arraysEqual_refl |]. split; [| split; [| split]].
  - intros a b.
    destruct (SchemaComparer.arraysEqual a b) eqn:E1,
             (SchemaComparer.arraysEqual b a) eqn:E2; try reflexivity.
    + apply arraysEqual_Permutation, Permutation_sym, arraysEqual_Permutation in E1.
      congruence.
    + apply arraysEqual_Permutation, Permutation_sym, arraysEqual_Permutation in E2.
      congruence.
  - intros a b c H1 H2. apply arraysEqual_Permutation.
    apply arraysEqual_Permutation in H1, H2. eapply Permutation_trans; eassumption.
  - exact arraysEqual_Permutation.
  - intros a b Hlen. destruct (SchemaComparer.arraysEqual a b) eqn:E; [| reflexivity].
    apply arraysEqual_Permutation, Permutation_length in E. contradiction.
Qed.

End DifferKinds.

(** * Further properties of the parser *)

Section ParserShapes.

Lemma everyChar_app (p : ascii -> bool) (a b : string) :
  Spec.everyChar p (a ++ b) = Spec.everyChar p a && Spec.everyChar p b.
Proof.
  induction a as [| c a IH]; simpl; [reflexivity |]. now rewrite IH, andb_assoc.
Qed.

Lemma everyChar_snoc (p : ascii -> bool) (s : string) (c : ascii) :
  Spec.everyChar p (Js.snoc s c) = Spec.everyChar p s && p c.
Proof. unfold Js.snoc. rewrite everyChar_app. simpl. now rewrite andb_true_r. Qed.

Lemma everyChar_drop (p : ascii -> bool) (n : nat) (s : string) :
  Spec.everyChar p s = true -> Spec.everyChar p (Js.drop n s) = true.
Proof.
  revert s. induction n as [| n IH]; intros [| c s] H; simpl in *; try assumption.
  apply andb_prop in H. now apply IH.
Qed.

Lemma everyChar_trimStart (p : ascii -> bool) (s : string) :
  Spec.everyChar p s = true -> Spec.everyChar p (Js.trimStart s) = true.
Proof.
  induction s as [| c s IH]; simpl; intros H; [reflexivity |].
  destruct (Js.isWhite c); [| exact H]. apply andb_prop in H. now apply IH.
Qed.

Lemma everyChar_trimEnd (p : ascii -> bool) (s : string) :
  Spec.everyChar p s = true -> Spec.everyChar p (Js.trimEnd s) = true.
Proof.
  induction s as [| c s IH]; simpl; intros H; [reflexivity |].
  apply andb_prop in H. destruct H as [Hc Hs].
  destruct (Js.isWhite c && String.eqb (Js.trimEnd s) EmptyString); [reflexivity |].
  simpl. now rewrite Hc, IH.
Qed.

Lemma replaceFirst_cons (pat r : string) (c : ascii) (s : string) :
  Js.replaceFirst pat r (String c s)
  = if String.prefix pat (String c s)
    then (r ++ Js.drop (String.length pat) (String c s))%string
    else String c (Js.replaceFirst pat r s).
Proof. reflexivity. Qed.

Lemma everyChar_replaceFirst (p : ascii -> bool) (pat s : string) :
  Spec.everyChar p s = true ->
  Spec.everyChar p (Js.replaceFirst pat EmptyString s) = true.
Proof.
  induction s as [| c s IH]; intros H.
  - destruct pat; reflexivity.
  - rewrite replaceFirst_cons. destruct (String.prefix pat (String c s)).
    + change (EmptyString ++ Js.drop (String.length pat) (String c s))%string
        with (Js.drop (String.length pat) (String c s)).
      now apply everyChar_drop.
    + simpl in *. apply andb_prop in H. destruct H as [Hc Hs]. now rewrite Hc, IH.
Qed.

Lemma span_every (p : ascii -> bool) (s : string) :
  Spec.everyChar p (fst (Js.span p s)) = true.
Proof.
  induction s as [| c s IH]; simpl; [reflexivity |].
  destruct (p c) eqn:E; [| reflexivity].
  destruct (Js.span p s) as [a b]. simpl in *. now rewrite E.
Qed.

Lemma length_zero_empty (s : string) : (String.length s =? 0) = false -> s <> EmptyString.
Proof. intros H ->. discriminate. Qed.

(** A match of [modelRegex] captures a name of word characters and a
    content without closing brace. *)
Lemma matchModelAt_shape (s modelName modelContent : string) (len : nat) :
  SchemaParser.matchModelAt s = Some (modelName, modelContent, len) ->
  modelName <> EmptyString
  /\ Spec.everyChar Js.isWord modelName = true
  /\ Spec.everyChar Spec.notClose modelContent = true.
Proof.
  unfold SchemaParser.matchModelAt.
  destruct (negb (String.prefix "model" s)); [discriminate |].
  destruct (Js.span Js.isWhite (Js.drop 5 s)) as [ws1 r1].
  destruct (String.length ws1 =? 0); [discriminate |].
  pose proof (span_every Js.isWord r1) as Hname.
  destruct (Js.span Js.isWord r1) as [n r2].
  destruct (String.length n =? 0) eqn:En; [discriminate |].
  destruct (Js.span Js.isWhite r2) as [ws2 r3].
  destruct (String.length ws2 =? 0); [discriminate |].
  destruct r3 as [| c r4]; [discriminate |].
  destruct (negb (Ascii.eqb c SchemaParser.brace_open)); [discriminate |].
  pose proof (span_every (fun c => negb (Ascii.eqb c SchemaParser.brace_close)) r4)
    as Hcontent.
  destruct (Js.span (fun c => negb (Ascii.eqb c SchemaParser.brace_close)) r4) as [mc r5].
  destruct r5; [discriminate |].
  intros H. injection H as <- <- _. simpl in *.
  split; [now apply length_zero_empty | split; assumption].
Qed.

Lemma execAll_shape (s : string) (skip : nat) :
  Forall (fun b => fst b <> EmptyString
                   /\ Spec.everyChar Js.isWord (fst b) = true
                   /\ Spec.everyChar Spec.notClose (snd b) = true)
    (SchemaParser.execAll skip s).
Proof.
  revert skip. induction s as [| c s IH]; intros skip; simpl; [constructor |].
  destruct skip as [| k]; [| apply IH].
  destruct (SchemaParser.matchModelAt (String c s)) as [[[n mc] len] |] eqn:E;
    [| apply IH].
  constructor; [| apply IH]. exact (matchModelAt_shape _ _ _ _ E).
Qed.

(** X6.  Whatever the text, every model that the parser returns has a
    name made of word characters (letters, digits, underscore), at
    least one. *)
Theorem parseSchema_model_names_are_words (text : string) :
  Forall Spec.modelShape (ParsedSchema.models (SchemaParser.parseSchema text)).
Proof.
  unfold SchemaParser.parseSchema. simpl. apply Forall_map.
  eapply Forall_impl; [| apply execAll_shape].
  intros [n mc] (H1 & H2 & _). split; assumption.
Qed.

Lemma append_snoc (s t : string) (c : ascii) :
  (Js.snoc s c ++ t)%string = (s ++ String c t)%string.
Proof. unfold Js.snoc. induction s as [| d s IH]; simpl; [reflexivity | now rewrite IH]. Qed.

Lemma splitWhite_aux_head (s cur : string) :
  exists t rest, Js.splitWhite_aux cur false s = (cur ++ t)%string :: rest.
Proof.
  revert cur. induction s as [| c s IH]; intros cur; simpl.
  - exists EmptyString, []. f_equal. induction cur; simpl; congruence.
  - destruct (Js.isWhite c).
    + exists EmptyString. eexists. f_equal. induction cur; simpl; congruence.
    + destruct (IH (Js.snoc cur c)) as (t & rest & E). rewrite E.
      exists (String c t), rest. now rewrite append_snoc.
Qed.

Lemma splitWhite_aux_pieces (s cur : string) (inRun : bool) :
  Spec.everyChar Spec.notWhite cur = true ->
  Forall (fun piece => Spec.everyChar Spec.notWhite piece = true)
    (Js.splitWhite_aux cur inRun s).
Proof.
  revert cur inRun. induction s as [| c s IH]; intros cur inRun Hcur; simpl.
  - now constructor.
  - destruct (Js.isWhite c) eqn:Ec.
    + destruct inRun; [now apply IH | constructor; [assumption | now apply IH]].
    + apply IH. rewrite everyChar_snoc, Hcur. unfold Spec.notWhite. now rewrite Ec.
Qed.

Lemma trimStart_head (s : string) :
  match Js.trimStart s with
  | EmptyString => True
  | String c _ => Js.isWhite c = false
  end.
Proof.
  induction s as [| c s IH]; simpl; [exact I |].
  destruct (Js.isWhite c) eqn:E; [exact IH | exact E].
Qed.

Lemma trimEnd_head (c : ascii) (r : string) :
  Js.isWhite c = false -> Js.trimEnd (String c r) = String c (Js.trimEnd r).
Proof. intros H. simpl. now rewrite H. Qed.

Lemma trim_head (s : string) :
  match Js.trim s with
  | EmptyString => True
  | String c _ => Js.isWhite c = false
  end.
Proof.
  unfold Js.trim. pose proof (trimStart_head s) as H.
  destruct (Js.trimStart s) as [| c r]; [exact I |].
  now rewrite (trimEnd_head c r H).
Qed.

(** The first piece of a trimmed line is not empty. *)
Lemma splitWhite_trim_first (line : string) :
  Js.trim line <> EmptyString ->
  exists piece rest, Js.splitWhite (Js.trim line) = piece :: rest /\ piece <> EmptyString.
Proof.
  intros Hne. pose proof (trim_head line) as H.
  destruct (Js.trim line) as [| c r]; [contradiction |].
  unfold Js.splitWhite. simpl. rewrite H.
  destruct (splitWhite_aux_head r (Js.snoc EmptyString c)) as (t & rest & E).
  rewrite E. eexists. eexists. split; [reflexivity |]. discriminate.
Qed.

Lemma emitAttr_shape (cur : option string) :
  match cur with
  | Some m => Spec.attrShape m = true
  | None => True
  end ->
  Forall (fun a => Spec.attrShape a = true) (Js.emitAttr cur).
Proof.
  destruct cur as [m |]; intros H; [| constructor].
  unfold Js.emitAttr. destruct (2 <=? String.length m); repeat constructor. exact H.
Qed.

Lemma attrShape_snoc (m : string) (c : ascii) :
  Spec.attrShape m = true -> Ascii.eqb c Js.at_sign = false ->
  Spec.attrShape (Js.snoc m c) = true.
Proof.
  destruct m as [| d body]; simpl; [discriminate |].
  intros H Hc. apply andb_prop in H. destruct H as [Hd Hb].
  fold (Js.snoc body c). rewrite Hd, everyChar_snoc, Hb. unfold Spec.notAt.
  now rewrite Hc.
Qed.

Lemma matchAttrs_aux_shape (s : string) (cur : option string) :
  match cur with
  | Some m => Spec.attrShape m = true
  | None => True
  end ->
  Forall (fun a => Spec.attrShape a = true) (Js.matchAttrs_aux cur s).
Proof.
  revert cur. induction s as [| c s IH]; intros cur Hcur; simpl.
  - now apply emitAttr_shape.
  - destruct (Ascii.eqb c Js.at_sign) eqn:Ec.
    + apply Forall_app. split; [now apply emitAttr_shape |]. apply IH. reflexivity.
    + destruct cur as [m |]; apply IH; [| exact I]. now apply attrShape_snoc.
Qed.

Lemma attrShape_trim (a : string) : Spec.attrShape a = true -> Spec.attrShape (Js.trim a) = true.
Proof.
  destruct a as [| c body]; [discriminate |]. simpl. intros H.
  apply andb_prop in H. destruct H as [Hc Hb].
  apply Ascii.eqb_eq in Hc. subst c. unfold Js.trim.
  change (Js.trimStart (String Js.at_sign body)) with (String Js.at_sign body).
  rewrite trimEnd_head by reflexivity. simpl.
  now apply everyChar_trimEnd.
Qed.

Lemma parseFieldLine_shape (line : string) (f : ModelField.t) :
  SchemaParser.parseFieldLine line = Some f -> Spec.fieldShape f.
Proof.
  unfold SchemaParser.parseFieldLine. cbv zeta.
  destruct (String.eqb (Js.trim line) EmptyString) eqn:Ee; [discriminate |]. simpl.
  destruct (Js.startsWith "//" (Js.trim line)); [discriminate |].
  apply String.eqb_neq in Ee.
  destruct (splitWhite_trim_first line Ee) as (piece & rest & Es & Hpiece).
  pose proof (splitWhite_aux_pieces (Js.trim line) EmptyString false eq_refl) as Hp.
  fold (Js.splitWhite (Js.trim line)) in Hp. rewrite Es in *.
  destruct rest as [| fieldType rest]; [discriminate |].
  intros H. injection H as <-. unfold Spec.fieldShape. simpl.
  inversion Hp as [| ? ? Hname Hp']; subst. inversion Hp' as [| ? ? Htype _]; subst.
  repeat split; try assumption.
  - now apply everyChar_replaceFirst.
  - destruct (Js.endsWith "[]" fieldType); auto.
  - apply Forall_map. eapply Forall_impl; [| apply (matchAttrs_aux_shape _ None I)].
    intros a. apply attrShape_trim.
Qed.

Lemma filterMap_Forall {A B : Type} (f : A -> option B) (P : B -> Prop) (l : list A) :
  (forall x y, f x = Some y -> P y) -> Forall P (SchemaParser.filterMap f l).
Proof.
  intros H. induction l as [| a l IH]; simpl; [constructor |].
  destruct (f a) as [y |] eqn:E; [constructor; [exact (H a y E) | exact IH] | exact IH].
Qed.

(** X7.  Whatever the text, every field that the parser returns has a
    name that is not empty and holds no white space, a type without
    white space, no modifier or the one modifier [array], and
    attributes that each begin with [@] and hold no other [@]. *)
Theorem parseSchema_fields_shape (text : string) :
  Forall (fun m => Forall Spec.fieldShape (Model.fields m))
    (ParsedSchema.models (SchemaParser.parseSchema text)).
Proof.
  unfold SchemaParser.parseSchema. simpl. apply Forall_map, Forall_forall.
  intros [n mc] _. simpl. apply filterMap_Forall. exact parseFieldLine_shape.
Qed.

Lemma includes_tail (p : string) (c : ascii) (s : string) :
  Js.includes p (String c s) = false -> Js.includes p s = false.
Proof.
  intros H. change (Js.includes p (String c s))
    with (String.prefix p (String c s) || Js.includes p s) in H.
  now apply orb_false_elim in H.
Qed.

Lemma includes_head (p s : string) : Js.includes p s = false -> String.prefix p s = false.
Proof.
  destruct s as [| c s]; simpl; intros H; now apply orb_false_elim in H.
Qed.

Lemma execAll_without_keyword (s : string) (skip : nat) :
  Js.includes "model" s = false -> SchemaParser.execAll skip s = [].
Proof.
  revert skip. induction s as [| c s IH]; intros skip H; [reflexivity |].
  pose proof (includes_tail _ _ _ H) as Ht.
  change (SchemaParser.execAll skip (String c s))
    with (match skip with
          | S k => SchemaParser.execAll k s
          | O => match SchemaParser.matchModelAt (String c s) with
                 | Some (modelName, modelContent, len) =>
                     (modelName, modelContent) :: SchemaParser.execAll (len - 1) s
                 | None => SchemaParser.execAll 0 s
                 end
          end).
  destruct skip as [| k]; [| now apply IH].
  unfold SchemaParser.matchModelAt. rewrite (includes_head _ _ H). simpl. now apply IH.
Qed.

(** X8.  A text in which the word [model] does not occur, the empty
    text for one, parses to a schema without models. *)
Theorem parseSchema_without_keyword (text : string) :
  Js.includes "model" text = false ->
  SchemaParser.parseSchema text = ParsedSchema.mk [] [] [] [].
Proof.
  intros H. unfold SchemaParser.parseSchema. now rewrite execAll_without_keyword.
Qed.

Lemma parseSchema_without_keyword_witness :
  Js.includes "model" "generator client { provider = 1 }" = false
  /\ SchemaParser.parseSchema "generator client { provider = 1 }"
     = ParsedSchema.mk [] [] [] [].
Proof.
  split; [reflexivity |]. apply parseSchema_without_keyword. reflexivity.
Defined.

End ParserShapes.

(** * Further properties of the generator *)

Section GeneratorScripts.
Import ChangeType.

Lemma processChanges_flat (cs : list SchemaChange.t) (u0 d0 ups downs : list string) :
  MigrationGenerator.processChanges cs u0 d0 = Ok (ups, downs) ->
  ups = u0 ++ flat_map Spec.upOf cs /\ downs = d0 ++ flat_map Spec.downOf cs.
Proof.
  revert u0 d0. induction cs as [| c cs IH]; intros u0 d0; simpl.
  - intros H. injection H as <- <-. now rewrite !app_nil_r.
  - unfold Spec.upOf at 1, Spec.downOf at 1.
    destruct (MigrationGenerator.statementsOf c) as [[us ds] | e]; simpl; [| discriminate].
    intros H. apply IH in H. destruct H as [-> ->]. now rewrite <- !app_assoc.
Qed.

Lemma statements_count (c : SchemaChange.t) (us ds : list string) :
  MigrationGenerator.statementsOf c = Ok (us, ds) ->
  length us = (if Spec.handled c then 1 else 0)
  /\ length ds = (if Spec.handled c then 1 else 0).
Proof.
  unfold MigrationGenerator.statementsOf, Spec.handled.
  destruct (SchemaChange.type c); simpl.
  - destruct (MigrationGenerator.generateCreateTableSql c) as [[u d] | e]; simpl;
      [| discriminate]. intros H. injection H as <- <-. auto.
  - destruct (MigrationGenerator.generateDropTableSql c) as [u d].
    intros H. injection H as <- <-. auto.
  - intros H. injection H as <- <-. auto.
  - destruct (MigrationGenerator.generateAddColumnSql c) as [[u d] | e]; simpl;
      [| discriminate]. intros H. injection H as <- <-. auto.
  - destruct (MigrationGenerator.generateDropColumnSql c) as [u d].
    intros H. injection H as <- <-. auto.
  - destruct (MigrationGenerator.generateAlterColumnSql c) as [[u d] | e]; simpl;
      [| discriminate]. intros H. injection H as <- <-. auto.
Qed.

Lemma processChanges_count (cs : list SchemaChange.t) (u0 d0 ups downs : list string) :
  MigrationGenerator.processChanges cs u0 d0 = Ok (ups, downs) ->
  length ups = length u0 + length (filter Spec.handled cs)
  /\ length downs = length d0 + length (filter Spec.handled cs).
Proof.
  revert u0 d0. induction cs as [| c cs IH]; intros u0 d0; simpl.
  - intros H. injection H as <- <-. lia.
  - destruct (MigrationGenerator.statementsOf c) as [[us ds] | e] eqn:E; simpl;
      [| discriminate].
    destruct (statements_count c us ds E) as [Hu Hd].
    intros H. apply IH in H. rewrite !length_app in H.
    destruct (Spec.handled c); simpl; lia.
Qed.

(** X9.  The scripts of a generated migration hold the statements of
    the changes in the order of the changes, joined by blank lines: one
    statement in [up] and one in [down] for every change of a kind that
    the [switch] handles. *)
Theorem generateMigration_scripts_follow_changes
  (changes : list SchemaChange.t) (migrationName : option string) (now : string)
  (root root' : Fs.dir) (m : Migration.t) :
  MigrationGenerator.generateMigration changes migrationName now root
  = (Ok (Some m), root') ->
  Migration.upSql m = Js.join Spec.scriptSeparator (flat_map Spec.upOf changes)
  /\ Migration.downSql m = Js.join Spec.scriptSeparator (flat_map Spec.downOf changes)
  /\ length (flat_map Spec.upOf changes) = length (filter Spec.handled changes)
  /\ length (flat_map Spec.downOf changes) = length (filter Spec.handled changes).
Proof.
  intros H. apply generateMigration_some in H. destruct H as (ups & downs & Hp & ->).
  destruct (processChanges_flat _ _ _ _ _ Hp) as [Hu Hd].
  destruct (processChanges_count _ _ _ _ _ Hp) as [Hcu Hcd].
  simpl in Hu, Hd, Hcu, Hcd. subst ups downs. simpl. auto.
Qed.

Lemma generateMigration_scripts_follow_changes_witness :
  exists m root',
    MigrationGenerator.generateMigration Scenario.changes None Scenario.now1 []
    = (Ok (Some m), root')
    /\ Migration.upSql m
       = Js.join Spec.scriptSeparator (flat_map Spec.upOf Scenario.changes)
    /\ length (flat_map Spec.upOf Scenario.changes) = 2.
Proof.
  eexists. eexists.
  assert (H : MigrationGenerator.generateMigration Scenario.changes None Scenario.now1 []
              = (Ok (Some (Spec.migrationOf None Scenario.now1
                             (flat_map Spec.upOf Scenario.changes)
                             (flat_map Spec.downOf Scenario.changes))),
                 snd (MigrationGenerator.generateMigration Scenario.changes None
                        Scenario.now1 [])))
    by (vm_compute; reflexivity).
  split; [exact H |].
  destruct (generateMigration_scripts_follow_changes _ _ _ _ _ _ H) as (Hu & _ & Hc & _).
  split; [exact Hu | exact Hc].
Defined.

End GeneratorScripts.

Section GeneratorFailures.
Import ChangeType.

Lemma statementsOf_missing (c : SchemaChange.t) :
  Spec.missingPayload c = true -> MigrationGenerator.statementsOf c = Throw "TypeError".
Proof.
  destruct c as [k m f ov nv].
  unfold Spec.missingPayload, MigrationGenerator.statementsOf,
    MigrationGenerator.generateCreateTableSql, MigrationGenerator.generateAddColumnSql,
    MigrationGenerator.generateAlterColumnSql. simpl.
  destruct k; try discriminate;
    destruct ov as [[? | ?] |]; destruct nv as [[? | ?] |]; simpl;
    try discriminate; reflexivity.
Qed.

Lemma statementsOf_present (c : SchemaChange.t) :
  Spec.missingPayload c = false ->
  exists us ds, MigrationGenerator.statementsOf c = Ok (us, ds).
Proof.
  destruct c as [k m f ov nv].
  unfold Spec.missingPayload, MigrationGenerator.statementsOf,
    MigrationGenerator.generateCreateTableSql, MigrationGenerator.generateAddColumnSql,
    MigrationGenerator.generateAlterColumnSql. simpl.
  destruct k; destruct ov as [[? | ?] |]; destruct nv as [[? | ?] |]; simpl;
    try discriminate; intros _; eauto.
Qed.

Lemma processChanges_missing (cs : list SchemaChange.t) (u0 d0 : list string) :
  existsb Spec.missingPayload cs = true ->
  MigrationGenerator.processChanges cs u0 d0 = Throw "TypeError".
Proof.
  revert u0 d0. induction cs as [| c cs IH]; intros u0 d0; simpl; [discriminate |].
  destruct (Spec.missingPayload c) eqn:E; simpl.
  - intros _. now rewrite (statementsOf_missing c E).
  - intros H. destruct (statementsOf_present c E) as (us & ds & Es). rewrite Es. simpl.
    now apply IH.
Qed.

Lemma processChanges_present (cs : list SchemaChange.t) (u0 d0 : list string) :
  existsb Spec.missingPayload cs = false ->
  exists ups downs, MigrationGenerator.processChanges cs u0 d0 = Ok (ups, downs).
Proof.
  revert u0 d0. induction cs as [| c cs IH]; intros u0 d0; simpl; [eauto |].
  intros H. apply orb_false_elim in H. destruct H as [Hc Hcs].
  destruct (statementsOf_present c Hc) as (us & ds & Es). rewrite Es. simpl.
  now apply IH.
Qed.

(** X10.  [generateMigration] throws a [TypeError] exactly when one of
    the changes lacks the payload that its generator reads, and then
    nothing has been written: the migrations directory is as it was. *)
Theorem generateMigration_type_error
  (changes : list SchemaChange.t) (migrationName : option string) (now : string)
  (root : Fs.dir) :
  (existsb Spec.missingPayload changes = true
   <-> exists root',
         MigrationGenerator.generateMigration changes migrationName now root
         = (Throw "TypeError", root'))
  /\ (forall root',
        MigrationGenerator.generateMigration changes migrationName now root
        = (Throw "TypeError", root') -> root' = root).
Proof.
  assert (Hmiss : existsb Spec.missingPayload changes = true ->
                  MigrationGenerator.generateMigration changes migrationName now root
                  = (Throw "TypeError", root)).
  { intros H. destruct changes as [| c cs]; [discriminate |].
    rewrite generateMigration_unfold. now rewrite (processChanges_missing _ [] [] H). }
  assert (Hpres : existsb Spec.missingPayload changes = false ->
                  forall root',
                    MigrationGenerator.generateMigration changes migrationName now root
                    <> (Throw "TypeError", root')).
  { intros H root' Hg. destruct changes as [| c cs]; [discriminate |].
    rewrite generateMigration_unfold in Hg.
    destruct (processChanges_present _ [] [] H) as (ups & downs & Ep). rewrite Ep in Hg.
    destruct (MigrationGenerator.saveMigrationFiles _ root) as [[u | e] r] eqn:Es;
      [discriminate |].
    injection Hg as -> _. exact (saveMigrationFiles_throws _ _ _ _ Es eq_refl). }
  split; [split |].
  - intros H. exists root. now apply Hmiss.
  - intros [root' Hg].
    destruct (existsb Spec.missingPayload changes) eqn:E; [reflexivity |].
    destruct (Hpres eq_refl root' Hg).
  - intros root' Hg.
    destruct (existsb Spec.missingPayload changes) eqn:E.
    + rewrite (Hmiss eq_refl) in Hg. now injection Hg as <-.
    + destruct (Hpres eq_refl root' Hg).
Qed.

Lemma generateMigration_stored
  (changes : list SchemaChange.t) (migrationName : option string) (now : string)
  (root root' : Fs.dir) (m : Migration.t) :
  MigrationGenerator.generateMigration changes migrationName now root
  = (Ok (Some m), root') ->
  Spec.writable (Migration.id m) root = true /\ root' = Spec.saved m root.
Proof.
  intros H.
  assert (Hw : Spec.writable (Migration.id m) root = true).
  { destruct (Spec.writable (Migration.id m) root) eqn:E; [reflexivity |].
    destruct (saveMigrationFiles_unwritable m root E) as (e & d' & Es).
    pose proof H as H'. apply generateMigration_some in H'.
    destruct H' as (ups & downs & Hp & ->).
    destruct changes as [| c cs]; [discriminate |].
    rewrite generateMigration_unfold, Hp, Es in H. discriminate. }
  pose proof H as H'. apply generateMigration_some in H'.
  destruct H' as (ups & downs & Hp & Hm).
  assert (Hne : changes <> []) by (intros ->; discriminate).
  subst m. rewrite (generateMigration_ok _ _ _ _ _ _ Hne Hp Hw) in H.
  injection H as <-. split; [exact Hw | reflexivity].
Qed.

(** X11.  A migration that [generateMigration] returns is on disk: the
    place was writable; for an id whose directory lies in the
    migrations directory, the migrations directory is the one before
    with the three files put into the directory that [path.join] names
    for the id, nested where the id holds a slash, and that directory
    holds [migration.json], [up.sql] and [down.sql] with the texts of
    the migration.  For an id of one component this is the entry of
    that name in the migrations directory, replaced or added. *)
Theorem generateMigration_returns_durable
  (changes : list SchemaChange.t) (migrationName : option string) (now : string)
  (root root' : Fs.dir) (m : Migration.t) :
  MigrationGenerator.generateMigration changes migrationName now root
  = (Ok (Some m), root') ->
  Spec.writable (Migration.id m) root = true
  /\ (forall path,
        Fs.join (Migration.id m) = Some path ->
        root' = Spec.putDir path (Spec.storedOver m (Spec.entriesAt path root)) root
        /\ Fs.readFile "migration.json" (Spec.entriesAt path root')
           = Ok (Spec.metadataText m)
        /\ Fs.readFile "up.sql" (Spec.entriesAt path root') = Ok (Migration.upSql m)
        /\ Fs.readFile "down.sql" (Spec.entriesAt path root') = Ok (Migration.downSql m))
  /\ (Spec.oneComponent (Migration.id m) ->
      root' = Fs.set (Migration.id m)
                (Fs.Dir (Spec.storedOver m (Spec.entriesOf (Migration.id m) root))) root).
Proof.
  intros H. destruct (generateMigration_stored _ _ _ _ _ _ H) as [Hw ->].
  split; [exact Hw |]. split.
  - intros path Hj. split; [unfold Spec.saved; now rewrite Hj | now apply saved_reads].
  - apply saved_oneComponent.
Qed.

Lemma generateMigration_returns_durable_witness :
  exists m root',
    MigrationGenerator.generateMigration Scenario.changes (Some "a/b") Scenario.now1 []
    = (Ok (Some m), root')
    /\ Fs.join (Migration.id m) = Some ["20250504123456_a"; "b"]
    /\ Fs.readFile "up.sql" (Spec.entriesAt ["20250504123456_a"; "b"] root')
       = Ok Scenario.upSql.
Proof.
  eexists. eexists.
  assert (H : MigrationGenerator.generateMigration Scenario.changes (Some "a/b")
                Scenario.now1 []
              = (Ok (Some (Spec.migrationOf (Some "a/b") Scenario.now1
                             (flat_map Spec.upOf Scenario.changes)
                             (flat_map Spec.downOf Scenario.changes))),
                 snd (MigrationGenerator.generateMigration Scenario.changes
                        (Some "a/b") Scenario.now1 [])))
    by (vm_compute; reflexivity).
  split; [exact H |]. split; [reflexivity |].
  exact (proj1 (proj2 (proj2 (proj1 (proj2
           (generateMigration_returns_durable _ _ _ _ _ _ H)) _ eq_refl)))).
Defined.

(** X12.  Where the place is not writable (the id names a file, or one
    of the three file names is a directory there) [generateMigration]
    throws and returns no migration. *)
Theorem generateMigration_unwritable_throws
  (changes : list SchemaChange.t) (migrationName : option string) (now : string)
  (root : Fs.dir) (ups downs : list string) :
  changes <> [] ->
  MigrationGenerator.processChanges changes [] [] = Ok (ups, downs) ->
  Spec.writable (Migration.id (Spec.migrationOf migrationName now ups downs)) root = false ->
  exists e root',
    MigrationGenerator.generateMigration changes migrationName now root = (Throw e, root').
Proof.
  intros Hne Hp Hw. destruct changes as [| c cs]; [contradiction |].
  rewrite generateMigration_unfold, Hp.
  destruct (saveMigrationFiles_unwritable _ root Hw) as (e & d' & Es). rewrite Es. eauto.
Qed.

Lemma generateMigration_unwritable_throws_witness :
  exists e root',
    MigrationGenerator.generateMigration Scenario.changes (Some "change") Scenario.now1
      [("20250504123456_change", Fs.File "taken")]
    = (Throw e, root').
Proof.
  refine (generateMigration_unwritable_throws Scenario.changes (Some "change")
            Scenario.now1 [("20250504123456_change", Fs.File "taken")] _ _ _ _ _).
  - discriminate.
  - exact scenario_processChanges.
  - reflexivity.
Defined.

End GeneratorFailures.

Section TimestampShape.

Lemma digitsOnly_digits (s : string) : Spec.everyChar Js.isDigit (Js.digitsOnly s) = true.
Proof.
  induction s as [| c s IH]; simpl; [reflexivity |].
  destruct (Js.isDigit c) eqn:E; [simpl; now rewrite E | exact IH].
Qed.

Lemma everyChar_take (p : ascii -> bool) (n : nat) (s : string) :
  Spec.everyChar p s = true -> Spec.everyChar p (Js.take n s) = true.
Proof.
  revert s. induction n as [| n IH]; intros [| c s] H; simpl in *; try reflexivity.
  apply andb_prop in H. destruct H as [Hc Hs]. now rewrite Hc, IH.
Qed.

Lemma length_take (n : nat) (s : string) :
  String.length (Js.take n s) = Nat.min n (String.length s).
Proof.
  revert s. induction n as [| n IH]; intros [| c s]; simpl; try reflexivity.
  now rewrite IH.
Qed.

Lemma length_digitsOnly (p s : string) :
  Spec.noDigit p = true -> Spec.matchesPattern p s = true ->
  String.length (Js.digitsOnly s) = Spec.countD p.
Proof.
  revert s. induction p as [| pc p IH]; intros [| c s] Hp Hm; simpl in *;
    try discriminate; [reflexivity |].
  apply andb_prop in Hp. destruct Hp as [Hpc Hp].
  apply andb_prop in Hm. destruct Hm as [Hc Hm].
  destruct (Ascii.eqb pc "d"%char).
  - rewrite Hc. simpl. now rewrite (IH s Hp Hm).
  - apply Ascii.eqb_eq in Hc. subst c. apply negb_true_iff in Hpc. rewrite Hpc.
    now apply IH.
Qed.

(** X13.  The timestamp holds digits only and at most 14 of them,
    whatever the clock text; for a text of the shape of [toISOString]
    it is 14 digits long, so timestamps have one width. *)
Theorem timestampOf_shape (now : string) :
  Spec.everyChar Js.isDigit (MigrationGenerator.timestampOf now) = true
  /\ String.length (MigrationGenerator.timestampOf now) <= 14
  /\ (Spec.isoFormat now = true -> String.length (MigrationGenerator.timestampOf now) = 14).
Proof.
  unfold MigrationGenerator.timestampOf. split; [| split].
  - apply everyChar_take, digitsOnly_digits.
  - rewrite length_take. apply Nat.le_min_l.
  - intros H. rewrite length_take.
    rewrite (length_digitsOnly Spec.isoPattern now eq_refl H). reflexivity.
Qed.

End TimestampShape.

Section ScriptsInclude.
Import ChangeType.

Lemma prefix_app (p s : string) : String.prefix p (p ++ s) = true.
Proof.
  induction p as [| c p IH]; simpl; [now destruct s |].
  destruct (ascii_dec c c); [exact IH | contradiction].
Qed.

Lemma prefix_app_r (p s b : string) :
  String.prefix p s = true -> String.prefix p (s ++ b) = true.
Proof.
  revert s. induction p as [| c p IH]; intros [| d s] H; simpl in *;
    try discriminate; try reflexivity.
  - now destruct b.
  - destruct (ascii_dec c d); [now apply IH | discriminate].
Qed.

Lemma includes_unfold (p s : string) :
  Js.includes p s
  = String.prefix p s || match s with
                         | EmptyString => false
                         | String _ s' => Js.includes p s'
                         end.
Proof. destruct s; reflexivity. Qed.

Lemma includes_refl (p : string) : Js.includes p p = true.
Proof.
  rewrite includes_unfold.
  replace (String.prefix p p) with true; [reflexivity |].
  symmetry. induction p as [| c p IH]; simpl; [reflexivity |].
  destruct (ascii_dec c c); [exact IH | contradiction].
Qed.

Lemma includes_app_l (p s b : string) :
  Js.includes p s = true -> Js.includes p (s ++ b) = true.
Proof.
  induction s as [| c s IH]; intros H.
  - rewrite includes_unfold in H. simpl in H. rewrite orb_false_r in H.
    rewrite includes_unfold. now rewrite (prefix_app_r p EmptyString b H).
  - rewrite includes_unfold in H. apply orb_prop in H.
    change (String c s ++ b)%string with (String c (s ++ b)).
    rewrite includes_unfold. destruct H as [H | H].
    + assert (Hpre : String.prefix p (String c (s ++ b)) = true)
        by exact (prefix_app_r p (String c s) b H).
      now rewrite Hpre.
    + rewrite (IH H). apply orb_true_r.
Qed.

Lemma includes_app_r (p a s : string) :
  Js.includes p s = true -> Js.includes p (a ++ s) = true.
Proof.
  intros H. induction a as [| c a IH]; [exact H |].
  change (String c a ++ s)%string with (String c (a ++ s)).
  rewrite includes_unfold, IH. apply orb_true_r.
Qed.

Lemma includes_join (p sep x : string) (xs : list string) :
  In x xs -> Js.includes p x = true -> Js.includes p (Js.join sep xs) = true.
Proof.
  unfold Js.join. intros Hin Hp. induction xs as [| y xs IH]; [contradiction |].
  destruct xs as [| z xs].
  - destruct Hin as [-> | []]. exact Hp.
  - change (String.concat sep (y :: z :: xs))
      with (y ++ sep ++ String.concat sep (z :: xs))%string.
    destruct Hin as [-> | Hin].
    + now apply includes_app_l.
    + apply includes_app_r, includes_app_r. now apply IH.
Qed.

(** X14.  Every statement of every change is part of the script of a
    generated migration; so for a [CREATE_MODEL] change the [up] script
    holds [CREATE TABLE] for the lower-cased model name and the [down]
    script holds the matching [DROP TABLE IF EXISTS]. *)
Theorem generateMigration_scripts_include_statements
  (changes : list SchemaChange.t) (migrationName : option string) (now : string)
  (root root' : Fs.dir) (m : Migration.t) :
  MigrationGenerator.generateMigration changes migrationName now root
  = (Ok (Some m), root') ->
  (forall c u, In c changes -> In u (Spec.upOf c) ->
               Js.includes u (Migration.upSql m) = true)
  /\ (forall c d, In c changes -> In d (Spec.downOf c) ->
                  Js.includes d (Migration.downSql m) = true)
  /\ (forall c model,
        In c changes -> SchemaChange.type c = CREATE_MODEL ->
        SchemaChange.newValue c = Some (PModel model) ->
        Js.includes ("CREATE TABLE " ++ Js.toLowerCase (Model.name model) ++ " (")
          (Migration.upSql m) = true
        /\ Js.includes ("DROP TABLE IF EXISTS " ++ Js.toLowerCase (Model.name model) ++ ";")
             (Migration.downSql m) = true).
Proof.
  intros H. apply generateMigration_some in H. destruct H as (ups & downs & Hp & ->).
  destruct (processChanges_flat _ _ _ _ _ Hp) as [Hu Hd]. simpl in Hu, Hd. subst ups downs.
  simpl.
  assert (Hup : forall c u, In c changes -> In u (Spec.upOf c) ->
                  Js.includes u
                    (Js.join (MigrationGenerator.nl ++ MigrationGenerator.nl)
                       (flat_map Spec.upOf changes)) = true).
  { intros c u Hc Hin. apply (includes_join u _ u); [| apply includes_refl].
    apply in_flat_map. now exists c. }
  assert (Hdown : forall c d, In c changes -> In d (Spec.downOf c) ->
                    Js.includes d
                      (Js.join (MigrationGenerator.nl ++ MigrationGenerator.nl)
                         (flat_map Spec.downOf changes)) = true).
  { intros c d Hc Hin. apply (includes_join d _ d); [| apply includes_refl].
    apply in_flat_map. now exists c. }
  assert (Hpart : forall p u l, In u l -> Js.includes p u = true ->
                   Js.includes p
                     (Js.join (MigrationGenerator.nl ++ MigrationGenerator.nl) l) = true)
    by (intros p u l Hin Hi; exact (includes_join p _ u l Hin Hi)).
  split; [exact Hup |]. split; [exact Hdown |].
  intros c model Hc Ht Hv.
  assert (Es : MigrationGenerator.statementsOf c
               = Ok ([ ("CREATE TABLE " ++ Js.toLowerCase (Model.name model) ++ " ("
                        ++ MigrationGenerator.nl
                        ++ Js.join ("," ++ MigrationGenerator.nl)
                             (map MigrationGenerator.columnDefinition (Model.fields model))
                        ++ MigrationGenerator.nl ++ ");")%string ],
                     [ ("DROP TABLE IF EXISTS " ++ Js.toLowerCase (Model.name model)
                        ++ ";")%string ])).
  { unfold MigrationGenerator.statementsOf, MigrationGenerator.generateCreateTableSql.
    now rewrite Ht, Hv. }
  split.
  - set (rest := (MigrationGenerator.nl
                  ++ Js.join ("," ++ MigrationGenerator.nl)
                       (map MigrationGenerator.columnDefinition (Model.fields model))
                  ++ MigrationGenerator.nl ++ ");")%string) in Es.
    apply (Hpart _ (("CREATE TABLE " ++ Js.toLowerCase (Model.name model) ++ " (")
                    ++ rest)%string).
    + apply in_flat_map. exists c. split; [exact Hc |].
      unfold Spec.upOf. rewrite Es. left. now rewrite !append_assoc.
    + apply includes_app_l, includes_refl.
  - apply Hdown with (c := c); [exact Hc |]. unfold Spec.downOf. rewrite Es. now left.
Qed.

Lemma generateMigration_scripts_include_statements_witness :
  exists m root',
    MigrationGenerator.generateMigration Scenario.changes None Scenario.now1 []
    = (Ok (Some m), root')
    /\ Js.includes "CREATE TABLE post (" (Migration.upSql m) = true
    /\ Js.includes "DROP TABLE IF EXISTS post;" (Migration.downSql m) = true.
Proof.
  eexists. eexists.
  assert (H : MigrationGenerator.generateMigration Scenario.changes None Scenario.now1 []
              = (Ok (Some (Spec.migrationOf None Scenario.now1
                             (flat_map Spec.upOf Scenario.changes)
                             (flat_map Spec.downOf Scenario.changes))),
                 snd (MigrationGenerator.generateMigration Scenario.changes None
                        Scenario.now1 [])))
    by (vm_compute; reflexivity).
  split; [exact H |].
  exact (proj2 (proj2 (generateMigration_scripts_include_statements _ _ _ _ _ _ H))
           (Spec.createModel Scenario.post) Scenario.post
           (or_introl eq_refl) eq_refl eq_refl).
Defined.

End ScriptsInclude.

(** * The parser and the blocks of the text *)

Section ParserBlocks.

Lemma span_append (p : ascii -> bool) (a b : string) :
  Spec.everyChar p a = true ->
  match b with
  | EmptyString => True
  | String c _ => p c = false
  end ->
  Js.span p (a ++ b) = (a, b).
Proof.
  induction a as [| x a IH]; simpl; intros Ha Hb.
  - destruct b as [| c b]; [reflexivity |]. simpl. now rewrite Hb.
  - apply andb_prop in Ha. destruct Ha as [Hx Ha]. now rewrite Hx, IH.
Qed.

Lemma span_spec (p : ascii -> bool) (s a b : string) :
  Js.span p s = (a, b) ->
  s = (a ++ b)%string
  /\ Spec.everyChar p a = true
  /\ match b with
     | EmptyString => True
     | String c _ => p c = false
     end.
Proof.
  revert a b. induction s as [| c s IH]; simpl; intros a b H.
  - injection H as <- <-. auto.
  - destruct (p c) eqn:E.
    + destruct (Js.span p s) as [a' b'] eqn:Es. injection H as <- <-.
      destruct (IH a' b' eq_refl) as (-> & Ha & Hb). simpl. rewrite E. auto.
    + injection H as <- <-. simpl. auto.
Qed.

Lemma word_not_white (c : ascii) : Js.isWord c = true -> Js.isWhite c = false.
Proof. destruct c as [[] [] [] [] [] [] [] []]; vm_compute; intros; congruence. Qed.

Lemma prefix_drop (p s : string) :
  String.prefix p s = true -> s = (p ++ Js.drop (String.length p) s)%string.
Proof.
  revert s. induction p as [| c p IH]; intros s H; [reflexivity |].
  destruct s as [| d s]; simpl in H; [discriminate |].
  destruct (ascii_dec c d) as [<- |]; [| discriminate].
  simpl. now rewrite <- IH.
Qed.

Lemma drop_append (a b : string) : Js.drop (String.length a) (a ++ b) = b.
Proof. induction a as [| c a IH]; simpl; [now destruct b | exact IH]. Qed.

Lemma length_drop (n : nat) (s : string) :
  String.length (Js.drop n s) = String.length s - n.
Proof.
  revert s. induction n as [| n IH]; intros [| c s]; simpl; try reflexivity; try lia.
  apply IH.
Qed.

(** What [matchModelAt] finds is a model block at the start of the
    text, and [len] is its length. *)
Lemma matchModelAt_block (s name content : string) (len : nat) :
  SchemaParser.matchModelAt s = Some (name, content, len) ->
  exists rest,
    Spec.modelBlockAt s name content rest /\ 1 <= len /\ Js.drop len s = rest.
Proof.
  unfold SchemaParser.matchModelAt.
  destruct (String.prefix "model" s) eqn:Ep; [| discriminate].
  cbn [negb]. cbv iota.
  destruct (Js.span Js.isWhite (Js.drop 5 s)) as [ws1 r1] eqn:E1.
  destruct (String.length ws1 =? 0) eqn:L1; [discriminate |].
  destruct (Js.span Js.isWord r1) as [n r2] eqn:E2.
  destruct (String.length n =? 0) eqn:L2; [discriminate |].
  destruct (Js.span Js.isWhite r2) as [ws2 r3] eqn:E3.
  destruct (String.length ws2 =? 0) eqn:L3; [discriminate |].
  destruct r3 as [| c r4]; [discriminate |].
  destruct (Ascii.eqb c SchemaParser.brace_open) eqn:Ec; [| discriminate].
  cbn [negb]. cbv iota.
  destruct (Js.span (fun c => negb (Ascii.eqb c SchemaParser.brace_close)) r4)
    as [mc r5] eqn:E4.
  destruct r5 as [| c5 r6]; [discriminate |].
  intros H. injection H as Hn Hc Hl. subst name content.
  apply span_spec in E1, E2, E3, E4.
  destruct E1 as (E1 & W1 & _), E2 as (E2 & W2 & _), E3 as (E3 & W3 & _),
    E4 as (E4 & W4 & C5).
  apply Ascii.eqb_eq in Ec. subst c.
  apply negb_false_iff, Ascii.eqb_eq in C5. subst c5.
  apply prefix_drop in Ep. change (String.length "model") with 5 in Ep.
  assert (Hs : s = (("model" ++ ws1 ++ n ++ ws2 ++ "{" ++ mc ++ "}") ++ r6)%string).
  { rewrite Ep at 1. rewrite E1, E2, E3, E4. rewrite !append_assoc. reflexivity. }
  assert (Hlen : len = String.length ("model" ++ ws1 ++ n ++ ws2 ++ "{" ++ mc ++ "}")).
  { subst len. rewrite !length_append. simpl. lia. }
  exists r6. split; [| split].
  - exists ws1, ws2. split.
    + rewrite Hs. rewrite !append_assoc. reflexivity.
    + repeat split; try assumption; now apply length_zero_empty.
  - subst len. lia.
  - rewrite Hlen, Hs. apply drop_append.
Qed.

(** A model block at the start of the text is what [matchModelAt]
    finds. *)
Lemma block_matchModelAt (s name content rest : string) :
  Spec.modelBlockAt s name content rest ->
  exists len,
    SchemaParser.matchModelAt s = Some (name, content, len)
    /\ 1 <= len /\ Js.drop len s = rest.
Proof.
  intros (ws1 & ws2 & Hs & Hw1 & Hw1' & Hn & Hn' & Hw2 & Hw2' & Hc).
  assert (Hm : SchemaParser.matchModelAt s
               = Some (name, content,
                       5 + String.length ws1 + String.length name
                       + String.length ws2 + 1 + String.length content + 1)).
  { subst s. unfold SchemaParser.matchModelAt.
    rewrite prefix_app. cbn [negb]. cbv iota.
    change (Js.drop 5 ("model" ++ ws1 ++ name ++ ws2 ++ "{" ++ content ++ "}" ++ rest))
      with (ws1 ++ name ++ ws2 ++ "{" ++ content ++ "}" ++ rest)%string.
    rewrite (span_append Js.isWhite ws1 _ Hw1').
    2:{ destruct name as [| c name]; [contradiction |]. simpl in *.
        apply andb_prop in Hn'. now apply word_not_white. }
    destruct ws1 as [| w1 ws1]; [contradiction |]. cbn [String.length Nat.eqb].
    rewrite (span_append Js.isWord name _ Hn').
    2:{ destruct ws2 as [| w2 ws2]; [contradiction |]. simpl in *.
        apply andb_prop in Hw2'. destruct Hw2' as [Hw _].
        destruct (Js.isWord w2) eqn:E; [| reflexivity].
        apply word_not_white in E. congruence. }
    destruct name as [| c name]; [contradiction |]. cbn [String.length Nat.eqb].
    rewrite (span_append Js.isWhite ws2 _ Hw2'); [| reflexivity].
    destruct ws2 as [| w2 ws2]; [contradiction |]. cbn [String.length Nat.eqb].
    change ("{" ++ content ++ "}" ++ rest)%string
      with (String SchemaParser.brace_open (content ++ String SchemaParser.brace_close rest)).
    cbv iota. change (Ascii.eqb SchemaParser.brace_open SchemaParser.brace_open) with true.
    cbn [negb]. cbv iota.
    rewrite (span_append (fun c => negb (Ascii.eqb c SchemaParser.brace_close))
               content (String SchemaParser.brace_close rest) Hc eq_refl).
    reflexivity. }
  destruct (matchModelAt_block _ _ _ _ Hm) as (rest' & (ws1' & ws2' & Hs' & _) & Hlen & Hd).
  eexists. split; [exact Hm |]. split; [exact Hlen |].
  rewrite Hs at 1.
  replace (5 + String.length ws1 + String.length name + String.length ws2 + 1
           + String.length content + 1)
    with (String.length ("model" ++ ws1 ++ name ++ ws2 ++ "{" ++ content ++ "}")).
  - replace ("model" ++ ws1 ++ name ++ ws2 ++ "{" ++ content ++ "}" ++ rest)%string
      with (("model" ++ ws1 ++ name ++ ws2 ++ "{" ++ content ++ "}") ++ rest)%string
      by (now rewrite !append_assoc).
    apply drop_append.
  - rewrite !length_append. simpl. lia.
Qed.

Lemma execAll_drop (k : nat) (s : string) :
  SchemaParser.execAll k s = SchemaParser.execAll 0 (Js.drop k s).
Proof.
  revert k. induction s as [| c s IH]; intros [| k]; try reflexivity.
  change (SchemaParser.execAll (S k) (String c s)) with (SchemaParser.execAll k s).
  change (Js.drop (S k) (String c s)) with (Js.drop k s). apply IH.
Qed.

Lemma execAll_step (c : ascii) (s : string) :
  SchemaParser.execAll 0 (String c s)
  = match SchemaParser.matchModelAt (String c s) with
    | Some (name, content, len) =>
        (name, content) :: SchemaParser.execAll 0 (Js.drop len (String c s))
    | None => SchemaParser.execAll 0 s
    end.
Proof.
  change (SchemaParser.execAll 0 (String c s))
    with (match SchemaParser.matchModelAt (String c s) with
          | Some (name, content, len) =>
              (name, content) :: SchemaParser.execAll (len - 1) s
          | None => SchemaParser.execAll 0 s
          end).
  destruct (SchemaParser.matchModelAt (String c s)) as [[[name content] len] |] eqn:E;
    [| reflexivity].
  destruct (matchModelAt_block _ _ _ _ E) as (rest & _ & Hlen & _).
  destruct len as [| k]; [lia |].
  change (Js.drop (S k) (String c s)) with (Js.drop k s).
  replace (S k - 1) with k by lia. now rewrite execAll_drop.
Qed.

(** The loop of [parseSchema] finds the model blocks of the text, and
    they are the only ones. *)
Lemma blocksOf_execAll_bounded (n : nat) (s : string) :
  String.length s <= n -> Spec.blocksOf s (SchemaParser.execAll 0 s).
Proof.
  revert s. induction n as [| n IH]; intros s Hs.
  - destruct s; [constructor | simpl in Hs; lia].
  - destruct s as [| c s]; [constructor |]. rewrite execAll_step.
    destruct (SchemaParser.matchModelAt (String c s)) as [[[name content] len] |] eqn:E.
    + destruct (matchModelAt_block _ _ _ _ E) as (rest & Hb & Hlen & Hd).
      rewrite Hd. apply (Spec.blocks_take _ _ _ rest); [exact Hb |].
      apply IH. subst rest. rewrite length_drop.
      change (String.length (String c s)) with (S (String.length s)) in *. lia.
    + apply Spec.blocks_skip.
      * intros name content rest Hb.
        destruct (block_matchModelAt _ _ _ _ Hb) as (len & Hm & _). congruence.
      * apply IH. simpl in Hs. lia.
Qed.

Lemma blocksOf_execAll (s : string) : Spec.blocksOf s (SchemaParser.execAll 0 s).
Proof. now apply (blocksOf_execAll_bounded (String.length s)). Qed.

Lemma blocksOf_unique (s : string) (bs : list (string * string)) :
  Spec.blocksOf s bs -> bs = SchemaParser.execAll 0 s.
Proof.
  induction 1 as [| c s bs Hnone _ IH | s name content rest bs Hb _ IH].
  - reflexivity.
  - rewrite execAll_step.
    destruct (SchemaParser.matchModelAt (String c s)) as [[[n ct] len] |] eqn:E;
      [| exact IH].
    destruct (matchModelAt_block _ _ _ _ E) as (rest & Hb & _).
    exfalso. exact (Hnone _ _ _ Hb).
  - destruct (block_matchModelAt _ _ _ _ Hb) as (len & Hm & Hlen & Hd).
    destruct s as [| c s]; [discriminate |].
    rewrite execAll_step, Hm, Hd. now f_equal.
Qed.

Lemma splitChar_aux_nonempty (sep : ascii) (cur s : string) :
  Js.splitChar_aux sep cur s <> [].
Proof.
  revert cur. induction s as [| c s IH]; intros cur; simpl; [discriminate |].
  destruct (Ascii.eqb c sep); [discriminate | apply IH].
Qed.

Lemma splitChar_aux_join (sep : ascii) (cur s : string) :
  Js.join (String sep EmptyString) (Js.splitChar_aux sep cur s) = (cur ++ s)%string.
Proof.
  unfold Js.join. revert cur. induction s as [| c s IH]; intros cur; simpl.
  - now rewrite append_nil_r.
  - destruct (Ascii.eqb c sep) eqn:E.
    + apply Ascii.eqb_eq in E. subst c.
      pose proof (splitChar_aux_nonempty sep EmptyString s) as Hne.
      specialize (IH EmptyString).
      destruct (Js.splitChar_aux sep EmptyString s) as [| y l]; [contradiction |].
      change (String.concat (String sep EmptyString) (cur :: y :: l))
        with (cur ++ String sep EmptyString
              ++ String.concat (String sep EmptyString) (y :: l))%string.
      now rewrite IH.
    + rewrite IH. apply append_snoc.
Qed.

Lemma splitChar_aux_pieces (sep : ascii) (cur s : string) :
  Spec.everyChar (fun c => negb (Ascii.eqb c sep)) cur = true ->
  Forall (fun piece => Spec.everyChar (fun c => negb (Ascii.eqb c sep)) piece = true)
    (Js.splitChar_aux sep cur s).
Proof.
  revert cur. induction s as [| c s IH]; intros cur Hcur; simpl.
  - now constructor.
  - destruct (Ascii.eqb c sep) eqn:E.
    + constructor; [exact Hcur | now apply IH].
    + apply IH. now rewrite everyChar_snoc, Hcur, E.
Qed.

Lemma splitChar_aux_sep (sep : ascii) (cur piece s : string) :
  Spec.everyChar (fun c => negb (Ascii.eqb c sep)) piece = true ->
  Js.splitChar_aux sep cur (piece ++ String sep s)
  = (cur ++ piece)%string :: Js.splitChar_aux sep EmptyString s.
Proof.
  revert cur. induction piece as [| c piece IH]; intros cur H; simpl.
  - now rewrite Ascii.eqb_refl, append_nil_r.
  - simpl in H. apply andb_prop in H. destruct H as [Hc H].
    apply negb_true_iff in Hc. rewrite Hc, (IH _ H). now rewrite append_snoc.
Qed.

Lemma splitChar_of_join (sep : ascii) (pieces : list string) :
  pieces <> [] ->
  Forall (fun piece => Spec.everyChar (fun c => negb (Ascii.eqb c sep)) piece = true)
    pieces ->
  Js.splitChar sep (Js.join (String sep EmptyString) pieces) = pieces.
Proof.
  unfold Js.join, Js.splitChar.
  induction pieces as [| x l IH]; intros Hne Hall; [contradiction |].
  inversion Hall as [| ? ? Hx Hl]; subst.
  destruct l as [| y l].
  - simpl. exact (splitChar_aux_plain sep EmptyString x Hx).
  - change (String.concat (String sep EmptyString) (x :: y :: l))
      with (x ++ String sep (String.concat (String sep EmptyString) (y :: l)))%string.
    rewrite (splitChar_aux_sep sep EmptyString x _ Hx). f_equal.
    apply IH; [discriminate | exact Hl].
Qed.

(** The lines of a block are those that [split] gives. *)
Lemma linesOf_fieldLines (content : string) (lines : list string) :
  Spec.linesOf content lines <-> lines = SchemaParser.fieldLines content.
Proof.
  unfold Spec.linesOf, SchemaParser.fieldLines. split.
  - intros (Hne & Hjoin & Hall). rewrite <- Hjoin. symmetry.
    now apply splitChar_of_join.
  - intros ->. split; [apply splitChar_aux_nonempty |]. split.
    + unfold Js.splitChar. now rewrite splitChar_aux_join.
    + now apply splitChar_aux_pieces.
Qed.

Lemma splitWhite_aux_nonempty (cur : string) (inRun : bool) (s : string) :
  Js.splitWhite_aux cur inRun s <> [].
Proof.
  revert cur inRun. induction s as [| c s IH]; intros cur inRun; simpl; [discriminate |].
  destruct (Js.isWhite c); [destruct inRun; [apply IH | discriminate] | apply IH].
Qed.

(** The first piece of [split] on white space is the text up to the
    first white space. *)
Lemma splitWhite_aux_span (s cur : string) :
  Js.splitWhite_aux cur false s
  = match Js.span Spec.notWhite s with
    | (a, EmptyString) => [(cur ++ a)%string]
    | (a, String _ b) => (cur ++ a)%string :: Js.splitWhite_aux EmptyString true b
    end.
Proof.
  revert cur. induction s as [| c s IH]; intros cur; simpl.
  - now rewrite append_nil_r.
  - unfold Spec.notWhite at 1. destruct (Js.isWhite c) eqn:E; simpl.
    + now rewrite append_nil_r.
    + rewrite IH. destruct (Js.span Spec.notWhite s) as [a b].
      destruct b; now rewrite append_snoc.
Qed.

Lemma append_empty (a w : string) :
  EmptyString = (a ++ w)%string -> w = EmptyString.
Proof. destruct a; simpl; [now intros <- | discriminate]. Qed.

(** A text without white space at its end does not end in white
    space. *)
Lemma trimEnd_end (s a w : string) :
  Js.trimEnd s = (a ++ w)%string -> Spec.everyChar Js.isWhite w = true ->
  w = EmptyString.
Proof.
  revert a w. induction s as [| c s IH]; intros a w; simpl.
  - intros H _. exact (append_empty a w H).
  - destruct (Js.isWhite c && String.eqb (Js.trimEnd s) EmptyString) eqn:E.
    + intros H _. exact (append_empty a w H).
    + destruct a as [| x a]; simpl.
      * intros <- Hw. simpl in Hw. apply andb_prop in Hw. destruct Hw as [Hc Hw].
        rewrite Hc in E. simpl in E.
        rewrite (IH EmptyString (Js.trimEnd s) eq_refl Hw) in E. discriminate.
      * intros H Hw. injection H as _ H. exact (IH a w H Hw).
Qed.

Lemma trim_end (line a w : string) :
  Js.trim line = (a ++ w)%string -> Spec.everyChar Js.isWhite w = true ->
  w = EmptyString.
Proof. unfold Js.trim. apply trimEnd_end. Qed.

(** A line gives a field exactly when it declares one, and the field
    has the name declared. *)
Lemma parseFieldLine_declares (line : string) (f : ModelField.t) :
  SchemaParser.parseFieldLine line = Some f -> Spec.declares line (ModelField.name f).
Proof.
  unfold SchemaParser.parseFieldLine. cbv zeta.
  destruct (String.eqb (Js.trim line) EmptyString) eqn:Ee; [discriminate |].
  cbn [orb].
  destruct (Js.startsWith "//" (Js.trim line)) eqn:Es; [discriminate |].
  unfold Js.splitWhite. rewrite splitWhite_aux_span.
  destruct (Js.span Spec.notWhite (Js.trim line)) as [a b] eqn:Esp.
  destruct b as [| c b]; [discriminate |].
  pose proof (splitWhite_aux_nonempty EmptyString true b) as Hne.
  destruct (Js.splitWhite_aux EmptyString true b) as [| fieldType rest]; [contradiction |].
  intros H. injection H as <-. cbn [ModelField.name append].
  apply span_spec in Esp. destruct Esp as (Ht & Ha & Hc).
  apply negb_false_iff in Hc.
  destruct (Js.span Js.isWhite (String c b)) as [ws more] eqn:Ew.
  apply span_spec in Ew. destruct Ew as (Hb & Hws & Hmore).
  split; [exact Es |]. exists ws, more.
  split; [now rewrite Ht, Hb |].
  split.
  { intros ->. pose proof (trim_head line) as Hh. rewrite Ht in Hh. simpl in Hh.
    congruence. }
  split; [exact Ha |].
  split.
  { intros ->. simpl in Hb. subst more. congruence. }
  split; [exact Hws |].
  intros ->. rewrite Hb, append_nil_r in Ht.
  pose proof (trim_end line a ws Ht Hws) as Hw. subst ws. discriminate.
Qed.

Lemma declares_parseFieldLine (line name : string) :
  Spec.declares line name ->
  exists f, SchemaParser.parseFieldLine line = Some f /\ ModelField.name f = name.
Proof.
  intros (Hs & ws & more & Ht & Hn & Hn' & Hw & Hw' & Hm).
  unfold SchemaParser.parseFieldLine. cbv zeta. rewrite Hs.
  assert (Hne : String.eqb (Js.trim line) EmptyString = false).
  { apply String.eqb_neq. rewrite Ht. destruct name; [contradiction | discriminate]. }
  rewrite Hne. cbn [orb].
  unfold Js.splitWhite. rewrite splitWhite_aux_span. rewrite Ht.
  destruct ws as [| w ws]; [contradiction |].
  simpl in Hw'. apply andb_prop in Hw'. destruct Hw' as [Hwc _].
  rewrite (span_append Spec.notWhite name (String w ws ++ more) Hn').
  2:{ simpl. unfold Spec.notWhite. now rewrite Hwc. }
  change (String w ws ++ more)%string with (String w (ws ++ more)). cbv iota.
  pose proof (splitWhite_aux_nonempty EmptyString true (ws ++ more)) as Hne'.
  destruct (Js.splitWhite_aux EmptyString true (ws ++ more)) as [| fieldType rest];
    [contradiction |].
  eexists. split; reflexivity.
Qed.

Lemma declaredNames_filterMap (lines : list string) :
  Spec.declaredNames lines
    (map ModelField.name (SchemaParser.filterMap SchemaParser.parseFieldLine lines)).
Proof.
  induction lines as [| line lines IH]; simpl; [constructor |].
  destruct (SchemaParser.parseFieldLine line) as [f |] eqn:E; simpl.
  - constructor; [now apply parseFieldLine_declares | exact IH].
  - apply Spec.declared_none; [| exact IH].
    intros name Hd. destruct (declares_parseFieldLine line name Hd) as (f & Hf & _).
    congruence.
Qed.

Lemma declaredNames_unique (lines names : list string) :
  Spec.declaredNames lines names ->
  names = map ModelField.name (SchemaParser.filterMap SchemaParser.parseFieldLine lines).
Proof.
  induction 1 as [| line name lines names Hd _ IH | line lines names Hn _ IH]; simpl.
  - reflexivity.
  - destruct (declares_parseFieldLine line name Hd) as (f & -> & <-). simpl.
    now f_equal.
  - destruct (SchemaParser.parseFieldLine line) as [f |] eqn:E; [| exact IH].
    exfalso. exact (Hn _ (parseFieldLine_declares line f E)).
Qed.

(** The field names of a parsed block are the names that the block
    declares. *)
Lemma blockDeclares_fieldNames (b : string * string) (names : list string) :
  Spec.blockDeclares (snd b) names <-> names = Spec.fieldNames (SchemaParser.parseModel b).
Proof.
  destruct b as [name content]. unfold Spec.blockDeclares, Spec.fieldNames. simpl. split.
  - intros (lines & Hl & Hd). apply linesOf_fieldLines in Hl. subst lines.
    now apply declaredNames_unique.
  - intros ->. exists (SchemaParser.fieldLines content).
    split; [now apply linesOf_fieldLines | apply declaredNames_filterMap].
Qed.

Lemma Forall2_map_left {A B : Type} (f : A -> B) (R : B -> A -> Prop) (l : list A) :
  (forall x, R (f x) x) -> Forall2 R (map f l) l.
Proof. intros H. induction l; simpl; constructor; auto. Qed.

(** C7, as the code has it.  The parser drops no repetition.  The text
    has one sequence of model blocks, found from left to right; the
    model names of the result are the names of these blocks, in the
    order of the text; and the field names of each model are the names
    that the lines of its block declare, in the order of the lines.
    So names are unique in the result exactly when they are unique
    among the blocks and among the lines of every block. *)
Theorem parseSchema_names_as_written (text : string) :
  exists blocks,
    Spec.blocksOf text blocks
    /\ (forall blocks', Spec.blocksOf text blocks' -> blocks' = blocks)
    /\ Spec.modelNames (SchemaParser.parseSchema text) = map fst blocks
    /\ Forall2 (fun m b =>
                 Spec.blockDeclares (snd b) (Spec.fieldNames m)
                 /\ forall names, Spec.blockDeclares (snd b) names ->
                                  names = Spec.fieldNames m)
         (ParsedSchema.models (SchemaParser.parseSchema text)) blocks
    /\ (Spec.uniqueNames (SchemaParser.parseSchema text)
        <-> NoDup (map fst blocks)
            /\ Forall (fun b => forall names, Spec.blockDeclares (snd b) names ->
                                              NoDup names) blocks).
Proof.
  exists (SchemaParser.execAll 0 text).
  split; [apply blocksOf_execAll |].
  split; [exact (blocksOf_unique text) |].
  assert (Hnames : Spec.modelNames (SchemaParser.parseSchema text)
                   = map fst (SchemaParser.execAll 0 text)).
  { unfold Spec.modelNames, SchemaParser.parseSchema. simpl. rewrite map_map.
    apply map_ext. now intros [name content]. }
  split; [exact Hnames |]. split.
  - unfold SchemaParser.parseSchema. simpl. apply Forall2_map_left.
    intros b. split; [now apply blockDeclares_fieldNames |].
    intros names. apply blockDeclares_fieldNames.
  - unfold Spec.uniqueNames. rewrite Hnames.
    unfold SchemaParser.parseSchema. simpl. rewrite Forall_map.
    assert (Hext : Forall (fun b => NoDup (Spec.fieldNames (SchemaParser.parseModel b)))
                     (SchemaParser.execAll 0 text)
                   <-> Forall (fun b => forall names,
                                 Spec.blockDeclares (snd b) names -> NoDup names)
                         (SchemaParser.execAll 0 text)).
    { split; apply Forall_impl; intros b Hb.
      - intros names Hd. apply blockDeclares_fieldNames in Hd. now subst names.
      - apply Hb. now apply blockDeclares_fieldNames. }
    tauto.
Qed.

(** C7 fails on the code: a text with two blocks of one name, the first
    with two lines of one name, parses to two models [A], the first
    with two fields [a]. *)
Lemma parseSchema_keeps_duplicates :
  Spec.modelNames (SchemaParser.parseSchema Scenario.dupText) = ["A"; "A"]
  /\ map Spec.fieldNames (ParsedSchema.models (SchemaParser.parseSchema Scenario.dupText))
     = [["a"; "a"]; ["b"]]
  /\ ~ Spec.uniqueNames (SchemaParser.parseSchema Scenario.dupText).
Proof.
  split; [vm_compute; reflexivity |]. split; [vm_compute; reflexivity |].
  intros [Hn _].
  replace (Spec.modelNames (SchemaParser.parseSchema Scenario.dupText)) with ["A"; "A"] in Hn
    by (vm_compute; reflexivity).
  inversion Hn as [| ? ? Hnotin _]; subst. apply Hnotin. now left.
Qed.

End ParserBlocks.

(** * Further properties of the listing *)

Section ListingMore.
Variable parseJson : string -> result MigrationManager.Metadata.
Variable localeCompare : string -> string -> comparison.

(** X15.  The listing passes over what is no migration directory: the
    result is the same with or without a plain file among the entries
    of the root (the schema cache is one), and with or without a
    subdirectory that lacks one of the three files. *)
Theorem getMigrations_ignores_other_entries (r1 r2 : Fs.dir) :
  (forall name content,
     MigrationManager.getMigrations parseJson localeCompare
       (r1 ++ (name, Fs.File content) :: r2)
     = MigrationManager.getMigrations parseJson localeCompare (r1 ++ r2))
  /\ (forall name es,
        Spec.complete es = false ->
        MigrationManager.getMigrations parseJson localeCompare
          (r1 ++ (name, Fs.Dir es) :: r2)
        = MigrationManager.getMigrations parseJson localeCompare (r1 ++ r2)).
Proof.
  split.
  - intros name content. now apply getMigrations_without_entry.
  - intros name es H. apply getMigrations_without_entry. now apply visit_incomplete.
Qed.

Lemma In_set (n : string) (x : Fs.node) (d : Fs.dir) : In (n, x) (Fs.set n x d).
Proof.
  induction d as [| [k y] d IH]; simpl; [now left |].
  destruct (String.eqb k n) eqn:E.
  - apply String.eqb_eq in E. subst k. now left.
  - now right.
Qed.

Lemma storedOver_complete (m : Migration.t) (es : Fs.dir) :
  Spec.complete (Spec.storedOver m es) = true.
Proof.
  destruct (storedOver_reads m es) as (Hj & Hu & Hd).
  unfold Spec.complete, Fs.pathExists. unfold Fs.readFile in Hj, Hu, Hd.
  destruct (Fs.lookup "migration.json" (Spec.storedOver m es)); [| discriminate].
  destruct (Fs.lookup "up.sql" (Spec.storedOver m es)); [| discriminate].
  destruct (Fs.lookup "down.sql" (Spec.storedOver m es)); [| discriminate].
  reflexivity.
Qed.

Lemma readMigration_stored (m : Migration.t) (es : Fs.dir) :
  parseJson (Spec.metadataText m) = Ok (Spec.metadataOf m) ->
  MigrationManager.readMigration parseJson (Spec.storedOver m es)
  = Ok (Some (Spec.listed m)).
Proof.
  intros Hparse. apply readMigration_spec. split; [apply storedOver_complete |].
  destruct (storedOver_reads m es) as (Hj & Hu & Hd).
  exists (Spec.metadataOf m), (Migration.upSql m), (Migration.downSql m).
  unfold MigrationManager.readJson. rewrite Hj, Hu, Hd. simpl.
  repeat split; assumption.
Qed.

Lemma getMigrations_In (root : Fs.dir) (listing : list MigrationManager.Listed.t)
  (m : MigrationManager.Listed.t) :
  MigrationManager.getMigrations parseJson localeCompare root = Ok listing ->
  In m (flat_map (MigrationManager.visit parseJson) root) -> In m listing.
Proof.
  unfold MigrationManager.getMigrations. intros Hl Hin.
  exact (Permutation_in _ (sortBy_Permutation _ _ _ Hl) Hin).
Qed.

Lemma generated_migration_is_listed_aux
  (changes : list SchemaChange.t) (migrationName : option string) (now : string)
  (root root' : Fs.dir) (m : Migration.t) :
  MigrationGenerator.generateMigration changes migrationName now root
  = (Ok (Some m), root') ->
  Spec.oneComponent (Migration.id m) ->
  parseJson (Spec.metadataText m) = Ok (Spec.metadataOf m) ->
  In (Spec.listed m) (flat_map (MigrationManager.visit parseJson) root')
  /\ (forall listing,
        MigrationManager.getMigrations parseJson localeCompare root' = Ok listing ->
        In (Spec.listed m) listing)
  /\ (root = [] ->
      MigrationManager.getMigrations parseJson localeCompare root'
      = Ok [Spec.listed m]).
Proof.
  intros Hg Hone Hparse.
  destruct (generateMigration_stored _ _ _ _ _ _ Hg) as (_ & Hroot).
  rewrite (saved_oneComponent m root Hone) in Hroot.
  pose proof (readMigration_stored m (Spec.entriesOf (Migration.id m) root) Hparse) as Hr.
  assert (Hin : In (Spec.listed m) (flat_map (MigrationManager.visit parseJson) root')).
  { apply in_flat_map. eexists. split; [rewrite Hroot; apply In_set |].
    apply visit_In. eexists. split; [reflexivity | exact Hr]. }
  split; [exact Hin |]. split.
  - intros listing Hl. exact (getMigrations_In root' listing _ Hl Hin).
  - intros ->. rewrite Hroot. unfold MigrationManager.getMigrations.
    change (Fs.set (Migration.id m)
              (Fs.Dir (Spec.storedOver m (Spec.entriesOf (Migration.id m) []))) [])
      with [(Migration.id m,
             Fs.Dir (Spec.storedOver m (Spec.entriesOf (Migration.id m) [])))].
    cbn [flat_map]. unfold MigrationManager.visit at 1. cbn [snd].
    rewrite Hr. reflexivity.
Qed.


Lemma sortBy_not_text (l : list MigrationManager.Listed.t) :
  Forall (fun m => Spec.textTimestamp m = false) l -> 2 <= length l ->
  MigrationManager.sortBy (MigrationManager.byTimestamp localeCompare) l
  = Throw "TypeError".
Proof.
  intros Hall Hlen.
  destruct l as [| x [| y l]]; try (simpl in Hlen; lia).
  inversion Hall as [| ? ? _ Hl]; subst. inversion Hl as [| ? ? Hy _]; subst.
  unfold MigrationManager.sortBy. simpl.
  now rewrite (byTimestamp_not_text localeCompare y x Hy).
Qed.

(** X25.  The sort is not inside the [try] block: when two or more
    migrations are contributed and the timestamp of none is a string
    (the documents of another tool, an empty object for one), every
    comparison throws and [getMigrations] throws a [TypeError]; one
    such migration alone is listed as it is, for nothing is compared. *)
Theorem getMigrations_throws_without_timestamps (root : Fs.dir) :
  Forall (fun m => Spec.textTimestamp m = false)
    (flat_map (MigrationManager.visit parseJson) root) ->
  (2 <= length (flat_map (MigrationManager.visit parseJson) root) ->
   MigrationManager.getMigrations parseJson localeCompare root = Throw "TypeError")
  /\ (forall m,
        flat_map (MigrationManager.visit parseJson) root = [m] ->
        MigrationManager.getMigrations parseJson localeCompare root = Ok [m]).
Proof.
  intros Hall. unfold MigrationManager.getMigrations. split.
  - now apply sortBy_not_text.
  - intros m ->. reflexivity.
Qed.

Hypothesis localeCompare_preorder : Spec.preorder localeCompare.

Lemma ascending_strongly (l : list MigrationManager.Listed.t) :
  Sorted (Spec.ascending localeCompare) l ->
  StronglySorted (Spec.ascending localeCompare) l.
Proof.
  destruct localeCompare_preorder as (_ & Htrans).
  induction l as [| x l IH]; intros Hs; [constructor |].
  inversion Hs as [| ? ? Hs' Hhd]; subst. specialize (IH Hs').
  constructor; [exact IH |].
  destruct l as [| y l]; [constructor |].
  inversion Hhd as [| ? ? Hxy]; subst. inversion IH as [| ? ? _ Hall]; subst.
  constructor; [exact Hxy |].
  eapply Forall_impl; [| exact Hall].
  intros z Hz. unfold Spec.ascending in *.
  eapply Htrans; eassumption.
Qed.

Lemma ascending_unique (l1 l2 : list MigrationManager.Listed.t) :
  Spec.strictlyOrdered localeCompare l1 ->
  StronglySorted (Spec.ascending localeCompare) l1 ->
  StronglySorted (Spec.ascending localeCompare) l2 ->
  Permutation l1 l2 -> l1 = l2.
Proof.
  revert l2. induction l1 as [| x l1 IH]; intros l2 Hstrict H1 H2 Hp.
  - apply Permutation_nil in Hp. now subst.
  - destruct l2 as [| y l2].
    + apply Permutation_sym, Permutation_nil in Hp. discriminate.
    + inversion H1 as [| ? ? H1' Hall1]; subst.
      inversion H2 as [| ? ? H2' Hall2]; subst.
      rewrite Forall_forall in Hall1, Hall2.
      assert (Hy : In y (x :: l1))
        by (eapply Permutation_in; [apply Permutation_sym; exact Hp | now left]).
      assert (Hx : In x (y :: l2)) by (eapply Permutation_in; [exact Hp | now left]).
      assert (Hxy : x = y).
      { destruct Hx as [Hx | Hx]; [now subst |].
        destruct Hy as [Hy' | Hy']; [now subst |].
        apply (Hstrict x y); [now left | now right | |].
        - exact (Hall1 y Hy').
        - exact (Hall2 x Hx). }
      subst y. f_equal. apply IH; try assumption.
      * intros a b Ha Hb. apply Hstrict; now right.
      * eapply Permutation_cons_inv; exact Hp.
Qed.

(** X17.  When the timestamps of the contributed migrations are
    strings that [localeCompare], a total preorder, never takes for
    equal on two different migrations, the listing succeeds and does
    not depend on the order in which [readdir] gives the entries. *)
Theorem getMigrations_order_independent (root1 root2 : Fs.dir) :
  Permutation root1 root2 ->
  Forall (fun m => Spec.textTimestamp m = true)
    (flat_map (MigrationManager.visit parseJson) root1) ->
  Spec.strictlyOrdered localeCompare (flat_map (MigrationManager.visit parseJson) root1) ->
  exists listing,
    MigrationManager.getMigrations parseJson localeCompare root1 = Ok listing
    /\ MigrationManager.getMigrations parseJson localeCompare root2 = Ok listing.
Proof.
  intros Hp Htext Hstrict. unfold MigrationManager.getMigrations.
  pose proof (proj1 localeCompare_preorder) as Htotal.
  assert (Hperm : Permutation (flat_map (MigrationManager.visit parseJson) root1)
                    (flat_map (MigrationManager.visit parseJson) root2))
    by now apply Permutation_flat_map.
  assert (Htext2 : Forall (fun m => Spec.textTimestamp m = true)
                     (flat_map (MigrationManager.visit parseJson) root2))
    by (eapply Permutation_Forall; eassumption).
  destruct (sortBy_text localeCompare Htotal _ Htext) as (l1 & E1 & P1 & S1).
  destruct (sortBy_text localeCompare Htotal _ Htext2) as (l2 & E2 & P2 & S2).
  exists l1. split; [exact E1 |]. rewrite E2. f_equal. symmetry.
  apply ascending_unique.
  - intros a b Ha Hb. apply Hstrict; eapply Permutation_in; eassumption.
  - now apply ascending_strongly.
  - now apply ascending_strongly.
  - eapply Permutation_trans; [exact P1 |].
    eapply Permutation_trans; [exact Hperm |]. now apply Permutation_sym.
Qed.

End ListingMore.

Lemma compare_not_before (a b : string) :
  String.compare b a <> Lt <-> String.compare a b <> Gt.
Proof.
  rewrite (String.compare_antisym b a).
  destruct (String.compare a b); simpl; split; congruence.
Qed.

Lemma compareDigits_preorder : Spec.preorder MigrationManager.compareDigits.
Proof.
  unfold Spec.preorder, MigrationManager.compareDigits. split.
  - apply compareDigits_total.
  - intros a b c Hab Hbc. apply compare_not_before.
    apply compare_not_before in Hab, Hbc.
    apply leb_compare. apply leb_compare in Hab, Hbc.
    eapply leb_trans; eassumption.
Qed.


(** A name with a slash leads into nested directories, and the
    migration is not listed. *)
Lemma nested_migration_is_not_listed :
  exists m root',
    MigrationGenerator.generateMigration Scenario.changes (Some "a/b") Scenario.now1 []
    = (Ok (Some m), root')
    /\ map fst root' = ["20250504123456_a"]
    /\ MigrationManager.getMigrations MigrationManager.parsePlain
         MigrationManager.compareDigits root' = Ok [].
Proof.
  eexists. eexists. split; [vm_compute; reflexivity |].
  split; vm_compute; reflexivity.
Qed.

(** Two directories of another tool, [migration.json] an empty object:
    both are pushed, their timestamps are [undefined], and the sort
    throws. *)
Lemma getMigrations_throws_without_timestamps_witness :
  Spec.complete Scenario.foreignDir = true
  /\ MigrationManager.getMigrations MigrationManager.parsePlain
       MigrationManager.compareDigits
       [ ("a", Fs.Dir Scenario.foreignDir); ("b", Fs.Dir Scenario.foreignDir) ]
     = Throw "TypeError".
Proof.
  split; [reflexivity |].
  apply (proj1 (getMigrations_throws_without_timestamps MigrationManager.parsePlain
                  MigrationManager.compareDigits
                  [ ("a", Fs.Dir Scenario.foreignDir); ("b", Fs.Dir Scenario.foreignDir) ]
                  ltac:(vm_compute; repeat constructor))).
  vm_compute. lia.
Defined.

Lemma scenario_strictly_ordered :
  Spec.strictlyOrdered MigrationManager.compareDigits
    (flat_map (MigrationManager.visit MigrationManager.parsePlain)
       [ ("20250504123457_add_Tag", Fs.Dir Scenario.laterDir);
         ("20250504123456_add_Post", Fs.Dir Scenario.completeDir) ]).
Proof.
  change (flat_map (MigrationManager.visit MigrationManager.parsePlain)
            [ ("20250504123457_add_Tag", Fs.Dir Scenario.laterDir);
              ("20250504123456_add_Post", Fs.Dir Scenario.completeDir) ])
    with [Spec.listed Scenario.later; Spec.listed Scenario.stored].
  intros a b [<- | [<- | []]] [<- | [<- | []]] Hab Hba; try reflexivity; exfalso.
  - apply Hab. vm_compute. reflexivity.
  - apply Hba. vm_compute. reflexivity.
Qed.

Lemma getMigrations_order_independent_witness :
  Spec.preorder MigrationManager.compareDigits
  /\ (exists listing,
        MigrationManager.getMigrations MigrationManager.parsePlain
          MigrationManager.compareDigits
          [ ("20250504123457_add_Tag", Fs.Dir Scenario.laterDir);
            ("20250504123456_add_Post", Fs.Dir Scenario.completeDir) ]
        = Ok listing
        /\ MigrationManager.getMigrations MigrationManager.parsePlain
             MigrationManager.compareDigits
             [ ("20250504123456_add_Post", Fs.Dir Scenario.completeDir);
               ("20250504123457_add_Tag", Fs.Dir Scenario.laterDir) ]
           = Ok listing)
  /\ MigrationManager.getMigrations MigrationManager.parsePlain
       MigrationManager.compareDigits
       [ ("20250504123457_add_Tag", Fs.Dir Scenario.laterDir);
         ("20250504123456_add_Post", Fs.Dir Scenario.completeDir) ]
     = Ok [Spec.listed Scenario.stored; Spec.listed Scenario.later].
Proof.
  split; [exact compareDigits_preorder |]. split; [| vm_compute; reflexivity].
  apply (getMigrations_order_independent MigrationManager.parsePlain
           MigrationManager.compareDigits compareDigits_preorder).
  - apply perm_swap.
  - vm_compute. repeat constructor.
  - exact scenario_strictly_ordered.
Defined.

(** * Properties of the manager *)

Section ManagerFacts.
Variable stringifyCache : string -> ParsedSchema.t -> string.
Variable parseCache : string -> result (option ParsedSchema.t).
Variable parseJson : string -> result MigrationManager.Metadata.
Variable localeCompare : string -> string -> comparison.

Lemma visit_set_file (n c : string) (d : Fs.dir) :
  Spec.notDir n d = true ->
  flat_map (MigrationManager.visit parseJson) (Fs.set n (Fs.File c) d)
  = flat_map (MigrationManager.visit parseJson) d.
Proof.
  unfold Spec.notDir. induction d as [| [k y] d IH]; simpl; intros H; [reflexivity |].
  destruct (String.eqb k n) eqn:E; simpl.
  - destruct y as [c' | es]; [reflexivity | discriminate].
  - now rewrite IH.
Qed.

Lemma writeRootFile_listing (n c : string) (d : Fs.dir) :
  flat_map (MigrationManager.visit parseJson)
    (snd (MigrationManager.writeRootFile n c d))
  = flat_map (MigrationManager.visit parseJson) d.
Proof.
  unfold MigrationManager.writeRootFile.
  destruct (Fs.lookup n d) as [[c' | es] |] eqn:E; simpl; try reflexivity;
    apply visit_set_file; unfold Spec.notDir; now rewrite E.
Qed.

Lemma saveSchemaCache_visits (mgr : MigrationManager.t) (now : string) (d : Fs.dir) :
  flat_map (MigrationManager.visit parseJson)
    (MigrationManager.saveSchemaCache stringifyCache mgr now d)
  = flat_map (MigrationManager.visit parseJson) d.
Proof.
  unfold MigrationManager.saveSchemaCache.
  destruct (MigrationManager.previousSchema mgr); [| reflexivity].
  apply writeRootFile_listing.
Qed.

(** Writing the schema cache does not change the listing. *)
Lemma saveSchemaCache_listing (mgr : MigrationManager.t) (now : string) (d : Fs.dir) :
  MigrationManager.getMigrations parseJson localeCompare
    (MigrationManager.saveSchemaCache stringifyCache mgr now d)
  = MigrationManager.getMigrations parseJson localeCompare d.
Proof.
  unfold MigrationManager.getMigrations, MigrationManager.saveSchemaCache.
  destruct (MigrationManager.previousSchema mgr); [| reflexivity].
  now rewrite writeRootFile_listing.
Qed.

Lemma handleSchemaChange_no_change (mgr : MigrationManager.t) (old : ParsedSchema.t)
  (text now1 now2 : string) (root : Fs.dir) :
  MigrationManager.previousSchema mgr = Some old ->
  SchemaComparer.compareSchemas old (SchemaParser.parseSchema text) = [] ->
  MigrationManager.handleSchemaChange stringifyCache mgr (Some text) now1 now2 root
  = (MigrationManager.mkManager (Some (SchemaParser.parseSchema text))
       (MigrationManager.isInitialized mgr),
     MigrationManager.saveSchemaCache stringifyCache
       (MigrationManager.mkManager (Some (SchemaParser.parseSchema text))
          (MigrationManager.isInitialized mgr)) now2 root).
Proof.
  intros Hprev Hnil.
  unfold MigrationManager.handleSchemaChange, MigrationManager.parseSchemaFile,
    MigrationManager.compareWithPrevious. rewrite Hprev. simpl. now rewrite Hnil.
Qed.

(** X18.  When the schema file holds nothing new for the differ,
    [handleSchemaChange] creates no migration: the listing is as
    before, nothing but the schema cache is written, and the schema of
    the file becomes the baseline. *)
Theorem handleSchemaChange_without_changes (mgr : MigrationManager.t)
  (old : ParsedSchema.t) (text now1 now2 : string) (root : Fs.dir) :
  MigrationManager.previousSchema mgr = Some old ->
  Spec.unchanged old (SchemaParser.parseSchema text) ->
  MigrationManager.previousSchema
    (fst (MigrationManager.handleSchemaChange stringifyCache mgr (Some text)
            now1 now2 root))
  = Some (SchemaParser.parseSchema text)
  /\ MigrationManager.getMigrations parseJson localeCompare
       (snd (MigrationManager.handleSchemaChange stringifyCache mgr (Some text)
               now1 now2 root))
     = MigrationManager.getMigrations parseJson localeCompare root
  /\ (forall name,
        name <> MigrationManager.schemaCacheName ->
        Fs.lookup name
          (snd (MigrationManager.handleSchemaChange stringifyCache mgr (Some text)
                  now1 now2 root))
        = Fs.lookup name root).
Proof.
  intros Hprev Hun. apply compareSchemas_nil_iff in Hun.
  rewrite (handleSchemaChange_no_change mgr old text now1 now2 root Hprev Hun). simpl.
  split; [reflexivity |]. split; [apply saveSchemaCache_listing |].
  intros name Hname. unfold MigrationManager.saveSchemaCache. simpl.
  unfold MigrationManager.writeRootFile.
  destruct (Fs.lookup MigrationManager.schemaCacheName root) as [[c | es] |]; simpl;
    try reflexivity; apply lookup_set_ne; congruence.
Qed.

(** X19.  Handling the same schema text a second time creates nothing:
    once a call has made the schema of the text the baseline, the next
    call on that text leaves the manager and the listing as they
    are. *)
Theorem handleSchemaChange_idempotent (mgr : MigrationManager.t)
  (text now1 now2 now3 now4 : string) (root : Fs.dir) :
  MigrationManager.previousSchema
    (fst (MigrationManager.handleSchemaChange stringifyCache mgr (Some text)
            now1 now2 root))
  = Some (SchemaParser.parseSchema text) ->
  fst (MigrationManager.handleSchemaChange stringifyCache
         (fst (MigrationManager.handleSchemaChange stringifyCache mgr (Some text)
                 now1 now2 root))
         (Some text) now3 now4
         (snd (MigrationManager.handleSchemaChange stringifyCache mgr (Some text)
                 now1 now2 root)))
  = fst (MigrationManager.handleSchemaChange stringifyCache mgr (Some text)
           now1 now2 root)
  /\ MigrationManager.getMigrations parseJson localeCompare
       (snd (MigrationManager.handleSchemaChange stringifyCache
               (fst (MigrationManager.handleSchemaChange stringifyCache mgr (Some text)
                       now1 now2 root))
               (Some text) now3 now4
               (snd (MigrationManager.handleSchemaChange stringifyCache mgr (Some text)
                       now1 now2 root))))
     = MigrationManager.getMigrations parseJson localeCompare
         (snd (MigrationManager.handleSchemaChange stringifyCache mgr (Some text)
                 now1 now2 root)).
Proof.
  destruct (MigrationManager.handleSchemaChange stringifyCache mgr (Some text)
              now1 now2 root) as [mgr1 root1]. simpl.
  intros Hprev.
  rewrite (handleSchemaChange_no_change mgr1 _ text now3 now4 root1 Hprev
             (compareSchemas_same _)). simpl.
  split; [| apply saveSchemaCache_listing].
  destruct mgr1 as [p i]. simpl in *. now rewrite Hprev.
Qed.

(** X20.  A call of [handleSchemaChange] that fails leaves the baseline
    where it was, so the change is found again: that is so when the
    schema file cannot be read, when there is no baseline, and when
    [generateMigration] throws. *)
Theorem handleSchemaChange_failure_keeps_baseline (mgr : MigrationManager.t)
  (now1 now2 : string) (root : Fs.dir) :
  MigrationManager.handleSchemaChange stringifyCache mgr None now1 now2 root = (mgr, root)
  /\ (forall text,
        MigrationManager.previousSchema mgr = None ->
        MigrationManager.handleSchemaChange stringifyCache mgr (Some text) now1 now2 root
        = (mgr, root))
  /\ (forall text old e root1,
        MigrationManager.previousSchema mgr = Some old ->
        MigrationGenerator.generateMigration
          (SchemaComparer.compareSchemas old (SchemaParser.parseSchema text))
          (Some (MigrationManager.createMigrationName
                   (SchemaComparer.compareSchemas old (SchemaParser.parseSchema text))))
          now1 root
        = (Throw e, root1) ->
        MigrationManager.handleSchemaChange stringifyCache mgr (Some text) now1 now2 root
        = (mgr, root1)).
Proof.
  split; [reflexivity |]. split.
  - intros text Hprev.
    unfold MigrationManager.handleSchemaChange, MigrationManager.parseSchemaFile,
      MigrationManager.compareWithPrevious. now rewrite Hprev.
  - intros text old e root1 Hprev Hg.
    unfold MigrationManager.handleSchemaChange, MigrationManager.parseSchemaFile,
      MigrationManager.compareWithPrevious. rewrite Hprev. simpl.
    destruct (SchemaComparer.compareSchemas old (SchemaParser.parseSchema text))
      as [| c cs] eqn:Ec; [discriminate |].
    simpl. now rewrite Hg.
Qed.

End ManagerFacts.

Section ManagerCalls.
Import ChangeType.
Variable stringifyCache : string -> ParsedSchema.t -> string.
Variable parseCache : string -> result (option ParsedSchema.t).
Variable parseJson : string -> result MigrationManager.Metadata.
Variable localeCompare : string -> string -> comparison.

Lemma describe_not_empty (c : SchemaChange.t) :
  exists ch rest, MigrationManager.describe c = String ch rest.
Proof.
  unfold MigrationManager.describe. destruct (SchemaChange.type c); simpl; eauto.
Qed.

Lemma createMigrationName_not_empty (changes : list SchemaChange.t) :
  changes <> [] -> MigrationManager.createMigrationName changes <> EmptyString.
Proof.
  destruct changes as [| c cs]; [contradiction |]. intros _.
  unfold MigrationManager.createMigrationName, Js.join.
  destruct (describe_not_empty c) as (ch & rest & E).
  destruct cs as [| c' cs]; simpl; rewrite E; discriminate.
Qed.

Lemma truthy_not_empty (n : string) :
  n <> EmptyString -> MigrationGenerator.truthy (Some n) = Some n.
Proof. destruct n; [contradiction | reflexivity]. Qed.

Lemma handleSchemaChange_generated (mgr : MigrationManager.t) (old : ParsedSchema.t)
  (text now1 now2 : string) (root root1 : Fs.dir) (m : Migration.t) :
  MigrationManager.previousSchema mgr = Some old ->
  MigrationGenerator.generateMigration
    (SchemaComparer.compareSchemas old (SchemaParser.parseSchema text))
    (Some (MigrationManager.createMigrationName
             (SchemaComparer.compareSchemas old (SchemaParser.parseSchema text))))
    now1 root
  = (Ok (Some m), root1) ->
  MigrationManager.handleSchemaChange stringifyCache mgr (Some text) now1 now2 root
  = (MigrationManager.mkManager (Some (SchemaParser.parseSchema text))
       (MigrationManager.isInitialized mgr),
     MigrationManager.saveSchemaCache stringifyCache
       (MigrationManager.mkManager (Some (SchemaParser.parseSchema text))
          (MigrationManager.isInitialized mgr)) now2 root1).
Proof.
  intros Hprev Hg.
  unfold MigrationManager.handleSchemaChange, MigrationManager.parseSchemaFile,
    MigrationManager.compareWithPrevious. rewrite Hprev. simpl.
  destruct (SchemaComparer.compareSchemas old (SchemaParser.parseSchema text))
    as [| c cs] eqn:Ec; [discriminate |].
  simpl. now rewrite Hg.
Qed.

(** X21.  When [handleSchemaChange] finds changes and the generation
    succeeds, the migration is named after the first two changes, its
    id is the timestamp, an underscore and that name, and the schema
    of the file becomes the baseline.  If that id is one component of
    a path (no model or field name in it holds a slash) and
    [JSON.parse] gives back the metadata written, the migration is
    contributed to the listing afterwards, and is in every listing
    that succeeds. *)
Theorem handleSchemaChange_creates_named_migration (mgr : MigrationManager.t)
  (old : ParsedSchema.t) (text now1 now2 : string) (root root1 : Fs.dir)
  (m : Migration.t) :
  MigrationManager.previousSchema mgr = Some old ->
  MigrationGenerator.generateMigration
    (SchemaComparer.compareSchemas old (SchemaParser.parseSchema text))
    (Some (MigrationManager.createMigrationName
             (SchemaComparer.compareSchemas old (SchemaParser.parseSchema text))))
    now1 root
  = (Ok (Some m), root1) ->
  Migration.name m
  = MigrationManager.createMigrationName
      (SchemaComparer.compareSchemas old (SchemaParser.parseSchema text))
  /\ Migration.id m
     = (MigrationGenerator.timestampOf now1 ++ "_"
        ++ MigrationManager.createMigrationName
             (SchemaComparer.compareSchemas old (SchemaParser.parseSchema text)))%string
  /\ MigrationManager.previousSchema
       (fst (MigrationManager.handleSchemaChange stringifyCache mgr (Some text)
               now1 now2 root))
     = Some (SchemaParser.parseSchema text)
  /\ (Spec.oneComponent (Migration.id m) ->
      parseJson (Spec.metadataText m) = Ok (Spec.metadataOf m) ->
      In (Spec.listed m)
        (flat_map (MigrationManager.visit parseJson)
           (snd (MigrationManager.handleSchemaChange stringifyCache mgr (Some text)
                   now1 now2 root)))
      /\ forall listing,
           MigrationManager.getMigrations parseJson localeCompare
             (snd (MigrationManager.handleSchemaChange stringifyCache mgr (Some text)
                     now1 now2 root))
           = Ok listing ->
           In (Spec.listed m) listing).
Proof.
  intros Hprev Hg.
  rewrite (handleSchemaChange_generated mgr old text now1 now2 root root1 m Hprev Hg).
  simpl.
  pose proof Hg as Hs. apply generateMigration_some in Hs.
  destruct Hs as (ups & downs & Hp & Hm).
  assert (Hne : SchemaComparer.compareSchemas old (SchemaParser.parseSchema text) <> [])
    by (intros E; rewrite E in Hg; discriminate).
  pose proof (truthy_not_empty _ (createMigrationName_not_empty _ Hne)) as Ht.
  split; [subst m; unfold Spec.migrationOf; now rewrite Ht |].
  split; [subst m; unfold Spec.migrationOf; now rewrite Ht |].
  split; [reflexivity |].
  intros Hone Hparse.
  destruct (generated_migration_is_listed_aux parseJson localeCompare
              _ _ _ _ _ _ Hg Hone Hparse) as (Hin & _).
  assert (Hin' : In (Spec.listed m)
                   (flat_map (MigrationManager.visit parseJson)
                      (MigrationManager.saveSchemaCache stringifyCache
                         (MigrationManager.mkManager
                            (Some (SchemaParser.parseSchema text))
                            (MigrationManager.isInitialized mgr)) now2 root1)))
    by (now rewrite saveSchemaCache_visits).
  split; [exact Hin' |].
  intros listing Hl. exact (getMigrations_In parseJson localeCompare _ _ _ Hl Hin').
Qed.

End ManagerCalls.

Section ManagerCli.
Variable stringifyCache : string -> ParsedSchema.t -> string.
Variable parseCache : string -> result (option ParsedSchema.t).

(** X22.  [handleSchemaChangeFromCli] on an initialized manager: with
    nothing new in the schema file it returns [null] and touches
    neither the baseline nor the directory; a name given by the caller
    becomes the name of the migration, and the schema of the file the
    baseline; when the file cannot be read or the generation throws it
    returns [null] and keeps the baseline. *)
Theorem handleSchemaChangeFromCli_outcomes (mgr : MigrationManager.t)
  (old : ParsedSchema.t) (text nowInit nowGenerate nowCache : string) (root : Fs.dir) :
  MigrationManager.isInitialized mgr = true ->
  MigrationManager.previousSchema mgr = Some old ->
  (forall migrationName,
     SchemaComparer.compareSchemas old (SchemaParser.parseSchema text) = [] ->
     MigrationManager.handleSchemaChangeFromCli stringifyCache parseCache mgr migrationName
       (Some text) nowInit nowGenerate nowCache root
     = (Ok None, mgr, root))
  /\ (forall n m root1,
        n <> EmptyString ->
        MigrationGenerator.generateMigration
          (SchemaComparer.compareSchemas old (SchemaParser.parseSchema text))
          (Some n) nowGenerate root
        = (Ok (Some m), root1) ->
        MigrationManager.handleSchemaChangeFromCli stringifyCache parseCache mgr (Some n)
          (Some text) nowInit nowGenerate nowCache root
        = (Ok (Some m),
           MigrationManager.mkManager (Some (SchemaParser.parseSchema text)) true,
           MigrationManager.saveSchemaCache stringifyCache
             (MigrationManager.mkManager (Some (SchemaParser.parseSchema text)) true)
             nowCache root1)
        /\ Migration.name m = n)
  /\ (forall migrationName,
        MigrationManager.handleSchemaChangeFromCli stringifyCache parseCache mgr
          migrationName None nowInit nowGenerate nowCache root
        = (Ok None, mgr, root))
  /\ (forall n e root1,
        n <> EmptyString ->
        MigrationGenerator.generateMigration
          (SchemaComparer.compareSchemas old (SchemaParser.parseSchema text))
          (Some n) nowGenerate root
        = (Throw e, root1) ->
        MigrationManager.handleSchemaChangeFromCli stringifyCache parseCache mgr (Some n)
          (Some text) nowInit nowGenerate nowCache root
        = (Ok None, mgr, root1)).
Proof.
  intros Hinit Hprev.
  split; [| split; [| split]].
  - intros migrationName Hnil.
    unfold MigrationManager.handleSchemaChangeFromCli, MigrationManager.ensureInitialized.
    rewrite Hinit.
    unfold MigrationManager.parseSchemaFile, MigrationManager.compareWithPrevious.
    rewrite Hprev. cbn [bindR]. rewrite Hnil. reflexivity.
  - intros n m root1 Hn Hg.
    assert (Hne : SchemaComparer.compareSchemas old (SchemaParser.parseSchema text) <> [])
      by (intros E; rewrite E in Hg; discriminate).
    split.
    + unfold MigrationManager.handleSchemaChangeFromCli, MigrationManager.ensureInitialized.
      rewrite Hinit.
      unfold MigrationManager.parseSchemaFile, MigrationManager.compareWithPrevious.
      rewrite Hprev. cbn [bindR]. rewrite (truthy_not_empty n Hn), Hg, Hinit.
      destruct (SchemaComparer.compareSchemas old (SchemaParser.parseSchema text))
        as [| c cs]; [contradiction | reflexivity].
    + apply generateMigration_some in Hg. destruct Hg as (ups & downs & _ & ->).
      unfold Spec.migrationOf. now rewrite (truthy_not_empty n Hn).
  - intros migrationName.
    unfold MigrationManager.handleSchemaChangeFromCli, MigrationManager.ensureInitialized.
    now rewrite Hinit.
  - intros n e root1 Hn Hg.
    unfold MigrationManager.handleSchemaChangeFromCli, MigrationManager.ensureInitialized.
    rewrite Hinit.
    unfold MigrationManager.parseSchemaFile, MigrationManager.compareWithPrevious.
    rewrite Hprev. cbn [bindR]. rewrite (truthy_not_empty n Hn), Hg.
    destruct (SchemaComparer.compareSchemas old (SchemaParser.parseSchema text))
      as [| c cs]; [discriminate | reflexivity].
Qed.

(** X23.  The schema cache carries the baseline to the next run: if
    reading a cache document gives back the schema that was written,
    then after a first [initialize] on a directory without cache, a new
    manager that initializes on the resulting directory takes the
    schema parsed then as its baseline, whatever the schema file holds
    by now, and writes nothing. *)
Theorem initialize_restores_cached_schema (text now : string) (root : Fs.dir) :
  Fs.lookup MigrationManager.schemaCacheName root = None ->
  parseCache (stringifyCache now (SchemaParser.parseSchema text))
  = Ok (Some (SchemaParser.parseSchema text)) ->
  fst (MigrationManager.initialize stringifyCache parseCache
         (MigrationManager.mkManager None false) (Some text) now root)
  = (Ok tt, MigrationManager.mkManager (Some (SchemaParser.parseSchema text)) true)
  /\ forall schemaFile now',
       MigrationManager.initialize stringifyCache parseCache
         (MigrationManager.mkManager None false) schemaFile now'
         (snd (MigrationManager.initialize stringifyCache parseCache
                 (MigrationManager.mkManager None false) (Some text) now root))
       = (Ok tt, MigrationManager.mkManager (Some (SchemaParser.parseSchema text)) true,
          snd (MigrationManager.initialize stringifyCache parseCache
                 (MigrationManager.mkManager None false) (Some text) now root)).
Proof.
  intros Hfree Hrt.
  assert (Hfirst : MigrationManager.initialize stringifyCache parseCache
                     (MigrationManager.mkManager None false) (Some text) now root
                   = (Ok tt,
                      MigrationManager.mkManager (Some (SchemaParser.parseSchema text)) true,
                      Fs.set MigrationManager.schemaCacheName
                        (Fs.File (stringifyCache now (SchemaParser.parseSchema text))) root)).
  { unfold MigrationManager.initialize, MigrationManager.loadCachedSchema, Fs.pathExists.
    rewrite Hfree. simpl.
    unfold MigrationManager.saveSchemaCache, MigrationManager.writeRootFile. simpl.
    now rewrite Hfree. }
  rewrite Hfirst. simpl. split; [reflexivity |].
  intros schemaFile now'.
  unfold MigrationManager.initialize, MigrationManager.loadCachedSchema, Fs.pathExists,
    Fs.readFile.
  rewrite lookup_set_eq. simpl. rewrite Hrt. reflexivity.
Qed.

(** X24.  [checkForChanges] on an initialized manager answers [false]
    exactly when nothing changed for the differ, answers [false] too
    when the schema file cannot be read, and changes neither the
    manager nor the directory. *)
Theorem checkForChanges_reports_changes (mgr : MigrationManager.t)
  (old : ParsedSchema.t) (text now : string) (root : Fs.dir) :
  MigrationManager.isInitialized mgr = true ->
  MigrationManager.previousSchema mgr = Some old ->
  (exists answer,
     MigrationManager.checkForChanges stringifyCache parseCache mgr (Some text) now root
     = (Ok answer, mgr, root)
     /\ (answer = false <-> Spec.unchanged old (SchemaParser.parseSchema text)))
  /\ MigrationManager.checkForChanges stringifyCache parseCache mgr None now root
     = (Ok false, mgr, root).
Proof.
  intros Hinit Hprev.
  unfold MigrationManager.checkForChanges, MigrationManager.ensureInitialized.
  rewrite Hinit. unfold MigrationManager.parseSchemaFile, MigrationManager.compareWithPrevious.
  rewrite Hprev. simpl. split; [| reflexivity].
  eexists. split; [reflexivity |].
  rewrite <- compareSchemas_nil_iff.
  destruct (SchemaComparer.compareSchemas old (SchemaParser.parseSchema text));
    cbn; split; congruence.
Qed.

End ManagerCli.

(** ** The manager on the scenario *)

Lemma scenario_unchanged :
  Spec.unchanged Scenario.oldSchema (SchemaParser.parseSchema Scenario.oldText).
Proof. apply compareSchemas_nil_iff. vm_compute. reflexivity. Qed.

Lemma handleSchemaChange_without_changes_witness :
  MigrationManager.previousSchema Scenario.manager = Some Scenario.oldSchema
  /\ Spec.unchanged Scenario.oldSchema (SchemaParser.parseSchema Scenario.oldText)
  /\ MigrationManager.getMigrations MigrationManager.parsePlain
       MigrationManager.compareDigits
       (snd (MigrationManager.handleSchemaChange Scenario.cacheText Scenario.manager
               (Some Scenario.oldText) Scenario.now1 Scenario.now2 []))
     = MigrationManager.getMigrations MigrationManager.parsePlain
         MigrationManager.compareDigits [].
Proof.
  split; [reflexivity |]. split; [exact scenario_unchanged |].
  exact (proj1 (proj2 (handleSchemaChange_without_changes Scenario.cacheText
                         MigrationManager.parsePlain MigrationManager.compareDigits
                         Scenario.manager Scenario.oldSchema Scenario.oldText
                         Scenario.now1 Scenario.now2 [] eq_refl scenario_unchanged))).
Defined.

Lemma scenario_first_handle :
  MigrationManager.previousSchema
    (fst (MigrationManager.handleSchemaChange Scenario.cacheText Scenario.manager
            (Some Scenario.newText) Scenario.now1 Scenario.now2 []))
  = Some (SchemaParser.parseSchema Scenario.newText).
Proof. vm_compute. reflexivity. Qed.

Lemma handleSchemaChange_idempotent_witness :
  MigrationManager.previousSchema
    (fst (MigrationManager.handleSchemaChange Scenario.cacheText Scenario.manager
            (Some Scenario.newText) Scenario.now1 Scenario.now2 []))
  = Some (SchemaParser.parseSchema Scenario.newText)
  /\ fst (MigrationManager.handleSchemaChange Scenario.cacheText
            (fst (MigrationManager.handleSchemaChange Scenario.cacheText Scenario.manager
                    (Some Scenario.newText) Scenario.now1 Scenario.now2 []))
            (Some Scenario.newText) Scenario.now2 Scenario.now2
            (snd (MigrationManager.handleSchemaChange Scenario.cacheText Scenario.manager
                    (Some Scenario.newText) Scenario.now1 Scenario.now2 [])))
     = fst (MigrationManager.handleSchemaChange Scenario.cacheText Scenario.manager
              (Some Scenario.newText) Scenario.now1 Scenario.now2 []).
Proof.
  split; [exact scenario_first_handle |].
  exact (proj1 (handleSchemaChange_idempotent Scenario.cacheText
                  MigrationManager.parsePlain MigrationManager.compareDigits
                  Scenario.manager Scenario.newText Scenario.now1 Scenario.now2
                  Scenario.now2 Scenario.now2 [] scenario_first_handle)).
Defined.

Lemma scenario_named_generation :
  MigrationGenerator.generateMigration
    (SchemaComparer.compareSchemas Scenario.oldSchema
       (SchemaParser.parseSchema Scenario.newText))
    (Some (MigrationManager.createMigrationName
             (SchemaComparer.compareSchemas Scenario.oldSchema
                (SchemaParser.parseSchema Scenario.newText))))
    Scenario.now1 []
  = (Ok (Some (Migration.mk "20250504123456_add_Post_and_add_bio_to_User"
                 "add_Post_and_add_bio_to_User" "20250504123456"
                 Scenario.upSql Scenario.downSql)),
     snd (MigrationGenerator.generateMigration Scenario.changes
            (Some "add_Post_and_add_bio_to_User") Scenario.now1 [])).
Proof. vm_compute. reflexivity. Qed.

Lemma handleSchemaChange_creates_named_migration_witness :
  MigrationManager.previousSchema Scenario.manager = Some Scenario.oldSchema
  /\ MigrationManager.previousSchema
       (fst (MigrationManager.handleSchemaChange Scenario.cacheText Scenario.manager
               (Some Scenario.newText) Scenario.now1 Scenario.now2 []))
     = Some (SchemaParser.parseSchema Scenario.newText)
  /\ In (Spec.listed (Migration.mk "20250504123456_add_Post_and_add_bio_to_User"
                        "add_Post_and_add_bio_to_User" "20250504123456"
                        Scenario.upSql Scenario.downSql))
       (flat_map (MigrationManager.visit MigrationManager.parsePlain)
          (snd (MigrationManager.handleSchemaChange Scenario.cacheText Scenario.manager
                  (Some Scenario.newText) Scenario.now1 Scenario.now2 []))).
Proof.
  split; [reflexivity |].
  pose proof (handleSchemaChange_creates_named_migration Scenario.cacheText
                MigrationManager.parsePlain MigrationManager.compareDigits
                Scenario.manager Scenario.oldSchema Scenario.newText Scenario.now1
                Scenario.now2 [] _ _ eq_refl scenario_named_generation)
    as (_ & _ & Hbase & Hlisted).
  split; [exact Hbase |].
  refine (proj1 (Hlisted _ _)); vm_compute; reflexivity.
Defined.

Lemma scenario_custom_generation :
  MigrationGenerator.generateMigration
    (SchemaComparer.compareSchemas Scenario.oldSchema
       (SchemaParser.parseSchema Scenario.newText))
    (Some "custom") Scenario.now1 []
  = (Ok (Some (Migration.mk "20250504123456_custom" "custom" "20250504123456"
                 Scenario.upSql Scenario.downSql)),
     snd (MigrationGenerator.generateMigration Scenario.changes (Some "custom")
            Scenario.now1 [])).
Proof. vm_compute. reflexivity. Qed.

Lemma handleSchemaChangeFromCli_outcomes_witness :
  MigrationManager.isInitialized Scenario.manager = true
  /\ MigrationManager.previousSchema Scenario.manager = Some Scenario.oldSchema
  /\ fst (fst (MigrationManager.handleSchemaChangeFromCli Scenario.cacheText
                 Scenario.cacheSchema Scenario.manager (Some "custom")
                 (Some Scenario.newText) Scenario.now1 Scenario.now1 Scenario.now2 []))
     = Ok (Some (Migration.mk "20250504123456_custom" "custom" "20250504123456"
                   Scenario.upSql Scenario.downSql)).
Proof.
  split; [reflexivity |]. split; [reflexivity |].
  rewrite (proj1 (proj1 (proj2
    (handleSchemaChangeFromCli_outcomes Scenario.cacheText Scenario.cacheSchema
       Scenario.manager Scenario.oldSchema Scenario.newText Scenario.now1 Scenario.now1
       Scenario.now2 [] eq_refl eq_refl))
    "custom" _ _ ltac:(discriminate) scenario_custom_generation)).
  reflexivity.
Defined.

Lemma scenario_cache_round_trip :
  Scenario.cacheSchema
    (Scenario.cacheText Scenario.now1 (SchemaParser.parseSchema Scenario.newText))
  = Ok (Some (SchemaParser.parseSchema Scenario.newText)).
Proof. vm_compute. reflexivity. Qed.

Lemma initialize_restores_cached_schema_witness :
  Fs.lookup MigrationManager.schemaCacheName [] = None
  /\ Scenario.cacheSchema
       (Scenario.cacheText Scenario.now1 (SchemaParser.parseSchema Scenario.newText))
     = Ok (Some (SchemaParser.parseSchema Scenario.newText))
  /\ fst (MigrationManager.initialize Scenario.cacheText Scenario.cacheSchema
            (MigrationManager.mkManager None false) (Some Scenario.newText)
            Scenario.now1 [])
     = (Ok tt,
        MigrationManager.mkManager (Some (SchemaParser.parseSchema Scenario.newText)) true).
Proof.
  split; [reflexivity |]. split; [exact scenario_cache_round_trip |].
  exact (proj1 (initialize_restores_cached_schema Scenario.cacheText Scenario.cacheSchema
                  Scenario.newText Scenario.now1 [] eq_refl scenario_cache_round_trip)).
Defined.

Lemma checkForChanges_reports_changes_witness :
  MigrationManager.isInitialized Scenario.manager = true
  /\ MigrationManager.previousSchema Scenario.manager = Some Scenario.oldSchema
  /\ MigrationManager.checkForChanges Scenario.cacheText Scenario.cacheSchema
       Scenario.manager None Scenario.now1 []
     = (Ok false, Scenario.manager, []).
Proof.
  split; [reflexivity |]. split; [reflexivity |].
  exact (proj2 (checkForChanges_reports_changes Scenario.cacheText Scenario.cacheSchema
                  Scenario.manager Scenario.oldSchema Scenario.oldText Scenario.now1 []
                  eq_refl eq_refl)).
Defined.
